(** * sockx: namespaces, rooms, clients and event fan-out

    A shallow embedding of [sockx.go].  Go pointers are locations in an
    explicit heap; every method becomes a function in a small state and
    error monad over that heap, where failure stands for a Go panic (a nil
    or dangling pointer dereference).

    The function of a method runs the whole call, so a sequence of
    operations is a run in which each call returns before the next one
    starts.  The [sync.RWMutex] fields do not make every call atomic:
    [Join], [Leave] and the deferred function of [readPump] take and
    release several locks in turn, and another goroutine can run in
    between.  Section Interleavings splits these three into their lock
    scopes and runs goroutines against each other. *)

From stdpp Require Import gmap strings list fin_maps sorting.
From Stdlib Require Import Ascii Floats.SpecFloat.

Set Warnings "-register-all,-clear-no-such-hyp".
Local Open Scope string_scope.

(** ** Data model *)

(** A Go pointer. *)
Abbreviation loc := positive (only parsing).

(** A [float64], given by its IEEE 754 description. *)
Abbreviation float64 := spec_float (only parsing).

(** The dynamic values an [interface{}] payload carries through the server
    and over JSON: [nil], [bool], [int], [float64], [string],
    [[]interface{}] and [map[string]interface{}]. *)
Inductive value :=
  | VNil
  | VBool (b : bool)
  | VInt (n : Z)
  | VFloat (f : float64)
  | VString (s : string)
  | VSlice (l : list value)
  | VMap (m : gmap string value).

(** [type Message struct]. *)
Record Message := mkMessage {
  msg_Event : string;
  msg_Data : value;
  msg_Namespace : string;
  msg_Room : string
}.

(** [chan Message]: a bounded FIFO.  A client's channel is created with the
    client and its [send] field is never reassigned, so the buffer is kept
    in the client's record.  The channel is never closed.  A nil channel,
    like an unbuffered one that no receiver waits on, is a channel of
    capacity 0: a send on it is never ready. *)
Record chan := mkChan {
  chan_cap : nat;
  chan_buf : list Message
}.

(** [make(chan Message, n)]. *)
Definition make_chan (n : nat) : chan := {| chan_cap := n; chan_buf := [] |}.

(** [type EventHandler func(c *Client, data interface{})]: a Go func value is an
    opaque code pointer; what calling it does is given to the dispatcher
    separately (see [handleEvent]). *)
Abbreviation EventHandler := positive (only parsing).

(** [type Server struct] ([upgrader] is the transport collaborator, see
    [ServeWebSocket]). *)
Record Server := mkServer {
  namespaces : gmap string loc
}.

(** [type Namespace struct]. *)
Record Namespace := mkNamespace {
  ns_name : string;
  ns_clients : gmap loc bool;
  ns_rooms : gmap string loc;
  ns_events : gmap string EventHandler;
  ns_server : loc
}.

(** [type Room struct]. *)
Record Room := mkRoom {
  r_name : string;
  r_clients : gmap loc bool;
  r_namespace : loc
}.

(** [type Client struct].  [rooms] is a map that has been made, as it is
    for every client [ServeWebSocket] creates. *)
Record Client := mkClient {
  ID : string;
  c_conn : loc;
  c_server : loc;
  c_namespace : loc;
  c_rooms : gmap string bool;
  send : chan
}.

(** A [*websocket.Conn] as the teardown sees it: whether [Close] was
    called. *)
Record Conn := mkConn {
  conn_closed : bool
}.

(** The heap: one store per struct type. *)
Record Heap := mkHeap {
  h_servers : gmap loc Server;
  h_nss : gmap loc Namespace;
  h_rooms : gmap loc Room;
  h_clients : gmap loc Client;
  h_conns : gmap loc Conn
}.

Definition empty_heap : Heap := mkHeap ∅ ∅ ∅ ∅ ∅.

Definition set_servers (f : gmap loc Server → gmap loc Server) (h : Heap) : Heap :=
  mkHeap (f (h_servers h)) (h_nss h) (h_rooms h) (h_clients h) (h_conns h).
Definition set_nss (f : gmap loc Namespace → gmap loc Namespace) (h : Heap) : Heap :=
  mkHeap (h_servers h) (f (h_nss h)) (h_rooms h) (h_clients h) (h_conns h).
Definition set_rooms (f : gmap loc Room → gmap loc Room) (h : Heap) : Heap :=
  mkHeap (h_servers h) (h_nss h) (f (h_rooms h)) (h_clients h) (h_conns h).
Definition set_clients (f : gmap loc Client → gmap loc Client) (h : Heap) : Heap :=
  mkHeap (h_servers h) (h_nss h) (h_rooms h) (f (h_clients h)) (h_conns h).
Definition set_conns (f : gmap loc Conn → gmap loc Conn) (h : Heap) : Heap :=
  mkHeap (h_servers h) (h_nss h) (h_rooms h) (h_clients h) (f (h_conns h)).

(** ** The monad *)

Definition M (A : Type) : Type := Heap → option (A * Heap).

Definition ret {A} (a : A) : M A := λ h, Some (a, h).
Definition bind {A B} (m : M A) (k : A → M B) : M B :=
  λ h, match m h with
       | Some (a, h') => k a h'
       | None => None
       end.

Notation "'let*' x ':=' m 'in' k" := (bind m (λ x, k))
  (at level 10, x pattern, m at level 100, k at level 200).
Notation "m ;;; k" := (bind m (λ _, k))
  (at level 100, k at level 200, right associativity).

(** Dereference a pointer; a pointer that is not in the store panics. *)
Definition deref {A} (store : Heap → gmap loc A) (p : loc) : M A :=
  λ h, match store h !! p with
       | Some a => Some (a, h)
       | None => None
       end.
(** Write through a pointer that must be live. *)
Definition assign {A} (store : Heap → gmap loc A)
    (set : (gmap loc A → gmap loc A) → Heap → Heap) (p : loc) (a : A) : M unit :=
  λ h, match store h !! p with
       | Some _ => Some (tt, set (insert p a) h)
       | None => None
       end.
(** [&T{...}]: allocate at a location the store does not use yet. *)
Definition alloc {A} (store : Heap → gmap loc A)
    (set : (gmap loc A → gmap loc A) → Heap → Heap) (a : A) : M loc :=
  λ h, let p := fresh (dom (store h)) in Some (p, set (insert p a) h).

(** [for _, x := range l { body }]. *)
Fixpoint for_each {A} (l : list A) (body : A → M unit) : M unit :=
  match l with
  | [] => ret tt
  | x :: l' => body x ;;; for_each l' body
  end.

(** [for k := range m { body }].  Go leaves the order of a map range
    unspecified; the embedding fixes one ([range_order_irrelevant] shows
    that the emit loops do not depend on it). *)
Definition for_range {V} (m : gmap loc V) (body : loc → M unit) : M unit :=
  for_each (map_to_list m).*1 body.

(** ** Server *)

(** [func NewServer() *Server]. *)
Definition NewServer : M loc :=
  alloc h_servers set_servers {| namespaces := ∅ |}.

(** [func (s *Server) Namespace(name string) *Namespace]. *)
Definition Server_Namespace (s : loc) (name : string) : M loc :=
  let* sv := deref h_servers s in
  match namespaces sv !! name with
  | Some ns => ret ns
  | None =>
      let* ns := alloc h_nss set_nss
        {| ns_name := name; ns_clients := ∅; ns_rooms := ∅;
           ns_events := ∅; ns_server := s |} in
      assign h_servers set_servers s
        {| namespaces := <[name := ns]> (namespaces sv) |} ;;;
      ret ns
  end.

(** ** Namespace *)

Definition ns_with_rooms (f : gmap string loc → gmap string loc) (n : Namespace)
    : Namespace :=
  {| ns_name := ns_name n; ns_clients := ns_clients n;
     ns_rooms := f (ns_rooms n); ns_events := ns_events n; ns_server := ns_server n |}.

(** [func (ns *Namespace) On(event string, handler EventHandler)]. *)
Definition Namespace_On (ns : loc) (event : string) (handler : EventHandler) : M unit :=
  let* n := deref h_nss ns in
  assign h_nss set_nss ns
    {| ns_name := ns_name n; ns_clients := ns_clients n; ns_rooms := ns_rooms n;
       ns_events := <[event := handler]> (ns_events n); ns_server := ns_server n |}.

(** The [select { case client.send <- msg: default: }] of the three emits:
    enqueue when the buffer has room, otherwise skip. *)
Definition chan_try_send (ch : chan) (msg : Message) : chan :=
  if decide (length (chan_buf ch) < chan_cap ch)%nat
  then {| chan_cap := chan_cap ch; chan_buf := chan_buf ch ++ [msg] |}
  else ch.

(** The push seen on the record of the client that owns the channel. *)
Definition pushed (msg : Message) (c : Client) : Client :=
  {| ID := ID c; c_conn := c_conn c; c_server := c_server c;
     c_namespace := c_namespace c; c_rooms := c_rooms c;
     send := chan_try_send (send c) msg |}.

Definition select_send (client : loc) (msg : Message) : M unit :=
  let* c := deref h_clients client in
  assign h_clients set_clients client (pushed msg c).

(** [func (ns *Namespace) Emit(event string, data interface{})]. *)
Definition Namespace_Emit (ns : loc) (event : string) (data : value) : M unit :=
  let* n := deref h_nss ns in
  let msg := {| msg_Event := event; msg_Data := data;
                msg_Namespace := ns_name n; msg_Room := "" |} in
  for_range (ns_clients n) (λ client, select_send client msg).

(** [func (ns *Namespace) Room(name string) *Room]. *)
Definition Namespace_Room (ns : loc) (name : string) : M loc :=
  let* n := deref h_nss ns in
  match ns_rooms n !! name with
  | Some room => ret room
  | None =>
      let* room := alloc h_rooms set_rooms
        {| r_name := name; r_clients := ∅; r_namespace := ns |} in
      assign h_nss set_nss ns (ns_with_rooms (insert name room) n) ;;;
      ret room
  end.

Definition ns_with_clients (f : gmap loc bool → gmap loc bool) (n : Namespace)
    : Namespace :=
  {| ns_name := ns_name n; ns_clients := f (ns_clients n);
     ns_rooms := ns_rooms n; ns_events := ns_events n; ns_server := ns_server n |}.

(** [func (ns *Namespace) addClient(client *Client)]. *)
Definition Namespace_addClient (ns client : loc) : M unit :=
  let* n := deref h_nss ns in
  assign h_nss set_nss ns (ns_with_clients (insert client true) n).

(** [func (ns *Namespace) removeClient(client *Client)]. *)
Definition Namespace_removeClient (ns client : loc) : M unit :=
  let* n := deref h_nss ns in
  assign h_nss set_nss ns (ns_with_clients (delete client) n).

(** ** Room *)

(** [func (r *Room) Emit(event string, data interface{})]. *)
Definition Room_Emit (r : loc) (event : string) (data : value) : M unit :=
  let* rm := deref h_rooms r in
  let* n := deref h_nss (r_namespace rm) in
  let msg := {| msg_Event := event; msg_Data := data;
                msg_Namespace := ns_name n; msg_Room := r_name rm |} in
  for_range (r_clients rm) (λ client, select_send client msg).

Definition room_with_clients (f : gmap loc bool → gmap loc bool) (rm : Room) : Room :=
  {| r_name := r_name rm; r_clients := f (r_clients rm);
     r_namespace := r_namespace rm |}.

(** [func (r *Room) addClient(client *Client)]. *)
Definition Room_addClient (r client : loc) : M unit :=
  let* rm := deref h_rooms r in
  assign h_rooms set_rooms r (room_with_clients (insert client true) rm).

(** [func (r *Room) removeClient(client *Client)]. *)
Definition Room_removeClient (r client : loc) : M unit :=
  let* rm := deref h_rooms r in
  assign h_rooms set_rooms r (room_with_clients (delete client) rm).

(** ** Client *)

Definition with_rooms (f : gmap string bool → gmap string bool) (c : Client) : Client :=
  {| ID := ID c; c_conn := c_conn c; c_server := c_server c;
     c_namespace := c_namespace c; c_rooms := f (c_rooms c); send := send c |}.

(** [func (c *Client) Join(roomName string)]. *)
Definition Client_Join (c : loc) (roomName : string) : M unit :=
  let* cl := deref h_clients c in
  assign h_clients set_clients c (with_rooms (insert roomName true) cl) ;;;
  let* room := Namespace_Room (c_namespace cl) roomName in
  Room_addClient room c.

(** [func (c *Client) Leave(roomName string)]. *)
Definition Client_Leave (c : loc) (roomName : string) : M unit :=
  let* cl := deref h_clients c in
  assign h_clients set_clients c (with_rooms (delete roomName) cl) ;;;
  let* n := deref h_nss (c_namespace cl) in
  match ns_rooms n !! roomName with
  | Some room => Room_removeClient room c
  | None => ret tt
  end.

(** [func (c *Client) Emit(event string, data interface{})]. *)
Definition Client_Emit (c : loc) (event : string) (data : value) : M unit :=
  let* cl := deref h_clients c in
  let* n := deref h_nss (c_namespace cl) in
  select_send c {| msg_Event := event; msg_Data := data;
                   msg_Namespace := ns_name n; msg_Room := "" |}.

(** [c.conn.Close()]. *)
Definition Conn_Close (conn : loc) : M unit :=
  assign h_conns set_conns conn {| conn_closed := true |}.

(** The deferred function of [readPump]: deregister from the namespace,
    snapshot the names in [c.rooms], leave each of them, close the
    connection.  The snapshot is taken in the order of [map_to_list];
    [leave_order_irrelevant] shows that the order does not matter. *)
Definition readPump_deferred (c : loc) : M unit :=
  let* cl := deref h_clients c in
  Namespace_removeClient (c_namespace cl) c ;;;
  let* cl := deref h_clients c in
  let rooms := (map_to_list (c_rooms cl)).*1 in
  for_each rooms (λ room, Client_Leave c room) ;;;
  Conn_Close (c_conn cl).

(** ** Wire format

    [WriteJSON] and [ReadJSON] go through [encoding/json].  A frame is
    modelled as the JSON value its text denotes, an object as its members
    in the order of the text (a key can occur more than once).  What is
    modelled of the library is its behaviour on [Message] and on
    [interface{}] payloads: fields are written in the order of the struct,
    the members of a map sorted by key; an integer is written as an
    integer literal and every number is read back as a [float64]; a NaN or
    an infinite float cannot be written and a number outside the range of
    [float64] cannot be read; a byte that is not part of a well-formed
    UTF-8 sequence is written, and read, as U+FFFD; a field tagged
    [omitempty] is left out when it is the empty string; a key selects the
    field whose tag it matches, also when the letters differ in case; a
    member that selects no field is skipped and a missing field stays
    zero; a text in which arrays and objects are nested more than 10000
    deep is refused.  A text that is not JSON at all is no value of
    [json]; like every frame that does not decode, it ends the inbound
    pump. *)

Inductive numlit :=
  | NumInt (n : Z)
  | NumFloat (f : float64).

Inductive json :=
  | JNull
  | JBool (b : bool)
  | JNumber (n : numlit)
  | JString (s : string)
  | JArray (l : list json)
  | JObject (o : list (string * json)).

(** For a leading byte [b0 >= 0x80]: the length of the sequence it starts
    and the range its second byte must lie in (the [first] and
    [acceptRanges] tables of [unicode/utf8]). *)
Definition utf8_first (b0 : N) : option (nat * N * N) :=
  if (b0 <? 194)%N then None
  else if (b0 <=? 223)%N then Some (2, 128%N, 191%N)
  else if (b0 =? 224)%N then Some (3, 160%N, 191%N)
  else if (b0 <=? 236)%N then Some (3, 128%N, 191%N)
  else if (b0 =? 237)%N then Some (3, 128%N, 159%N)
  else if (b0 <=? 239)%N then Some (3, 128%N, 191%N)
  else if (b0 =? 240)%N then Some (4, 144%N, 191%N)
  else if (b0 <=? 243)%N then Some (4, 128%N, 191%N)
  else if (b0 =? 244)%N then Some (4, 128%N, 143%N)
  else None.

Definition in_range (lo hi : N) (b : ascii) : bool :=
  ((lo <=? N_of_ascii b) && (N_of_ascii b <=? hi))%N.

(** The number of bytes of the well-formed UTF-8 sequence at the head of
    [s]; 0 when the head is ill-formed ([utf8.DecodeRuneInString] giving
    [RuneError] with size 1) or [s] is empty. *)
Definition rune_len (s : string) : nat :=
  match s with
  | EmptyString => 0
  | String b0 s1 =>
      if (N_of_ascii b0 <? 128)%N then 1
      else
        match utf8_first (N_of_ascii b0), s1 with
        | Some (2, lo, hi), String b1 _ =>
            if in_range lo hi b1 then 2 else 0
        | Some (3, lo, hi), String b1 (String b2 _) =>
            if in_range lo hi b1 && in_range 128 191 b2 then 3 else 0
        | Some (4, lo, hi), String b1 (String b2 (String b3 _)) =>
            if in_range lo hi b1 && in_range 128 191 b2 && in_range 128 191 b3
            then 4 else 0
        | _, _ => 0
        end
  end.

(** U+FFFD in UTF-8. *)
Definition replacement_char (rest : string) : string :=
  String (ascii_of_N 239) (String (ascii_of_N 191) (String (ascii_of_N 189) rest)).

(** The string a decoder gets back for [s]: well-formed sequences are kept,
    every other byte becomes U+FFFD.  [copy] counts the bytes of the
    current sequence still to be copied. *)
Fixpoint to_valid_utf8_from (copy : nat) (s : string) : string :=
  match s with
  | EmptyString => EmptyString
  | String b rest =>
      match copy with
      | S k => String b (to_valid_utf8_from k rest)
      | O =>
          match rune_len s with
          | O => replacement_char (to_valid_utf8_from 0 rest)
          | S k => String b (to_valid_utf8_from k rest)
          end
      end
  end.

Definition to_valid_utf8 (s : string) : string := to_valid_utf8_from 0 s.

(** [utf8.ValidString]. *)
Definition valid_utf8 (s : string) : bool := String.eqb (to_valid_utf8 s) s.

(** The [float64] an integer literal is read as: binary64 (53 bits of
    precision, exponents below 1024), rounded to nearest, ties to even. *)
Definition float64_of_int (n : Z) : float64 :=
  binary_normalize 53 1024 n 0 false.

(** Neither NaN nor an infinity. *)
Definition finite (f : float64) : bool :=
  match f with
  | S754_nan | S754_infinity _ => false
  | _ => true
  end.

(** Go orders strings byte by byte. *)
Definition key_le {A} (x y : string * A) : Prop := String.leb x.1 y.1 = true.

(** The members of a map in the order [json.Marshal] writes them: sorted
    by key. *)
Definition sorted_members {A} (m : gmap string A) : list (string * A) :=
  @merge_sort _ key_le (λ x y, decide (String.leb x.1 y.1 = true)) (map_to_list m).

(** Whether [json.Marshal] accepts the payload. *)
Fixpoint marshalable (v : value) : bool :=
  match v with
  | VFloat f => finite f
  | VSlice l => forallb marshalable l
  | VMap m => map_fold (λ _ b acc, b && acc) true (marshalable <$> m)
  | _ => true
  end.

(** The encoder sorts the members of a map by key and then writes each
    key coerced to valid UTF-8, so two keys that differ in ill-formed
    bytes only are written as two members with the same key. *)
Fixpoint marshal_value (v : value) : json :=
  match v with
  | VNil => JNull
  | VBool b => JBool b
  | VInt n => JNumber (NumInt n)
  | VFloat f => JNumber (NumFloat f)
  | VString s => JString (to_valid_utf8 s)
  | VSlice l => JArray (marshal_value <$> l)
  | VMap m =>
      JObject (prod_map to_valid_utf8 id <$> sorted_members (marshal_value <$> m))
  end.

(** A string field tagged [omitempty]. *)
Definition omitempty (key s : string) : list (string * json) :=
  if String.eqb s "" then [] else [(key, JString (to_valid_utf8 s))].

(** The fields in the order of the struct. *)
Definition marshal_Message (m : Message) : json :=
  JObject
    ([("event", JString (to_valid_utf8 (msg_Event m)));
      ("data", marshal_value (msg_Data m))]
     ++ omitempty "namespace" (msg_Namespace m)
     ++ omitempty "room" (msg_Room m))%list.

(** [json.Marshal(msg)], as [WriteJSON] calls it. *)
Definition Marshal (m : Message) : option json :=
  if marshalable (msg_Data m) then Some (marshal_Message m) else None.

(** The map a decoder builds from the members of an object: a later
    member replaces an earlier one with the same key. *)
Definition map_of_members {A} (members : list (string * A)) : gmap string A :=
  foldl (λ m member, <[member.1 := member.2]> m) ∅ members.

(** Decoding into an [interface{}].  A number is converted with
    [strconv.ParseFloat]: a literal whose value is outside the range of
    [float64] is an error, and so that frame does not decode.  A literal
    is given by the number it denotes; [NumFloat] of an infinity stands
    for a literal that is out of range ([1e999]), and no literal denotes a
    NaN.  Strings and keys are unquoted, which coerces them to valid
    UTF-8. *)
Fixpoint unmarshal_value (j : json) : option value :=
  match j with
  | JNull => Some VNil
  | JBool b => Some (VBool b)
  | JNumber (NumInt n) =>
      if finite (float64_of_int n) then Some (VFloat (float64_of_int n)) else None
  | JNumber (NumFloat f) => if finite f then Some (VFloat f) else None
  | JString s => Some (VString (to_valid_utf8 s))
  | JArray l => VSlice <$> mapM unmarshal_value l
  | JObject o =>
      (λ members, VMap (map_of_members members)) <$>
      mapM (λ '(key, j'), v ← unmarshal_value j'; Some (to_valid_utf8 key, v)) o
  end.

(** Field names are matched through their folded form: ASCII letters in
    upper case, and the two runes that Unicode folds to ASCII letters
    (U+017F to S, U+212A to K) replaced by them.  Other runes fold to runes
    that are not ASCII, so for a match with an ASCII field name they can
    stay as they are. *)
Definition upper (b : ascii) : ascii :=
  let n := N_of_ascii b in
  if ((97 <=? n) && (n <=? 122))%N then ascii_of_N (n - 32) else b.

Fixpoint fold_name (s : string) : string :=
  match s with
  | EmptyString => EmptyString
  | String b0 rest =>
      match rest with
      | String b1 rest1 =>
          if ((N_of_ascii b0 =? 197) && (N_of_ascii b1 =? 191))%N
          then String "S" (fold_name rest1)
          else
            match rest1 with
            | String b2 rest2 =>
                if ((N_of_ascii b0 =? 226) && (N_of_ascii b1 =? 132)
                    && (N_of_ascii b2 =? 170))%N
                then String "K" (fold_name rest2)
                else String (upper b0) (fold_name rest)
            | EmptyString => String (upper b0) (fold_name rest)
            end
      | EmptyString => String (upper b0) EmptyString
      end
  end.

(** The exported fields of [Message]. *)
Inductive field := FEvent | FData | FNamespace | FRoom.

(** The field a key of the object selects: the one whose tag it equals,
    or else equals under folding (no two tags of [Message] fold to the
    same name); a key that selects no field is skipped. *)
Definition field_of (key : string) : option field :=
  let name := fold_name key in
  if String.eqb name "EVENT" then Some FEvent
  else if String.eqb name "DATA" then Some FData
  else if String.eqb name "NAMESPACE" then Some FNamespace
  else if String.eqb name "ROOM" then Some FRoom
  else None.

(** Decoding a value into a string field that holds [old]: [null] leaves
    the field as it is, a string sets it, a value of another kind is an
    [UnmarshalTypeError]. *)
Definition decode_string (j : json) (old : string) : option string :=
  match j with
  | JNull => Some old
  | JString s => Some (to_valid_utf8 s)
  | _ => None
  end.

(** One member of the object, decoded into the struct. *)
Definition decode_member (msg : Message) (member : string * json) : option Message :=
  match field_of (to_valid_utf8 member.1) with
  | Some FEvent =>
      s ← decode_string member.2 (msg_Event msg);
      Some (mkMessage s (msg_Data msg) (msg_Namespace msg) (msg_Room msg))
  | Some FData =>
      v ← unmarshal_value member.2;
      Some (mkMessage (msg_Event msg) v (msg_Namespace msg) (msg_Room msg))
  | Some FNamespace =>
      s ← decode_string member.2 (msg_Namespace msg);
      Some (mkMessage (msg_Event msg) (msg_Data msg) s (msg_Room msg))
  | Some FRoom =>
      s ← decode_string member.2 (msg_Room msg);
      Some (mkMessage (msg_Event msg) (msg_Data msg) (msg_Namespace msg) s)
  | None => Some msg
  end.

(** How deep arrays and objects are nested in a value. *)
Fixpoint json_depth (j : json) : N :=
  match j with
  | JArray l => N.succ (foldr (λ x acc, N.max (json_depth x) acc) 0%N l)
  | JObject o => N.succ (foldr (λ member acc, N.max (json_depth member.2) acc) 0%N o)
  | _ => 0%N
  end.

(** [maxNestingDepth] of the scanner of [encoding/json]. *)
Definition maxNestingDepth : N := 10000.

(** Decoding into [var msg Message]: the members are decoded in the
    order of the text, into a struct that starts zero; [null] leaves the
    struct zero, and a value that is not an object is an error.  The
    decoder goes on after an [UnmarshalTypeError] and reports it at the
    end; either way the frame does not decode. *)
Definition decode_Message (j : json) : option Message :=
  match j with
  | JNull => Some (mkMessage "" VNil "" "")
  | JObject o =>
      foldl (λ acc member, msg ← acc; decode_member msg member)
        (Some (mkMessage "" VNil "" "")) o
  | _ => None
  end.

(** [json.Unmarshal] into [var msg Message], as [ReadJSON] calls it.  The
    scanner first checks the whole text, and refuses one nested deeper
    than [maxNestingDepth], also where the nesting is in a member that
    the decoder would skip. *)
Definition Unmarshal (j : json) : option Message :=
  if (maxNestingDepth <? json_depth j)%N then None else decode_Message j.

(** The payloads [Unmarshal] can produce. *)
Fixpoint generic (v : value) : bool :=
  match v with
  | VInt _ => false
  | VFloat f => finite f
  | VString s => valid_utf8 s
  | VSlice l => forallb generic l
  | VMap m =>
      map_fold (λ k b acc, valid_utf8 k && b && acc) true (generic <$> m)
  | _ => true
  end.

(** [json.Marshal] followed by [json.Unmarshal] into a fresh [Message]. *)
Definition round_trip (m : Message) : option Message :=
  Marshal m ≫= Unmarshal.

(** How deep slices and maps are nested in a payload. *)
Fixpoint value_depth (v : value) : N :=
  match v with
  | VSlice l => N.succ (foldr (λ x acc, N.max (value_depth x) acc) 0%N l)
  | VMap m => N.succ (map_fold (λ _ x acc, N.max (value_depth x) acc) 0%N m)
  | _ => 0%N
  end.

(** A measure for induction over payloads. *)
Fixpoint value_size (v : value) : nat :=
  match v with
  | VSlice l => S (foldr (λ x acc, value_size x + acc) 0 l)
  | VMap m => S (map_fold (λ _ x acc, value_size x + acc) 0 m)
  | _ => 1
  end.

(** ** Dispatch and the inbound pump *)

Section Dispatch.
(** What calling a registered handler does. *)
Variable call : EventHandler → loc → value → M unit.

(** [func (ns *Namespace) handleEvent(client *Client, msg Message)]. *)
Definition Namespace_handleEvent (ns client : loc) (msg : Message) : M unit :=
  let* n := deref h_nss ns in
  match ns_events n !! msg_Event msg with
  | Some handler => call handler client (msg_Data msg)
  | None => ret tt
  end.

(** The [for] loop of [readPump].  [frames] is what the transport
    delivers before it closes; a frame that does not decode ends the
    loop like a closed transport does. *)
Fixpoint readPump_loop (c : loc) (frames : list json) : M unit :=
  match frames with
  | [] => ret tt
  | frame :: rest =>
      match Unmarshal frame with
      | None => ret tt
      | Some msg =>
          let* cl := deref h_clients c in
          Namespace_handleEvent (c_namespace cl) c msg ;;;
          readPump_loop c rest
      end
  end.

(** [func (c *Client) readPump()]. *)
Definition Client_readPump (c : loc) (frames : list json) : M unit :=
  readPump_loop c frames ;;; readPump_deferred c.
End Dispatch.

(** ** Accepting a connection *)

Definition chars : string :=
  "abcdefghijklmnopqrstuvwxyzABCDEFGHIJKLMNOPQRSTUVWXYZ0123456789".

(** [func randomString(n int) string]. *)
Definition randomString (n : nat) : string :=
  String.string_of_list_ascii
    ((λ i, default Ascii.zero (String.get (i mod String.length chars) chars))
       <$> seq 0 n).

(** [func generateID() string]. *)
Definition generateID : string := randomString 16.

(** The handler returned by [ServeWebSocket(namespaceName)], run on one
    request.  [upgrade] tells whether [s.upgrader.Upgrade] succeeds; the
    two pumps it starts run afterwards. *)
Definition Server_ServeWebSocket (s : loc) (namespaceName : string)
    (upgrade : bool) : M unit :=
  if upgrade then
    let* conn := alloc h_conns set_conns {| conn_closed := false |} in
    let* namespace := Server_Namespace s namespaceName in
    let* client := alloc h_clients set_clients
      {| ID := generateID; c_conn := conn; c_server := s;
         c_namespace := namespace; c_rooms := ∅; send := make_chan 256 |} in
    Namespace_addClient namespace client
  else ret tt.

(** ** Sequences of operations *)

Inductive op :=
  | OpNewServer
  | OpNamespace (s : loc) (name : string)
  | OpOn (ns : loc) (event : string) (handler : EventHandler)
  | OpRoom (ns : loc) (name : string)
  | OpAccept (s : loc) (namespaceName : string) (upgrade : bool)
  | OpJoin (c : loc) (roomName : string)
  | OpLeave (c : loc) (roomName : string)
  | OpNamespaceEmit (ns : loc) (event : string) (data : value)
  | OpRoomEmit (r : loc) (event : string) (data : value)
  | OpClientEmit (c : loc) (event : string) (data : value)
  | OpNamespaceAddClient (ns c : loc)
  | OpNamespaceRemoveClient (ns c : loc)
  | OpRoomAddClient (r c : loc)
  | OpRoomRemoveClient (r c : loc)
  | OpTeardown (c : loc).

Definition discard {A} (m : M A) : M unit := m ;;; ret tt.

Definition run_op (o : op) : M unit :=
  match o with
  | OpNewServer => discard NewServer
  | OpNamespace s name => discard (Server_Namespace s name)
  | OpOn ns event handler => Namespace_On ns event handler
  | OpRoom ns name => discard (Namespace_Room ns name)
  | OpAccept s name upgrade => Server_ServeWebSocket s name upgrade
  | OpJoin c r => Client_Join c r
  | OpLeave c r => Client_Leave c r
  | OpNamespaceEmit ns event data => Namespace_Emit ns event data
  | OpRoomEmit r event data => Room_Emit r event data
  | OpClientEmit c event data => Client_Emit c event data
  | OpNamespaceAddClient ns c => Namespace_addClient ns c
  | OpNamespaceRemoveClient ns c => Namespace_removeClient ns c
  | OpRoomAddClient r c => Room_addClient r c
  | OpRoomRemoveClient r c => Room_removeClient r c
  | OpTeardown c => readPump_deferred c
  end.

(** The states a program reaches from the empty heap with operations that
    [permitted] lets through, each one run to its end before the next
    one starts. *)
Inductive reachable (permitted : Heap → op → Prop) : Heap → Prop :=
  | reach_empty : reachable permitted empty_heap
  | reach_step h o h' :
      reachable permitted h →
      permitted h o →
      run_op o h = Some (tt, h') →
      reachable permitted h'.

(** Every operation, in any order. *)
Definition any_op (_ : Heap) (_ : op) : Prop := True.

(** [c] is registered in the client set of its own namespace. *)
Definition connected (h : Heap) (c : loc) : Prop :=
  ∃ cl n, h_clients h !! c = Some cl ∧ h_nss h !! c_namespace cl = Some n ∧
          c ∈ dom (ns_clients n).

(** The operations of a server whose clients join rooms only while they
    are connected, and leave their namespace only through the teardown of
    [readPump]. *)
Definition connected_op (h : Heap) (o : op) : Prop :=
  match o with
  | OpJoin c _ => connected h c
  | OpNamespaceRemoveClient _ _ => False
  | OpRoomAddClient _ _ => False
  | _ => True
  end.

(** ** Properties of states *)

(** A room's client set is a subset of its owning namespace's. *)
Definition room_subset (h : Heap) : Prop :=
  ∀ r rm, h_rooms h !! r = Some rm →
    ∃ n, h_nss h !! r_namespace rm = Some n ∧
         dom (r_clients rm) ⊆ dom (ns_clients n).

(** Every member of a room is a live client of the room's namespace whose
    mirror [c.rooms] names the room. *)
Definition mirror_consistent (h : Heap) : Prop :=
  ∀ r rm c, h_rooms h !! r = Some rm → c ∈ dom (r_clients rm) →
    ∃ cl, h_clients h !! c = Some cl ∧ c_namespace cl = r_namespace rm ∧
          r_name rm ∈ dom (c_rooms cl).

(** Every room is the one its namespace has under the room's name. *)
Definition rooms_registered (h : Heap) : Prop :=
  ∀ r rm, h_rooms h !! r = Some rm →
    ∃ n, h_nss h !! r_namespace rm = Some n ∧ ns_rooms n !! r_name rm = Some r.

(** [c] has joined the room at [r]: the room is registered in [c]'s
    namespace under a name of [c]'s mirror. *)
Definition joined (h : Heap) (c r : loc) : Prop :=
  ∃ cl n name, h_clients h !! c = Some cl ∧ h_nss h !! c_namespace cl = Some n ∧
               name ∈ dom (c_rooms cl) ∧ ns_rooms n !! name = Some r.

Definition full (ch : chan) : Prop := (chan_cap ch ≤ length (chan_buf ch))%nat.

(** The handler a sequence of [On] calls leaves registered for [event]:
    the one of the last call for that name, if any. *)
Fixpoint last_registered (regs : list (string * EventHandler)) (event : string)
    : option EventHandler :=
  match regs with
  | [] => None
  | (e, handler) :: rest =>
      match last_registered rest event with
      | Some later => Some later
      | None => if decide (e = event) then Some handler else None
      end
  end.

Definition register_all (ns : loc) (regs : list (string * EventHandler)) : M unit :=
  for_each regs (λ reg, Namespace_On ns reg.1 reg.2).

(** [h'] differs from [h] in the client store only. *)
Definition only_clients_changed (h h' : Heap) : Prop :=
  h_servers h' = h_servers h ∧ h_nss h' = h_nss h ∧
  h_rooms h' = h_rooms h ∧ h_conns h' = h_conns h.

(** The client store after one push of [msg] to each client of [targets]. *)
Definition delivered (msg : Message) (targets : gmap loc bool)
    (clients : gmap loc Client) (c : loc) : option Client :=
  if decide (c ∈ dom targets) then pushed msg <$> clients !! c else clients !! c.

(** The messages the three emits build. *)
Definition room_message (n : Namespace) (rm : Room) (event : string) (data : value)
    : Message :=
  {| msg_Event := event; msg_Data := data;
     msg_Namespace := ns_name n; msg_Room := r_name rm |}.

Definition namespace_message (n : Namespace) (event : string) (data : value)
    : Message :=
  {| msg_Event := event; msg_Data := data;
     msg_Namespace := ns_name n; msg_Room := "" |}.

(** Every pointer of a client set is a live client. *)
Definition all_live (h : Heap) (targets : gmap loc bool) : Prop :=
  ∀ c, c ∈ dom targets → is_Some (h_clients h !! c).

(** The room at [r] is registered in [n] under one of [names]. *)
Definition registered_under (n : Namespace) (names : list string) (r : loc) : Prop :=
  ∃ name, name ∈ names ∧ ns_rooms n !! name = Some r.

(** [delete(m, name)] for each of [names], first to last. *)
Definition delete_all (names : list string) (m : gmap string bool) : gmap string bool :=
  foldl (λ acc name, delete name acc) m names.

(** Every entry of a namespace's room map points to a live room of that
    namespace with that name. *)
Definition registry_sound (h : Heap) : Prop :=
  ∀ ns n name r, h_nss h !! ns = Some n → ns_rooms n !! name = Some r →
    ∃ rm, h_rooms h !! r = Some rm ∧ r_namespace rm = ns ∧ r_name rm = name.

(** The invariant of the states of [connected_op]. *)
Definition coherent (h : Heap) : Prop :=
  room_subset h ∧ mirror_consistent h ∧ rooms_registered h ∧ registry_sound h.

(** [h'] has the rooms of [h], its namespaces with the same room maps and
    no fewer clients (new namespaces have no rooms), and its clients with
    the same namespace and no smaller a mirror. *)
Definition extends (h h' : Heap) : Prop :=
  h_rooms h' = h_rooms h ∧
  (∀ ns n, h_nss h !! ns = Some n →
     ∃ n', h_nss h' !! ns = Some n' ∧ ns_rooms n' = ns_rooms n ∧
           dom (ns_clients n) ⊆ dom (ns_clients n')) ∧
  (∀ ns n', h_nss h' !! ns = Some n' →
     ns_rooms n' = ∅ ∨ ∃ n, h_nss h !! ns = Some n ∧ ns_rooms n' = ns_rooms n) ∧
  (∀ c cl, h_clients h !! c = Some cl →
     ∃ cl', h_clients h' !! c = Some cl' ∧ c_namespace cl' = c_namespace cl ∧
            dom (c_rooms cl) ⊆ dom (c_rooms cl')).

(** ** Example runs *)

Definition run_ops (os : list op) : M unit := for_each os run_op.

(** The heap after running [os] from the empty heap (the empty heap again
    if the run panics). *)
Definition after (os : list op) : Heap :=
  match run_ops os empty_heap with
  | Some (_, h) => h
  | None => empty_heap
  end.

(** A server with namespace "/" and two accepted clients, the first of
    which has joined room "r1". *)
Definition two_clients : list op :=
  [OpNewServer; OpAccept 1 "/" true; OpAccept 1 "/" true; OpJoin 1 "r1"].

(** A client joins a room and is then removed from its namespace by
    [removeClient] alone. *)
Definition join_then_remove : list op :=
  [OpNewServer; OpAccept 1 "/" true; OpJoin 1 "r1"; OpNamespaceRemoveClient 1 1].


(** A room emit of the integer 42. *)
Definition int_payload : Message :=
  {| msg_Event := "x"; msg_Data := VInt 42; msg_Namespace := "/"; msg_Room := "r1" |}.

Definition new_server : list op := [OpNewServer].
Definition accept_once : list op := [OpNewServer; OpAccept 1 "/" true].
Definition accept_twice : list op :=
  [OpNewServer; OpAccept 1 "/" true; OpAccept 1 "/" true].

(** [two_clients] with the second client's queue replaced by a full queue
    of capacity 1. *)
Definition slow_consumer : Heap :=
  set_clients
    (insert 2%positive (mkClient generateID 2 1 1 ∅ (mkChan 1 [int_payload])))
    (after two_clients).

(** A handler that emits "pong" back to the sender. *)
Definition pong (_ : EventHandler) (client : loc) (data : value) : M unit :=
  Client_Emit client "pong" data.

Definition ping : Message :=
  {| msg_Event := "ping"; msg_Data := VNil; msg_Namespace := ""; msg_Room := "" |}.

(** A frame that is not a JSON object. *)
Definition bad_frame : json := JString "not a message".

Definition text_payload : Message :=
  {| msg_Event := "chat"; msg_Data := VSlice [VString "hi"; VBool true; VNil];
     msg_Namespace := "/"; msg_Room := "" |}.

(** ** Checkers for concrete states *)

Definition all_liveb (h : Heap) (targets : gmap loc bool) : bool :=
  forallb (λ c, bool_decide (is_Some (h_clients h !! c))) (map_to_list targets).*1.

Definition connectedb (h : Heap) (c : loc) : bool :=
  match h_clients h !! c with
  | Some cl =>
      match h_nss h !! c_namespace cl with
      | Some n => bool_decide (c ∈ dom (ns_clients n))
      | None => false
      end
  | None => false
  end.

Definition connected_opb (h : Heap) (o : op) : bool :=
  match o with
  | OpJoin c _ => connectedb h c
  | OpNamespaceRemoveClient _ _ => false
  | OpRoomAddClient _ _ => false
  | _ => true
  end.

(** Run [os], refusing an operation that [connected_op] does not permit. *)
Fixpoint run_connected (os : list op) (h : Heap) : option Heap :=
  match os with
  | [] => Some h
  | o :: os' =>
      if connected_opb h o then
        match run_op o h with
        | Some (_, h') => run_connected os' h'
        | None => None
        end
      else None
  end.

Definition rooms_liveb (h : Heap) (n : Namespace) : bool :=
  forallb (λ entry, bool_decide (is_Some (h_rooms h !! entry.2)))
    (map_to_list (ns_rooms n)).

(** The heap after [m] (unchanged if [m] panics) and a client's queue. *)
Definition then_run {A} (m : M A) (h : Heap) : Heap :=
  match m h with
  | Some (_, h') => h'
  | None => h
  end.

Definition queue_of (h : Heap) (c : loc) : option (list Message) :=
  (λ cl, chan_buf (send cl)) <$> h_clients h !! c.

(** ** The outbound pump *)

(** The client with [buf] as the content of its queue. *)
Definition with_buf (buf : list Message) (c : Client) : Client :=
  {| ID := ID c; c_conn := c_conn c; c_server := c_server c;
     c_namespace := c_namespace c; c_rooms := c_rooms c;
     send := {| chan_cap := chan_cap (send c); chan_buf := buf |} |}.

Section Transport.
(** Whether the [k]-th call [c.conn.WriteJSON(msg)] of the pump returns a
    nil error. *)
Variable WriteJSON : nat → Message → bool.

(** The [for msg := range c.send] loop of [writePump], run until the
    receive finds the queue empty (the pump then waits: the channel is
    never closed) or a write fails (the [break]).  It returns the messages
    written and whether the loop was left by the [break].  [fuel] bounds
    the number of receives; [writePump] gives it the number of queued
    messages, which is what a run with no concurrent sender receives. *)
Fixpoint writePump_loop (c : loc) (k fuel : nat) : M (list Message * bool) :=
  match fuel with
  | O => ret ([], false)
  | S fuel' =>
      let* cl := deref h_clients c in
      match chan_buf (send cl) with
      | [] => ret ([], false)
      | msg :: rest =>
          assign h_clients set_clients c (with_buf rest cl) ;;;
          if WriteJSON k msg then
            let* r := writePump_loop c (S k) fuel' in
            ret (msg :: r.1, r.2)
          else ret ([], true)
      end
  end.

(** [func (c *Client) writePump()]: the deferred [c.conn.Close()] runs when
    the loop is left, not while the pump waits. *)
Definition Client_writePump (c : loc) : M (list Message * bool) :=
  let* cl := deref h_clients c in
  let* r := writePump_loop c 0 (length (chan_buf (send cl))) in
  (if r.2 then Conn_Close (c_conn cl) else ret tt) ;;;
  ret r.
End Transport.

(** A transport on which every write succeeds. *)
Definition always_written (_ : nat) (_ : Message) : bool := true.

(** A transport on which the write number [k] and the later ones fail. *)
Definition fails_from (k : nat) (i : nat) (_ : Message) : bool := bool_decide (i < k)%nat.

(** [two_clients] with three messages in the second client's queue. *)
Definition slow_queue : Heap :=
  set_clients
    (insert 2%positive
       (mkClient generateID 2 1 1 ∅
          (mkChan 256 [ping; int_payload; mkMessage "late" VNil "/" ""])))
    (after two_clients).

(** [c.Emit(event, data)] for each pair of [es], first to last. *)
Definition emit_all (c : loc) (es : list (string * value)) : M unit :=
  for_each es (λ e, Client_Emit c e.1 e.2).

(** The messages those emits build in namespace [n]. *)
Definition messages_of (n : Namespace) (es : list (string * value)) : list Message :=
  (λ e, namespace_message n e.1 e.2) <$> es.

(** A queue as [ServeWebSocket] makes it, after any number of sends:
    capacity 256 and no more than 256 messages. *)
Definition queue_ok (ch : chan) : Prop :=
  chan_cap ch = 256 ∧ (length (chan_buf ch) ≤ 256)%nat.

Definition queues_bounded (h : Heap) : Prop :=
  ∀ c cl, h_clients h !! c = Some cl → queue_ok (send cl).

(** ** Pointers

    A location that is not in its store stands for a pointer the program
    cannot follow ([nil]); [deref] and [assign] panic on it. *)

(** The pointer fields of a record point into the stores of [h]. *)
Definition valid_server (h : Heap) (sv : Server) : Prop :=
  ∀ name ns, namespaces sv !! name = Some ns → ns ∈ dom (h_nss h).

Definition valid_namespace (h : Heap) (n : Namespace) : Prop :=
  ns_server n ∈ dom (h_servers h) ∧
  dom (ns_clients n) ⊆ dom (h_clients h) ∧
  ∀ name r, ns_rooms n !! name = Some r → r ∈ dom (h_rooms h).

Definition valid_room (h : Heap) (rm : Room) : Prop :=
  r_namespace rm ∈ dom (h_nss h) ∧ dom (r_clients rm) ⊆ dom (h_clients h).

Definition valid_client (h : Heap) (cl : Client) : Prop :=
  c_server cl ∈ dom (h_servers h) ∧
  c_namespace cl ∈ dom (h_nss h) ∧
  c_conn cl ∈ dom (h_conns h).

(** Every pointer stored in the heap points to a live object. *)
Definition pointers_valid (h : Heap) : Prop :=
  (∀ s sv, h_servers h !! s = Some sv → valid_server h sv) ∧
  (∀ ns n, h_nss h !! ns = Some n → valid_namespace h n) ∧
  (∀ r rm, h_rooms h !! r = Some rm → valid_room h rm) ∧
  (∀ c cl, h_clients h !! c = Some cl → valid_client h cl).

(** Every object of [h] is still live in [h']. *)
Definition grows (h h' : Heap) : Prop :=
  dom (h_servers h) ⊆ dom (h_servers h') ∧
  dom (h_nss h) ⊆ dom (h_nss h') ∧
  dom (h_rooms h) ⊆ dom (h_rooms h') ∧
  dom (h_clients h) ⊆ dom (h_clients h') ∧
  dom (h_conns h) ⊆ dom (h_conns h').

(** The operations whose receiver and pointer arguments are live objects. *)
Definition live_args (h : Heap) (o : op) : Prop :=
  match o with
  | OpNewServer => True
  | OpNamespace s _ | OpAccept s _ _ => s ∈ dom (h_servers h)
  | OpOn ns _ _ | OpRoom ns _ | OpNamespaceEmit ns _ _ => ns ∈ dom (h_nss h)
  | OpRoomEmit r _ _ => r ∈ dom (h_rooms h)
  | OpJoin c _ | OpLeave c _ | OpClientEmit c _ _ | OpTeardown c =>
      c ∈ dom (h_clients h)
  | OpNamespaceAddClient ns c | OpNamespaceRemoveClient ns c =>
      ns ∈ dom (h_nss h) ∧ c ∈ dom (h_clients h)
  | OpRoomAddClient r c | OpRoomRemoveClient r c =>
      r ∈ dom (h_rooms h) ∧ c ∈ dom (h_clients h)
  end.

(** ** The chat example ([examples/chat/main.go])

    The three handlers are closures over [ns], the namespace "/" of the
    example's server.  Each reads [client.ID] for its log line before
    anything else. *)

Module Chat.

(** [ns.On("message", func(client *sockx.Client, data interface{}) {...})]. *)
Definition on_message (ns client : loc) (data : value) : M unit :=
  let* cl := deref h_clients client in
  Namespace_Emit ns "message"
    (VMap (<["from" := VString (ID cl)]> (<["text" := data]> ∅))).

(** [ns.On("join-room", ...)]: [data.(string)] fails on every payload that
    is not a string. *)
Definition on_join_room (ns client : loc) (data : value) : M unit :=
  match data with
  | VString roomName =>
      let* cl := deref h_clients client in
      Client_Join client roomName ;;;
      let* room := Namespace_Room ns roomName in
      Room_Emit room "user-joined"
        (VMap (<["user" := VString (ID cl)]> (<["room" := VString roomName]> ∅)))
  | _ => ret tt
  end.

(** [ns.On("room-message", ...)]: [data.(map[string]interface{})], then
    [msg["room"].(string)]; a missing "text" is [nil]. *)
Definition on_room_message (ns client : loc) (data : value) : M unit :=
  match data with
  | VMap msg =>
      match msg !! "room" with
      | Some (VString roomName) =>
          let text := default VNil (msg !! "text") in
          let* cl := deref h_clients client in
          let* room := Namespace_Room ns roomName in
          Room_Emit room "room-message"
            (VMap (<["from" := VString (ID cl)]>
                     (<["text" := text]> (<["room" := VString roomName]> ∅))))
      | _ => ret tt
      end
  | _ => ret tt
  end.

(** The code pointers of the three closures. *)
Definition message_handler : EventHandler := 1%positive.
Definition join_room_handler : EventHandler := 2%positive.
Definition room_message_handler : EventHandler := 3%positive.

Definition call (ns : loc) (handler : EventHandler) (client : loc) (data : value)
    : M unit :=
  if decide (handler = message_handler) then on_message ns client data
  else if decide (handler = join_room_handler) then on_join_room ns client data
  else if decide (handler = room_message_handler) then on_room_message ns client data
  else ret tt.

(** [main] up to the HTTP routes: the server, its namespace "/" and the
    three registrations. *)
Definition main : M (loc * loc) :=
  let* server := NewServer in
  let* ns := Server_Namespace server "/" in
  Namespace_On ns "message" message_handler ;;;
  Namespace_On ns "join-room" join_room_handler ;;;
  Namespace_On ns "room-message" room_message_handler ;;;
  ret (server, ns).

(** The frame the page's [joinRoom()] sends. *)
Definition join_room_frame (data : json) : json :=
  JObject [("event", JString "join-room"); ("data", data)].

(** The chat server with two accepted clients. *)
Definition two_users : Heap :=
  then_run (Server_ServeWebSocket 1 "/" true)
    (then_run (Server_ServeWebSocket 1 "/" true) (then_run main empty_heap)).

End Chat.

(** A property of every live client. *)
Definition every_client (P : Client → Prop) (h : Heap) : Prop :=
  ∀ c cl, h_clients h !! c = Some cl → P cl.

(** [c.conn.WriteJSON(msg)] over a transport whose [k]-th write succeeds
    when [up k]: the message is encoded first, and a payload that
    [json.Marshal] refuses is an error whatever the transport does. *)
Definition WriteJSON_over (up : nat → bool) (k : nat) (msg : Message) : bool :=
  match Marshal msg with
  | Some _ => up k
  | None => false
  end.

Definition always_up (_ : nat) : bool := true.

(** A payload that cannot be encoded: a NaN. *)
Definition nan_payload : Message :=
  {| msg_Event := "avg"; msg_Data := VFloat S754_nan; msg_Namespace := "/"; msg_Room := "" |}.

Definition poisoned_queue : Heap :=
  set_clients
    (insert 2%positive
       (mkClient generateID 2 1 1 ∅ (mkChan 256 [ping; nan_payload; int_payload])))
    (after two_clients).

(** Every name of a client's mirror [c.rooms] is backed by a membership:
    the client's namespace has a room under that name and the client is in
    that room's client set. *)
Definition mirror_backed (h : Heap) : Prop :=
  ∀ c cl name, h_clients h !! c = Some cl → name ∈ dom (c_rooms cl) →
    ∃ n r rm, h_nss h !! c_namespace cl = Some n ∧ ns_rooms n !! name = Some r ∧
              h_rooms h !! r = Some rm ∧ c ∈ dom (r_clients rm).

(** The operations of [connected_op] without a direct [Room.removeClient]:
    what a program does through the exported methods and the two pumps. *)
Definition api_op (h : Heap) (o : op) : Prop :=
  match o with
  | OpRoomRemoveClient _ _ => False
  | _ => connected_op h o
  end.

(** ** Interleavings

    [Join], [Leave] and the deferred function of [readPump] take and
    release their locks one after the other; between two lock scopes
    another goroutine can run.  A [step] is what one of these methods
    does under one lock, with the local variables it needs; running it
    gives the steps the method goes on with.  [Namespace.Room],
    [Room.addClient], [Room.removeClient] and [Namespace.removeClient]
    each hold one lock from their first line to their last, so a call of
    one of them is one step. *)
Inductive step :=
  | JoinMirror (c : loc) (roomName : string)
  | JoinRoom (c : loc) (roomName : string)
  | JoinAdd (room c : loc)
  | LeaveMirror (c : loc) (roomName : string)
  | LeaveLookup (c : loc) (roomName : string)
  | LeaveRemove (room c : loc)
  | TeardownRemove (c : loc)
  | TeardownSnapshot (c : loc)
  | TeardownClose (c : loc).

(** [c.Join(roomName)] and [c.Leave(roomName)] as they start. *)
Definition Join_steps (c : loc) (roomName : string) : list step :=
  [JoinMirror c roomName; JoinRoom c roomName].

Definition Leave_steps (c : loc) (roomName : string) : list step :=
  [LeaveMirror c roomName; LeaveLookup c roomName].

(** The deferred function of [c.readPump()] as it starts. *)
Definition Teardown_steps (c : loc) : list step :=
  [TeardownRemove c; TeardownSnapshot c; TeardownClose c].

Definition run_step (s : step) : M (list step) :=
  match s with
  | JoinMirror c roomName =>
      (* c.mu.Lock(); c.rooms[roomName] = true; c.mu.Unlock() *)
      let* cl := deref h_clients c in
      assign h_clients set_clients c (with_rooms (insert roomName true) cl) ;;;
      ret []
  | JoinRoom c roomName =>
      (* room := c.namespace.Room(roomName) *)
      let* cl := deref h_clients c in
      let* room := Namespace_Room (c_namespace cl) roomName in
      ret [JoinAdd room c]
  | JoinAdd room c =>
      (* room.addClient(c) *)
      Room_addClient room c ;;; ret []
  | LeaveMirror c roomName =>
      (* c.mu.Lock(); delete(c.rooms, roomName); c.mu.Unlock() *)
      let* cl := deref h_clients c in
      assign h_clients set_clients c (with_rooms (delete roomName) cl) ;;;
      ret []
  | LeaveLookup c roomName =>
      (* room, exists := c.namespace.rooms[roomName], under the read lock *)
      let* cl := deref h_clients c in
      let* n := deref h_nss (c_namespace cl) in
      ret (match ns_rooms n !! roomName with
           | Some room => [LeaveRemove room c]
           | None => []
           end)
  | LeaveRemove room c =>
      (* room.removeClient(c) *)
      Room_removeClient room c ;;; ret []
  | TeardownRemove c =>
      (* c.namespace.removeClient(c) *)
      let* cl := deref h_clients c in
      Namespace_removeClient (c_namespace cl) c ;;; ret []
  | TeardownSnapshot c =>
      (* the names of c.rooms, under the read lock; then c.Leave of each *)
      let* cl := deref h_clients c in
      ret (flat_map (Leave_steps c) (map_to_list (c_rooms cl)).*1)
  | TeardownClose c =>
      (* c.conn.Close() *)
      let* cl := deref h_clients c in
      Conn_Close (c_conn cl) ;;; ret []
  end.

(** A step and what it goes on with, run to the end with nothing in
    between.  No step goes on for more than two levels (the snapshot, a
    lookup, a removal); going on below [depth] counts as a failure. *)
Fixpoint run_through (depth : nat) (s : step) : M unit :=
  let* next := run_step s in
  match depth, next with
  | _, [] => ret tt
  | O, _ => λ _, None
  | S depth', _ => for_each next (run_through depth')
  end.

(** A method run alone. *)
Definition run_alone (steps : list step) : M unit :=
  for_each steps (run_through 2).

(** Goroutines that are each inside one of these methods: what each still
    has to run.  [schedule_step i] lets goroutine [i] run its next step; a
    goroutine that has returned does nothing. *)
Definition schedule_step (i : nat) (pool : list (list step)) : M (list (list step)) :=
  match pool !! i with
  | Some (s :: rest) =>
      let* next := run_step s in
      ret (<[i := (next ++ rest)%list]> pool)
  | _ => ret pool
  end.

Fixpoint run_schedule (schedule : list nat) (pool : list (list step))
    : M (list (list step)) :=
  match schedule with
  | [] => ret pool
  | i :: schedule' =>
      let* pool' := schedule_step i pool in
      run_schedule schedule' pool'
  end.

(** The first client of [two_clients], which is in "r1", loses its
    transport while another goroutine (a handler that kept the pointer)
    joins it to "r2".  The three steps of the [Join] run after the
    teardown has taken its snapshot of [c.rooms]. *)
Definition teardown_and_join : list (list step) :=
  [Teardown_steps 1; Join_steps 1 "r2"].

Definition join_after_snapshot : list nat := [0; 0; 1; 1; 1; 0; 0; 0; 0]%nat.

(** A connected client starts [Join("r2")] and is torn down before the
    [Join] gets to [room.addClient]. *)
Definition join_across_teardown : list nat :=
  [1; 0; 0; 0; 0; 0; 0; 0; 0; 1; 1]%nat.

(** * Theorems *)

(** ** Stores and the monad *)

Lemma fresh_unused {A} (m : gmap loc A) : m !! fresh (dom m) = None.
Proof. apply not_elem_of_dom, is_fresh. Qed.

Lemma bind_Some {A B} (m : M A) (k : A → M B) h a h1 :
  m h = Some (a, h1) → bind m k h = k a h1.
Proof. unfold bind. by intros ->. Qed.

Lemma bind_inv {A B} (m : M A) (k : A → M B) h b h2 :
  bind m k h = Some (b, h2) → ∃ a h1, m h = Some (a, h1) ∧ k a h1 = Some (b, h2).
Proof.
  unfold bind. destruct (m h) as [[a h1]|] eqn:E; [|done].
  intros Hk. by exists a, h1.
Qed.

Lemma deref_Some {A} (store : Heap → gmap loc A) p a h :
  store h !! p = Some a → deref store p h = Some (a, h).
Proof. unfold deref. by intros ->. Qed.

Lemma deref_inv {A} (store : Heap → gmap loc A) p a h h1 :
  deref store p h = Some (a, h1) → store h !! p = Some a ∧ h1 = h.
Proof. unfold deref. destruct (store h !! p); naive_solver. Qed.

Lemma assign_Some {A} (store : Heap → gmap loc A) set p a b h :
  store h !! p = Some b → assign store set p a h = Some (tt, set (insert p a) h).
Proof. unfold assign. by intros ->. Qed.

Lemma assign_inv {A} (store : Heap → gmap loc A) set p a u h h1 :
  assign store set p a h = Some (u, h1) →
  is_Some (store h !! p) ∧ h1 = set (insert p a) h.
Proof. unfold assign. destruct (store h !! p) eqn:E; naive_solver. Qed.

(** Step over a dereference of a pointer known to be live. *)
Tactic Notation "deref_step" constr(store) constr(H) :=
  rewrite (bind_Some _ _ _ _ _ (deref_Some store _ _ _ H)).
Tactic Notation "deref_step" constr(store) constr(H) "in" hyp(H') :=
  rewrite (bind_Some _ _ _ _ _ (deref_Some store _ _ _ H)) in H'.

Lemma heap_eq h1 h2 :
  h_servers h1 = h_servers h2 → h_nss h1 = h_nss h2 → h_rooms h1 = h_rooms h2 →
  h_clients h1 = h_clients h2 → h_conns h1 = h_conns h2 → h1 = h2.
Proof. destruct h1, h2; simpl; congruence. Qed.

(** ** Get-or-create *)

Lemma Server_Namespace_present h s sv name ns :
  h_servers h !! s = Some sv → namespaces sv !! name = Some ns →
  Server_Namespace s name h = Some (ns, h).
Proof.
  intros Hs Hn. unfold Server_Namespace.
  deref_step h_servers Hs. by rewrite Hn.
Qed.

Lemma Server_Namespace_absent h s sv name :
  h_servers h !! s = Some sv → namespaces sv !! name = None →
  let ns := fresh (dom (h_nss h)) in
  Server_Namespace s name h =
    Some (ns, set_servers (insert s {| namespaces := <[name := ns]> (namespaces sv) |})
                (set_nss (insert ns (mkNamespace name ∅ ∅ ∅ s)) h)).
Proof.
  intros Hs Hn. unfold Server_Namespace.
  deref_step h_servers Hs. rewrite Hn.
  unfold bind, alloc, assign, ret. simpl. by rewrite Hs.
Qed.

Lemma Namespace_Room_present h ns n name r :
  h_nss h !! ns = Some n → ns_rooms n !! name = Some r →
  Namespace_Room ns name h = Some (r, h).
Proof.
  intros Hs Hn. unfold Namespace_Room.
  deref_step h_nss Hs. by rewrite Hn.
Qed.

Lemma Namespace_Room_absent h ns n name :
  h_nss h !! ns = Some n → ns_rooms n !! name = None →
  let r := fresh (dom (h_rooms h)) in
  Namespace_Room ns name h =
    Some (r, set_nss (insert ns (ns_with_rooms (insert name r) n))
               (set_rooms (insert r (mkRoom name ∅ ns)) h)).
Proof.
  intros Hs Hn. unfold Namespace_Room.
  deref_step h_nss Hs. rewrite Hn.
  unfold bind, alloc, assign, ret. simpl. by rewrite Hs.
Qed.

(** C6.  On every heap in which the server is live,
    [Server.Namespace(name)] returns a namespace and a second call returns
    the same pointer without changing the heap; when the name is
    registered the call returns the registered pointer and changes
    nothing, and when it is not (as at the first call on a new server) the
    call allocates exactly one namespace, at an unused location, registers
    it under the name and changes nothing else.  On every heap in which
    the namespace is live, [Namespace.Room(room)] does the same in the
    room map of the namespace.  Each of the two methods runs under the one
    lock it takes, from the lookup to the insertion. *)
Theorem get_or_create_unique :
  (∀ (h : Heap) (s : loc) (sv : Server) (name : string),
     h_servers h !! s = Some sv →
     ∃ p h1,
       Server_Namespace s name h = Some (p, h1) ∧
       Server_Namespace s name h1 = Some (p, h1) ∧
       match namespaces sv !! name with
       | Some q => p = q ∧ h1 = h
       | None =>
           h_nss h !! p = None ∧
           h1 = set_servers
                  (insert s {| namespaces := <[name := p]> (namespaces sv) |})
                  (set_nss (insert p (mkNamespace name ∅ ∅ ∅ s)) h)
       end) ∧
  (∀ (h : Heap) (ns : loc) (n : Namespace) (room : string),
     h_nss h !! ns = Some n →
     ∃ r h1,
       Namespace_Room ns room h = Some (r, h1) ∧
       Namespace_Room ns room h1 = Some (r, h1) ∧
       match ns_rooms n !! room with
       | Some q => r = q ∧ h1 = h
       | None =>
           h_rooms h !! r = None ∧
           h1 = set_nss (insert ns (ns_with_rooms (insert room r) n))
                  (set_rooms (insert r (mkRoom room ∅ ns)) h)
       end).
Proof.
  split.
  - intros h s sv name Hs.
    destruct (namespaces sv !! name) as [q|] eqn:E.
    + exists q, h. by rewrite (Server_Namespace_present _ _ _ _ _ Hs E).
    + eexists _, _. split; [by apply Server_Namespace_absent|].
      split; [|split; [apply fresh_unused|done]].
      eapply Server_Namespace_present; simpl.
      * apply lookup_insert_eq.
      * simpl. apply lookup_insert_eq.
  - intros h ns n room Hn.
    destruct (ns_rooms n !! room) as [q|] eqn:E.
    + exists q, h. by rewrite (Namespace_Room_present _ _ _ _ _ Hn E).
    + eexists _, _. split; [by apply Namespace_Room_absent|].
      split; [|split; [apply fresh_unused|done]].
      eapply Namespace_Room_present; simpl.
      * apply lookup_insert_eq.
      * simpl. apply lookup_insert_eq.
Qed.

(** ** Membership updates *)

Lemma Room_addClient_Some h r rm c :
  h_rooms h !! r = Some rm →
  Room_addClient r c h =
    Some (tt, set_rooms (insert r (room_with_clients (insert c true) rm)) h).
Proof.
  intros Hr. unfold Room_addClient.
  deref_step h_rooms Hr.
  by apply assign_Some with rm.
Qed.

Lemma Room_removeClient_Some h r rm c :
  h_rooms h !! r = Some rm →
  Room_removeClient r c h =
    Some (tt, set_rooms (insert r (room_with_clients (delete c) rm)) h).
Proof.
  intros Hr. unfold Room_removeClient.
  deref_step h_rooms Hr.
  by apply assign_Some with rm.
Qed.

Lemma Namespace_addClient_Some h ns n c :
  h_nss h !! ns = Some n →
  Namespace_addClient ns c h =
    Some (tt, set_nss (insert ns (ns_with_clients (insert c true) n)) h).
Proof.
  intros Hn. unfold Namespace_addClient.
  deref_step h_nss Hn.
  by apply assign_Some with n.
Qed.

Lemma Namespace_removeClient_Some h ns n c :
  h_nss h !! ns = Some n →
  Namespace_removeClient ns c h =
    Some (tt, set_nss (insert ns (ns_with_clients (delete c) n)) h).
Proof.
  intros Hn. unfold Namespace_removeClient.
  deref_step h_nss Hn.
  by apply assign_Some with n.
Qed.

Lemma Client_Leave_eq h c cl n roomName :
  h_clients h !! c = Some cl →
  h_nss h !! c_namespace cl = Some n →
  Client_Leave c roomName h =
    match ns_rooms n !! roomName with
    | Some room =>
        Room_removeClient room c
          (set_clients (insert c (with_rooms (delete roomName) cl)) h)
    | None => Some (tt, set_clients (insert c (with_rooms (delete roomName) cl)) h)
    end.
Proof.
  intros Hc Hn. unfold Client_Leave.
  deref_step h_clients Hc.
  rewrite (bind_Some _ _ _ _ _ (assign_Some h_clients set_clients _ _ _ _ Hc)).
  erewrite bind_Some; [|by apply deref_Some].
  by destruct (ns_rooms n !! roomName).
Qed.

Lemma Client_Join_eq h c cl n roomName :
  h_clients h !! c = Some cl →
  h_nss h !! c_namespace cl = Some n →
  Client_Join c roomName h =
    let h1 := set_clients (insert c (with_rooms (insert roomName true) cl)) h in
    match ns_rooms n !! roomName with
    | Some room => Room_addClient room c h1
    | None =>
        let room := fresh (dom (h_rooms h)) in
        Some (tt, set_rooms (insert room (mkRoom roomName {[c := true]} (c_namespace cl)))
                    (set_nss (insert (c_namespace cl)
                                (ns_with_rooms (insert roomName room) n)) h1))
    end.
Proof.
  intros Hc Hn. unfold Client_Join.
  deref_step h_clients Hc.
  rewrite (bind_Some _ _ _ _ _ (assign_Some h_clients set_clients _ _ _ _ Hc)).
  destruct (ns_rooms n !! roomName) as [room|] eqn:E; simpl.
  - erewrite bind_Some; [done|]. by eapply Namespace_Room_present.
  - erewrite bind_Some; [|by eapply Namespace_Room_absent]. simpl.
    erewrite Room_addClient_Some; [|apply lookup_insert_eq].
    do 2 f_equal. apply heap_eq; simpl; try done.
    unfold room_with_clients; simpl. by rewrite insert_insert_eq, insert_empty.
Qed.

Lemma Leave_step c n roomName h cl :
  h_clients h !! c = Some cl →
  h_nss h !! c_namespace cl = Some n →
  (∀ room, ns_rooms n !! roomName = Some room → is_Some (h_rooms h !! room)) →
  ∃ h',
    Client_Leave c roomName h = Some (tt, h') ∧
    h_servers h' = h_servers h ∧
    h_nss h' = h_nss h ∧
    h_conns h' = h_conns h ∧
    h_clients h' = <[c := with_rooms (delete roomName) cl]> (h_clients h) ∧
    dom (h_rooms h') = dom (h_rooms h) ∧
    ∀ room rm, h_rooms h !! room = Some rm →
      h_rooms h' !! room =
        Some (if decide (ns_rooms n !! roomName = Some room)
              then room_with_clients (delete c) rm else rm).
Proof.
  intros Hc Hn Hlive. rewrite (Client_Leave_eq _ _ _ _ _ Hc Hn).
  destruct (ns_rooms n !! roomName) as [room|] eqn:E.
  - destruct (Hlive room eq_refl) as [rm0 Hrm0].
    eexists. split.
    { apply Room_removeClient_Some. simpl. exact Hrm0. }
    simpl. repeat split; try done.
    + by apply dom_insert_lookup_L.
    + intros r rm Hr. destruct (decide (Some room = Some r)) as [Hd|Hd].
      * simplify_eq. by rewrite lookup_insert_eq.
      * rewrite lookup_insert_ne; [done|congruence].
  - eexists. split; [done|]. simpl. by repeat split.
Qed.

(** C10.  [c.Leave(r)] on a live client of a live namespace deletes [r]
    from [c.rooms] whether or not the namespace has a room under that name,
    and leaves the rest of [c] as it was; the namespace store (hence every
    namespace's room map, client set and handlers), the servers and the
    connections are unchanged, no room is allocated, and the only room
    whose record changes is the one registered under [r], which loses [c]
    from its client set. *)
Theorem Leave_frame (h : Heap) (c : loc) (cl : Client) (n : Namespace)
    (roomName : string) :
  h_clients h !! c = Some cl →
  h_nss h !! c_namespace cl = Some n →
  (∀ room, ns_rooms n !! roomName = Some room → is_Some (h_rooms h !! room)) →
  ∃ h',
    Client_Leave c roomName h = Some (tt, h') ∧
    h_clients h' = <[c := with_rooms (delete roomName) cl]> (h_clients h) ∧
    c_rooms (with_rooms (delete roomName) cl) = delete roomName (c_rooms cl) ∧
    h_nss h' = h_nss h ∧
    h_servers h' = h_servers h ∧
    h_conns h' = h_conns h ∧
    dom (h_rooms h') = dom (h_rooms h) ∧
    ∀ room rm, h_rooms h !! room = Some rm →
      h_rooms h' !! room =
        Some (if decide (ns_rooms n !! roomName = Some room)
              then room_with_clients (delete c) rm else rm).
Proof.
  intros Hc Hn Hlive.
  destruct (Leave_step c n roomName h cl Hc Hn Hlive)
    as (h' & Hrun & Hs & Hnn & Hcn & Hcl & Hdom & Hrooms).
  exists h'. by repeat split.
Qed.

Lemma with_rooms_insert_twice cl roomName :
  with_rooms (insert roomName true) (with_rooms (insert roomName true) cl) =
  with_rooms (insert roomName true) cl.
Proof. unfold with_rooms; simpl. by rewrite insert_insert_eq. Qed.

Lemma room_with_clients_insert_twice rm c :
  room_with_clients (insert c true) (room_with_clients (insert c true) rm) =
  room_with_clients (insert c true) rm.
Proof. unfold room_with_clients; simpl. by rewrite insert_insert_eq. Qed.

Lemma with_rooms_delete_absent cl roomName :
  roomName ∉ dom (c_rooms cl) → with_rooms (delete roomName) cl = cl.
Proof.
  intros Hr. destruct cl; unfold with_rooms; simpl in *.
  by rewrite delete_id by by apply not_elem_of_dom.
Qed.

Lemma room_with_clients_delete_absent rm c :
  c ∉ dom (r_clients rm) → room_with_clients (delete c) rm = rm.
Proof.
  intros Hr. destruct rm; unfold room_with_clients; simpl in *.
  by rewrite delete_id by by apply not_elem_of_dom.
Qed.

(** C7.  For a live client of a live namespace (the room registered under
    the name, if any, being live): [c.Join(r)] succeeds, and a second
    [c.Join(r)] returns with the heap exactly as the first left it, so the
    room's member set and [c.rooms] are unchanged; and when [r] is not in
    [c.rooms] and [c] is not a member of the room registered under [r],
    [c.Leave(r)] returns with the heap unchanged. *)
Theorem Join_Leave_idempotent (h : Heap) (c : loc) (cl : Client)
    (n : Namespace) (roomName : string) :
  h_clients h !! c = Some cl →
  h_nss h !! c_namespace cl = Some n →
  (∀ room, ns_rooms n !! roomName = Some room → is_Some (h_rooms h !! room)) →
  (∃ h1, Client_Join c roomName h = Some (tt, h1) ∧
         Client_Join c roomName h1 = Some (tt, h1)) ∧
  (roomName ∉ dom (c_rooms cl) →
   (∀ room rm, ns_rooms n !! roomName = Some room →
               h_rooms h !! room = Some rm → c ∉ dom (r_clients rm)) →
   Client_Leave c roomName h = Some (tt, h)).
Proof.
  intros Hc Hn Hlive. split.
  - rewrite (Client_Join_eq _ _ _ _ _ Hc Hn). simpl.
    destruct (ns_rooms n !! roomName) as [room|] eqn:E.
    + destruct (Hlive room eq_refl) as [rm Hrm].
      eexists. split; [by apply Room_addClient_Some|].
      erewrite Client_Join_eq; simpl; [|apply lookup_insert_eq|exact Hn].
      rewrite E. erewrite Room_addClient_Some; [|simpl; apply lookup_insert_eq].
      do 2 f_equal. apply heap_eq; simpl; try done.
      * by rewrite insert_insert_eq, room_with_clients_insert_twice.
      * by rewrite insert_insert_eq, with_rooms_insert_twice.
    + eexists. split; [done|].
      erewrite Client_Join_eq; simpl;
        [|apply lookup_insert_eq|simpl; apply lookup_insert_eq].
      simpl. rewrite lookup_insert_eq.
      erewrite Room_addClient_Some; [|simpl; apply lookup_insert_eq].
      do 2 f_equal. apply heap_eq; simpl; try done.
      * rewrite insert_insert_eq. f_equal.
        unfold room_with_clients; simpl. f_equal.
        by rewrite <- insert_empty, insert_insert_eq.
      * by rewrite insert_insert_eq, with_rooms_insert_twice.
  - intros Hmirror Hroom. rewrite (Client_Leave_eq _ _ _ _ _ Hc Hn).
    rewrite with_rooms_delete_absent by done.
    assert (set_clients (insert c cl) h = h) as ->.
    { apply heap_eq; simpl; try done. by apply insert_id. }
    destruct (ns_rooms n !! roomName) as [room|] eqn:E; [|done].
    destruct (Hlive room eq_refl) as [rm Hrm].
    rewrite (Room_removeClient_Some _ _ _ _ Hrm).
    rewrite room_with_clients_delete_absent by by eapply Hroom.
    do 2 f_equal. apply heap_eq; simpl; try done. by apply insert_id.
Qed.

(** ** Emit *)

Lemma select_send_Some h c cl msg :
  h_clients h !! c = Some cl →
  select_send c msg h = Some (tt, set_clients (insert c (pushed msg cl)) h).
Proof.
  intros Hc. unfold select_send.
  deref_step h_clients Hc.
  by apply assign_Some with cl.
Qed.

Lemma select_send_live h c msg u h1 :
  select_send c msg h = Some (u, h1) → is_Some (h_clients h !! c).
Proof.
  unfold select_send, bind, deref.
  destruct (h_clients h !! c); [eauto|done].
Qed.

Lemma pushed_full msg cl : full (send cl) → pushed msg cl = cl.
Proof.
  unfold full, pushed, chan_try_send. intros Hf.
  rewrite decide_False by lia. by destruct cl.
Qed.

Lemma pushed_free msg cl :
  ¬ full (send cl) →
  send (pushed msg cl) =
    {| chan_cap := chan_cap (send cl); chan_buf := (chan_buf (send cl) ++ [msg])%list |}.
Proof.
  unfold full, pushed, chan_try_send. intros Hf. simpl.
  by rewrite decide_True by lia.
Qed.

Lemma elem_of_keys `{Countable K} {V} (m : gmap K V) c :
  c ∈ (map_to_list m).*1 ↔ c ∈ dom m.
Proof.
  rewrite elem_of_dom, list_elem_of_fmap. split.
  - intros [[k v] [-> Hkv]]. apply elem_of_map_to_list in Hkv. by exists v.
  - intros [v Hv]. exists (c, v). split; [done|]. by apply elem_of_map_to_list.
Qed.

(** The loop of an emit over distinct live clients: every client of the
    list gets one push, nothing else changes. *)
Lemma emit_loop msg ks : ∀ h,
  NoDup ks →
  (∀ c, c ∈ ks → is_Some (h_clients h !! c)) →
  ∃ h', for_each ks (λ client, select_send client msg) h = Some (tt, h') ∧
        only_clients_changed h h' ∧
        ∀ c, h_clients h' !! c =
               if decide (c ∈ ks) then pushed msg <$> h_clients h !! c
               else h_clients h !! c.
Proof.
  induction ks as [|k ks IH]; intros h Hnd Hlive.
  - exists h. split; [done|]. split; [done|]. intros c.
    by rewrite decide_False by apply not_elem_of_nil.
  - apply NoDup_cons in Hnd as [Hk Hnd].
    destruct (Hlive k) as [cl Hcl]; [left|].
    destruct (IH (set_clients (insert k (pushed msg cl)) h) Hnd)
      as (h' & Hrun & (Hs & Hn & Hr & Hc) & Hcs).
    { intros c Hc. simpl. destruct (decide (k = c)) as [->|Hne].
      - rewrite lookup_insert_eq. eauto.
      - rewrite lookup_insert_ne by done. apply Hlive. by right. }
    exists h'. split; [|split].
    + simpl. by rewrite (bind_Some _ _ _ _ _ (select_send_Some _ _ _ msg Hcl)).
    + by repeat split.
    + intros c. rewrite Hcs. simpl. destruct (decide (k = c)) as [->|Hne].
      * rewrite decide_False by done. rewrite decide_True by left.
        by rewrite lookup_insert_eq, Hcl.
      * rewrite lookup_insert_ne by done.
        destruct (decide (c ∈ ks)) as [Hin|Hin].
        -- rewrite decide_True; [done|by right].
        -- rewrite decide_False; [done|]. rewrite elem_of_cons. intros [?|?]; by simplify_eq.
Qed.

Lemma emit_range msg (targets : gmap loc bool) h :
  (∀ c, c ∈ dom targets → is_Some (h_clients h !! c)) →
  ∃ h', for_range targets (λ client, select_send client msg) h = Some (tt, h') ∧
        only_clients_changed h h' ∧
        ∀ c, h_clients h' !! c = delivered msg targets (h_clients h) c.
Proof.
  intros Hlive.
  destruct (emit_loop msg (map_to_list targets).*1 h) as (h' & Hrun & Hframe & Hcs).
  { apply NoDup_fst_map_to_list. }
  { intros c Hc. by apply Hlive, elem_of_keys. }
  exists h'. split; [done|]. split; [done|].
  intros c. rewrite Hcs. unfold delivered.
  destruct (decide (c ∈ dom targets)) as [Hin|Hin].
  - rewrite decide_True; [done|]. by apply elem_of_keys.
  - rewrite decide_False; [done|]. by rewrite elem_of_keys.
Qed.

Lemma select_send_comm msg a b h :
  (select_send a msg ;;; select_send b msg) h =
  (select_send b msg ;;; select_send a msg) h.
Proof.
  unfold select_send, bind, deref, assign, ret. simpl.
  destruct (decide (a = b)) as [->|Hne]; [done|].
  assert (b ≠ a) as Hne' by congruence.
  destruct (h_clients h !! a) as [ca|] eqn:Ea;
    destruct (h_clients h !! b) as [cb|] eqn:Eb; simpl;
    repeat (rewrite ?Ea, ?Eb, ?lookup_insert_ne by done; simpl); try done.
  do 2 f_equal. apply heap_eq; simpl; try done. by apply insert_insert_ne.
Qed.

(** The heap an emit loop leaves does not depend on the order in which
    the range visits the clients. *)
Lemma range_order_irrelevant msg ks ks' :
  ks ≡ₚ ks' → ∀ h,
  for_each ks (λ client, select_send client msg) h =
  for_each ks' (λ client, select_send client msg) h.
Proof.
  induction 1 as [|x l l' _ IH|x y l|l l' l'' _ IH1 _ IH2]; intros h.
  - done.
  - simpl. unfold bind. destruct (select_send x msg h) as [[? h1]|]; [apply IH|done].
  - simpl. pose proof (select_send_comm msg y x h) as Hc. unfold bind in *.
    destruct (select_send y msg h) as [[? h1]|] eqn:Ey;
      destruct (select_send x msg h) as [[? h2]|] eqn:Ex; simpl in *.
    + destruct (select_send x msg h1) as [[? h3]|];
        destruct (select_send y msg h2) as [[? h4]|]; simplify_eq; done.
    + by destruct (select_send x msg h1) as [[? h3]|].
    + by destruct (select_send y msg h2) as [[? h4]|].
    + done.
  - by rewrite IH1.
Qed.

Lemma Room_Emit_spec h r rm n event data :
  h_rooms h !! r = Some rm →
  h_nss h !! r_namespace rm = Some n →
  all_live h (r_clients rm) →
  ∃ h', Room_Emit r event data h = Some (tt, h') ∧
        only_clients_changed h h' ∧
        ∀ c, h_clients h' !! c =
               delivered (room_message n rm event data) (r_clients rm) (h_clients h) c.
Proof.
  intros Hr Hn Hlive. unfold Room_Emit.
  deref_step h_rooms Hr.
  deref_step h_nss Hn.
  by apply emit_range.
Qed.

Lemma Namespace_Emit_spec h ns n event data :
  h_nss h !! ns = Some n →
  all_live h (ns_clients n) →
  ∃ h', Namespace_Emit ns event data h = Some (tt, h') ∧
        only_clients_changed h h' ∧
        ∀ c, h_clients h' !! c =
               delivered (namespace_message n event data) (ns_clients n) (h_clients h) c.
Proof.
  intros Hn Hlive. unfold Namespace_Emit.
  deref_step h_nss Hn.
  by apply emit_range.
Qed.

Lemma Client_Emit_spec h c cl n event data :
  h_clients h !! c = Some cl →
  h_nss h !! c_namespace cl = Some n →
  Client_Emit c event data h =
    Some (tt, set_clients (insert c (pushed (namespace_message n event data) cl)) h).
Proof.
  intros Hc Hn. unfold Client_Emit.
  deref_step h_clients Hc.
  deref_step h_nss Hn.
  by apply select_send_Some.
Qed.

(** C2.  [Room.Emit(event, data)] performs one push of the message
    (event, data, the owning namespace's name, the room's name) on the
    queue of every client of the room's client set and leaves every other
    client, and every other store, as it was.  [Namespace.Emit] performs
    one push of (event, data, the namespace's name, no room) on the queue
    of every client of the namespace's client set, whatever rooms they are
    in.  [Client.Emit] performs that push on the one client.  A push is
    the non-blocking send of the source: on a queue with room it appends
    exactly the message (on a full queue it is dropped, see C3). *)
Theorem Emit_scoping (h : Heap) (event : string) (data : value) :
  (∀ r rm n,
      h_rooms h !! r = Some rm →
      h_nss h !! r_namespace rm = Some n →
      all_live h (r_clients rm) →
      ∃ h', Room_Emit r event data h = Some (tt, h') ∧
            only_clients_changed h h' ∧
            ∀ c, h_clients h' !! c =
                   if decide (c ∈ dom (r_clients rm))
                   then pushed (mkMessage event data (ns_name n) (r_name rm))
                          <$> h_clients h !! c
                   else h_clients h !! c) ∧
  (∀ ns n,
      h_nss h !! ns = Some n →
      all_live h (ns_clients n) →
      ∃ h', Namespace_Emit ns event data h = Some (tt, h') ∧
            only_clients_changed h h' ∧
            ∀ c, h_clients h' !! c =
                   if decide (c ∈ dom (ns_clients n))
                   then pushed (mkMessage event data (ns_name n) "")
                          <$> h_clients h !! c
                   else h_clients h !! c) ∧
  (∀ c cl n,
      h_clients h !! c = Some cl →
      h_nss h !! c_namespace cl = Some n →
      ∃ h', Client_Emit c event data h = Some (tt, h') ∧
            only_clients_changed h h' ∧
            h_clients h' =
              <[c := pushed (mkMessage event data (ns_name n) "") cl]> (h_clients h)) ∧
  (∀ msg cl,
      ¬ full (send cl) →
      chan_buf (send (pushed msg cl)) = (chan_buf (send cl) ++ [msg])%list).
Proof.
  split; [|split; [|split]].
  - intros r rm n Hr Hn Hlive. by apply Room_Emit_spec.
  - intros ns n Hn Hlive. by apply Namespace_Emit_spec.
  - intros c cl n Hc Hn. eexists. split; [by eapply Client_Emit_spec|].
    by repeat split.
  - intros msg cl Hfree. by rewrite pushed_free.
Qed.

(** C3.  On live clients each of the three emits returns (to a caller
    that gets no error value) and, for every client it targets: a full
    queue leaves the client's record, queue included, as it was; a queue
    with room gets the message appended. *)
Theorem drop_on_full (h : Heap) (event : string) (data : value) :
  (∀ c cl n,
      h_clients h !! c = Some cl →
      h_nss h !! c_namespace cl = Some n →
      ∃ h' cl', Client_Emit c event data h = Some (tt, h') ∧
        h_clients h' !! c = Some cl' ∧
        (full (send cl) → cl' = cl ∧ h' = h) ∧
        (¬ full (send cl) →
           send cl' = mkChan (chan_cap (send cl))
                        (chan_buf (send cl) ++ [namespace_message n event data])%list)) ∧
  (∀ r rm n,
      h_rooms h !! r = Some rm →
      h_nss h !! r_namespace rm = Some n →
      all_live h (r_clients rm) →
      ∃ h', Room_Emit r event data h = Some (tt, h') ∧
        ∀ c cl, c ∈ dom (r_clients rm) → h_clients h !! c = Some cl →
          ∃ cl', h_clients h' !! c = Some cl' ∧
            (full (send cl) → cl' = cl) ∧
            (¬ full (send cl) →
               send cl' = mkChan (chan_cap (send cl))
                            (chan_buf (send cl) ++ [room_message n rm event data])%list)) ∧
  (∀ ns n,
      h_nss h !! ns = Some n →
      all_live h (ns_clients n) →
      ∃ h', Namespace_Emit ns event data h = Some (tt, h') ∧
        ∀ c cl, c ∈ dom (ns_clients n) → h_clients h !! c = Some cl →
          ∃ cl', h_clients h' !! c = Some cl' ∧
            (full (send cl) → cl' = cl) ∧
            (¬ full (send cl) →
               send cl' = mkChan (chan_cap (send cl))
                            (chan_buf (send cl) ++ [namespace_message n event data])%list)).
Proof.
  split; [|split].
  - intros c cl n Hc Hn. eexists _, _.
    split; [by eapply Client_Emit_spec|]. simpl.
    split; [apply lookup_insert_eq|]. split.
    + intros Hfull. rewrite pushed_full by done. split; [done|].
      apply heap_eq; simpl; try done. by apply insert_id.
    + intros Hfree. by apply pushed_free.
  - intros r rm n Hr Hn Hlive.
    destruct (Room_Emit_spec _ _ _ _ event data Hr Hn Hlive) as (h' & Hrun & _ & Hcs).
    exists h'. split; [done|]. intros c cl Hin Hc.
    exists (pushed (room_message n rm event data) cl).
    rewrite Hcs. unfold delivered. rewrite decide_True, Hc by done.
    split; [done|]. split; [apply pushed_full|apply pushed_free].
  - intros ns n Hn Hlive.
    destruct (Namespace_Emit_spec _ _ _ event data Hn Hlive) as (h' & Hrun & _ & Hcs).
    exists h'. split; [done|]. intros c cl Hin Hc.
    exists (pushed (namespace_message n event data) cl).
    rewrite Hcs. unfold delivered. rewrite decide_True, Hc by done.
    split; [done|]. split; [apply pushed_full|apply pushed_free].
Qed.

(** ** Dispatch *)

Lemma Namespace_On_Some h ns n event handler :
  h_nss h !! ns = Some n →
  Namespace_On ns event handler h =
    Some (tt, set_nss (insert ns
                 {| ns_name := ns_name n; ns_clients := ns_clients n;
                    ns_rooms := ns_rooms n;
                    ns_events := <[event := handler]> (ns_events n);
                    ns_server := ns_server n |}) h).
Proof.
  intros Hn. unfold Namespace_On.
  deref_step h_nss Hn.
  by apply assign_Some with n.
Qed.

Lemma Namespace_handleEvent_eq call h ns n client msg :
  h_nss h !! ns = Some n →
  Namespace_handleEvent call ns client msg h =
    match ns_events n !! msg_Event msg with
    | Some handler => call handler client (msg_Data msg) h
    | None => Some (tt, h)
    end.
Proof.
  intros Hn. unfold Namespace_handleEvent.
  deref_step h_nss Hn.
  by destruct (ns_events n !! msg_Event msg).
Qed.

Lemma register_all_events regs : ∀ h ns n event,
  h_nss h !! ns = Some n →
  ∃ h1 n1, register_all ns regs h = Some (tt, h1) ∧
           h_nss h1 !! ns = Some n1 ∧
           ns_events n1 !! event =
             match last_registered regs event with
             | Some handler => Some handler
             | None => ns_events n !! event
             end.
Proof.
  induction regs as [|[e handler] regs IH]; intros h ns n event Hn.
  - by exists h, n.
  - edestruct (IH (set_nss (insert ns
                      {| ns_name := ns_name n; ns_clients := ns_clients n;
                         ns_rooms := ns_rooms n;
                         ns_events := <[e := handler]> (ns_events n);
                         ns_server := ns_server n |}) h) ns)
      as (h1 & n1 & Hrun & Hn1 & Hev).
    { simpl. apply lookup_insert_eq. }
    exists h1, n1. split; [|split; [done|]].
    + unfold register_all in *. simpl.
      by rewrite (bind_Some _ _ _ _ _ (Namespace_On_Some _ _ _ e handler Hn)).
    + rewrite Hev. simpl.
      destruct (last_registered regs event); [done|].
      destruct (decide (e = event)) as [->|Hne].
      * apply lookup_insert_eq.
      * by apply lookup_insert_ne.
Qed.

(** C4.  On a live namespace [handleEvent(client, msg)] is exactly one call
    of the handler registered under [msg.Event], with arguments
    [(client, msg.Data)] and run in place, and returns with the heap
    unchanged when no handler is registered under that name.  After any
    sequence of [On] calls the handler registered under a name is the one
    of the last call for that name (or the one registered before, when the
    sequence has none), so that is the handler [handleEvent] calls. *)
Theorem dispatch_routing (call : EventHandler → loc → value → M unit)
    (h : Heap) (ns : loc) (n : Namespace) (client : loc) (msg : Message)
    (regs : list (string * EventHandler)) :
  h_nss h !! ns = Some n →
  Namespace_handleEvent call ns client msg h =
    match ns_events n !! msg_Event msg with
    | Some handler => call handler client (msg_Data msg) h
    | None => Some (tt, h)
    end ∧
  ∃ h1, register_all ns regs h = Some (tt, h1) ∧
        Namespace_handleEvent call ns client msg h1 =
          match last_registered regs (msg_Event msg) with
          | Some handler => call handler client (msg_Data msg) h1
          | None =>
              match ns_events n !! msg_Event msg with
              | Some handler => call handler client (msg_Data msg) h1
              | None => Some (tt, h1)
              end
          end.
Proof.
  intros Hn. split; [by apply Namespace_handleEvent_eq|].
  destruct (register_all_events regs h ns n (msg_Event msg) Hn)
    as (h1 & n1 & Hrun & Hn1 & Hev).
  exists h1. split; [done|].
  rewrite (Namespace_handleEvent_eq _ _ _ _ _ _ Hn1), Hev.
  by destruct (last_registered regs (msg_Event msg)).
Qed.

(** ** Accepting connections *)

Lemma Server_Namespace_inv h s name ns h1 :
  Server_Namespace s name h = Some (ns, h1) →
  ∃ sv, h_servers h !! s = Some sv ∧
        ((namespaces sv !! name = Some ns ∧ h1 = h) ∨
         (namespaces sv !! name = None ∧ ns = fresh (dom (h_nss h)) ∧
          h1 = set_servers (insert s {| namespaces := <[name := ns]> (namespaces sv) |})
                 (set_nss (insert ns (mkNamespace name ∅ ∅ ∅ s)) h))).
Proof.
  intros Hrun. destruct (h_servers h !! s) as [sv|] eqn:Hs.
  - exists sv. split; [done|].
    destruct (namespaces sv !! name) as [q|] eqn:E.
    + rewrite (Server_Namespace_present _ _ _ _ _ Hs E) in Hrun. left. by simplify_eq.
    + rewrite (Server_Namespace_absent _ _ _ _ Hs E) in Hrun. right. by simplify_eq.
  - unfold Server_Namespace, bind, deref in Hrun. by rewrite Hs in Hrun.
Qed.

Lemma ServeWebSocket_inv h s name h1 :
  Server_ServeWebSocket s name true h = Some (tt, h1) →
  ∃ ns h0 n,
    Server_Namespace s name (set_conns (insert (fresh (dom (h_conns h))) (mkConn false)) h)
      = Some (ns, h0) ∧
    h_nss h0 !! ns = Some n ∧
    let c := fresh (dom (h_clients h)) in
    h1 = set_nss (insert ns (ns_with_clients (insert c true) n))
           (set_clients
              (insert c (mkClient generateID (fresh (dom (h_conns h))) s ns ∅
                           (make_chan 256))) h0).
Proof.
  unfold Server_ServeWebSocket. intros Hrun.
  apply bind_inv in Hrun as (conn & ha & Ha & Hrun).
  unfold alloc in Ha. simplify_eq.
  apply bind_inv in Hrun as (ns & h0 & Hns & Hrun).
  apply bind_inv in Hrun as (c & hb & Hb & Hrun).
  unfold alloc in Hb. simplify_eq.
  unfold Namespace_addClient in Hrun.
  apply bind_inv in Hrun as (n & hc & Hn & Hrun).
  apply deref_inv in Hn as [Hn ->]. simpl in Hn.
  apply assign_inv in Hrun as [_ ->].
  exists ns, h0, n. split; [done|]. split; [done|]. simpl.
  apply Server_Namespace_inv in Hns as (sv & _ & [[_ ->]|(_ & _ & ->)]); done.
Qed.

Lemma ServeWebSocket_clients h s name h1 :
  Server_ServeWebSocket s name true h = Some (tt, h1) →
  ∃ conn ns,
    h_clients h1 =
      <[fresh (dom (h_clients h)) :=
          mkClient generateID conn s ns ∅ (make_chan 256)]> (h_clients h).
Proof.
  intros Hrun. apply ServeWebSocket_inv in Hrun as (ns & h0 & n & Hns & _ & ->).
  exists (fresh (dom (h_conns h))), ns. simpl.
  by apply Server_Namespace_inv in Hns as (sv & _ & [[_ ->]|(_ & _ & ->)]).
Qed.

(** C1 (the code does not do this).  [generateID] returns the same string
    at every call, so the clients that two accepted connections create,
    which are two distinct clients, carry the same [ID]. *)
Theorem generateID_repeats (h h1 h2 : Heap) (s : loc) (name1 name2 : string) :
  Server_ServeWebSocket s name1 true h = Some (tt, h1) →
  Server_ServeWebSocket s name2 true h1 = Some (tt, h2) →
  generateID = "abcdefghijklmnop" ∧
  let c1 := fresh (dom (h_clients h)) in
  let c2 := fresh (dom (h_clients h1)) in
  c1 ≠ c2 ∧
  h_clients h !! c1 = None ∧
  h_clients h1 !! c2 = None ∧
  ID <$> h_clients h2 !! c1 = Some generateID ∧
  ID <$> h_clients h2 !! c2 = Some generateID.
Proof.
  intros H1 H2. split; [done|]. simpl.
  apply ServeWebSocket_clients in H1 as (conn1 & ns1 & Hc1).
  apply ServeWebSocket_clients in H2 as (conn2 & ns2 & Hc2).
  assert (fresh (dom (h_clients h)) ≠ fresh (dom (h_clients h1))) as Hne.
  { intros Heq. pose proof (fresh_unused (h_clients h1)) as Hf.
    rewrite <- Heq, Hc1, lookup_insert_eq in Hf. done. }
  split; [done|]. split; [apply fresh_unused|]. split; [apply fresh_unused|].
  rewrite Hc2. split.
  - by rewrite lookup_insert_ne, Hc1, lookup_insert_eq.
  - by rewrite lookup_insert_eq.
Qed.

(** ** Teardown *)

Lemma delete_all_lookup names : ∀ (m : gmap string bool) name,
  delete_all names m !! name = if decide (name ∈ names) then None else m !! name.
Proof.
  induction names as [|k names IH]; intros m name.
  - by rewrite decide_False by apply not_elem_of_nil.
  - change (delete_all (k :: names) m) with (delete_all names (delete k m)).
    rewrite IH.
    destruct (decide (name ∈ names)) as [Hin|Hin].
    + rewrite decide_True; [done|by right].
    + destruct (decide (k = name)) as [->|Hne].
      * rewrite decide_True by left. apply lookup_delete_eq.
      * rewrite decide_False; [by apply lookup_delete_ne|].
        rewrite elem_of_cons. intros [?|?]; by simplify_eq.
Qed.

Lemma delete_all_keys (m : gmap string bool) :
  delete_all (map_to_list m).*1 m = ∅.
Proof.
  apply map_eq. intros name. rewrite delete_all_lookup, lookup_empty.
  destruct (decide (name ∈ (map_to_list m).*1)) as [Hin|Hin]; [done|].
  apply eq_None_not_Some. intros [b Hb]. apply Hin.
  apply list_elem_of_fmap. exists (name, b). split; [done|].
  by apply elem_of_map_to_list.
Qed.

Lemma room_with_clients_delete_twice rm c :
  room_with_clients (delete c) (room_with_clients (delete c) rm) =
  room_with_clients (delete c) rm.
Proof.
  unfold room_with_clients; simpl. f_equal.
  apply delete_id, lookup_delete_eq.
Qed.

Lemma classic_registered n names room :
  registered_under n names room ∨ ¬ registered_under n names room.
Proof.
  induction names as [|name names [IH|IH]].
  - right. intros (k & Hk & _). by apply not_elem_of_nil in Hk.
  - left. destruct IH as (k & Hk & Hreg). exists k. split; [by right|done].
  - destruct (decide (ns_rooms n !! name = Some room)) as [Hreg|Hreg].
    + left. exists name. split; [left|done].
    + right. intros (k & Hk & Hreg'). apply elem_of_cons in Hk as [->|Hk]; [done|].
      apply IH. by exists k.
Qed.

(** The loop of the teardown: leaving every room of [names]. *)
Lemma leave_loop c n names : ∀ h cl,
  h_clients h !! c = Some cl →
  h_nss h !! c_namespace cl = Some n →
  (∀ name room, name ∈ names → ns_rooms n !! name = Some room →
                is_Some (h_rooms h !! room)) →
  ∃ h', for_each names (λ room, Client_Leave c room) h = Some (tt, h') ∧
        h_servers h' = h_servers h ∧ h_nss h' = h_nss h ∧ h_conns h' = h_conns h ∧
        h_clients h' = <[c := with_rooms (delete_all names) cl]> (h_clients h) ∧
        dom (h_rooms h') = dom (h_rooms h) ∧
        ∀ room rm, h_rooms h !! room = Some rm →
          (registered_under n names room →
             h_rooms h' !! room = Some (room_with_clients (delete c) rm)) ∧
          (¬ registered_under n names room → h_rooms h' !! room = Some rm).
Proof.
  induction names as [|name names IH]; intros h cl Hc Hn Hlive.
  - exists h. simpl. repeat split; try done.
    + unfold delete_all; simpl. rewrite insert_id; [done|]. by destruct cl.
    + intros (k & Hk & _). by apply not_elem_of_nil in Hk.
  - destruct (Leave_step c n name h cl Hc Hn) as
      (h1 & Hrun & Hs & Hnn & Hcn & Hcl & Hdom & Hrooms).
    { intros room Hroom. eapply Hlive; [left|done]. }
    destruct (IH h1 (with_rooms (delete name) cl)) as
      (h' & Hrun' & Hs' & Hnn' & Hcn' & Hcl' & Hdom' & Hrooms').
    { rewrite Hcl. apply lookup_insert_eq. }
    { simpl. by rewrite Hnn. }
    { intros k room Hk Hroom. apply elem_of_dom. rewrite Hdom. apply elem_of_dom.
      eapply Hlive; [by right|done]. }
    exists h'. split.
    { simpl. by rewrite (bind_Some _ _ _ _ _ Hrun). }
    split; [congruence|]. split; [congruence|]. split; [congruence|].
    split; [|split; [congruence|]].
    + rewrite Hcl', Hcl, insert_insert_eq. done.
    + intros room rm Hrm. specialize (Hrooms room rm Hrm).
      destruct (decide (ns_rooms n !! name = Some room)) as [Hreg|Hreg].
      * destruct (Hrooms' room _ Hrooms) as [Hyes Hno]. split.
        -- intros _. destruct (classic_registered n names room) as [Hr|Hr].
           ++ rewrite (Hyes Hr). by rewrite room_with_clients_delete_twice.
           ++ by rewrite (Hno Hr).
        -- intros Hnot. exfalso. apply Hnot. exists name. split; [left|done].
      * destruct (Hrooms' room _ Hrooms) as [Hyes Hno]. split.
        -- intros (k & Hk & Hreg'). apply Hyes. exists k. split; [|done].
           apply elem_of_cons in Hk as [->|Hk]; done.
        -- intros Hnot. apply Hno. intros (k & Hk & Hreg'). apply Hnot.
           exists k. split; [by right|done].
Qed.

(** The heap the teardown loop leaves does not depend on the order in
    which the snapshot lists the names. *)
Lemma leave_order_irrelevant c n names names' h cl :
  names ≡ₚ names' →
  h_clients h !! c = Some cl →
  h_nss h !! c_namespace cl = Some n →
  (∀ name room, name ∈ names → ns_rooms n !! name = Some room →
                is_Some (h_rooms h !! room)) →
  for_each names (λ room, Client_Leave c room) h =
  for_each names' (λ room, Client_Leave c room) h.
Proof.
  intros Hperm Hc Hn Hlive.
  destruct (leave_loop c n names h cl Hc Hn Hlive)
    as (h1 & -> & Hs1 & Hn1 & Hc1 & Hcl1 & Hd1 & Hr1).
  destruct (leave_loop c n names' h cl Hc Hn)
    as (h2 & -> & Hs2 & Hn2 & Hc2 & Hcl2 & Hd2 & Hr2).
  { intros name room Hname. apply Hlive. by rewrite Hperm. }
  do 2 f_equal. apply heap_eq; try congruence.
  - apply map_eq. intros r. destruct (h_rooms h !! r) as [rm|] eqn:E.
    + destruct (Hr1 r rm E) as [Y1 N1]. destruct (Hr2 r rm E) as [Y2 N2].
      destruct (classic_registered n names r) as [R|R].
      * rewrite (Y1 R), Y2; [done|]. destruct R as (k & Hk & Hreg).
        exists k. split; [by rewrite <- Hperm|done].
      * rewrite (N1 R), N2; [done|]. intros (k & Hk & Hreg). apply R.
        exists k. split; [by rewrite Hperm|done].
    + assert (h_rooms h1 !! r = None) as ->.
      { apply not_elem_of_dom. rewrite Hd1. by apply not_elem_of_dom. }
      symmetry. apply not_elem_of_dom. rewrite Hd2. by apply not_elem_of_dom.
  - rewrite Hcl1, Hcl2. f_equal. unfold with_rooms. f_equal.
    apply map_eq. intros k. rewrite !delete_all_lookup.
    destruct (decide (k ∈ names)) as [Hin|Hin];
      destruct (decide (k ∈ names')) as [Hin'|Hin']; try done.
    + exfalso. apply Hin'. by rewrite <- Hperm.
    + exfalso. apply Hin. by rewrite Hperm.
Qed.

Lemma readPump_deferred_spec c h cl n cn :
  h_clients h !! c = Some cl →
  h_nss h !! c_namespace cl = Some n →
  h_conns h !! c_conn cl = Some cn →
  (∀ name room, name ∈ dom (c_rooms cl) → ns_rooms n !! name = Some room →
                is_Some (h_rooms h !! room)) →
  ∃ h', readPump_deferred c h = Some (tt, h') ∧
        h_servers h' = h_servers h ∧
        h_nss h' = <[c_namespace cl := ns_with_clients (delete c) n]> (h_nss h) ∧
        h_conns h' = <[c_conn cl := mkConn true]> (h_conns h) ∧
        h_clients h' = <[c := with_rooms (λ _, ∅) cl]> (h_clients h) ∧
        dom (h_rooms h') = dom (h_rooms h) ∧
        ∀ room rm, h_rooms h !! room = Some rm →
          (registered_under n (map_to_list (c_rooms cl)).*1 room →
             h_rooms h' !! room = Some (room_with_clients (delete c) rm)) ∧
          (¬ registered_under n (map_to_list (c_rooms cl)).*1 room →
             h_rooms h' !! room = Some rm).
Proof.
  intros Hc Hn Hcn Hlive. unfold readPump_deferred.
  deref_step h_clients Hc.
  rewrite (bind_Some _ _ _ _ _ (Namespace_removeClient_Some _ _ _ c Hn)).
  erewrite bind_Some; [|by apply deref_Some].
  destruct (leave_loop c (ns_with_clients (delete c) n) (map_to_list (c_rooms cl)).*1
              (set_nss (insert (c_namespace cl) (ns_with_clients (delete c) n)) h) cl)
    as (h1 & Hrun & Hs & Hnn & Hcn1 & Hcl & Hdom & Hrooms).
  { done. }
  { simpl. apply lookup_insert_eq. }
  { intros name room Hname Hroom. simpl. eapply Hlive; [|exact Hroom].
    apply list_elem_of_fmap in Hname as [[k b] [-> Hkb]].
    apply elem_of_map_to_list in Hkb. by eapply elem_of_dom_2. }
  rewrite (bind_Some _ _ _ _ _ Hrun).
  unfold Conn_Close. erewrite assign_Some; [|by rewrite Hcn1].
  eexists. split; [done|]. simpl.
  split; [done|]. split; [done|]. split; [by rewrite Hcn1|].
  split; [|split; [done|]].
  - rewrite Hcl. simpl. f_equal. unfold with_rooms. f_equal. apply delete_all_keys.
  - intros room rm Hrm. by apply Hrooms.
Qed.

(** X22.  The teardown when no other call overlaps it.  When the read
    loop of [c]'s inbound pump ends (the transport closed or a frame did
    not decode) in a heap where [c], its namespace and its connection are
    live, and so are the rooms registered under the names of [c.rooms],
    and the deferred function then runs to its end with no other call in
    between, [readPump] returns, and then: [c] is not in the client set
    of its namespace; [c.rooms] is empty; [c] is in the client set of no
    room it had joined; it is in no room it was not in already; and if
    every room that had [c] was one [c] had joined ([mirror_consistent],
    [rooms_registered]), [c] is in no room at all. *)
Theorem teardown_cascade (call : EventHandler → loc → value → M unit)
    (c : loc) (frames : list json) (h h1 : Heap) (cl : Client) (n : Namespace)
    (cn : Conn) :
  readPump_loop call c frames h = Some (tt, h1) →
  h_clients h1 !! c = Some cl →
  h_nss h1 !! c_namespace cl = Some n →
  h_conns h1 !! c_conn cl = Some cn →
  (∀ name room, name ∈ dom (c_rooms cl) → ns_rooms n !! name = Some room →
                is_Some (h_rooms h1 !! room)) →
  ∃ h2 cl2 n2,
    Client_readPump call c frames h = Some (tt, h2) ∧
    h_nss h2 !! c_namespace cl = Some n2 ∧
    (c ∉ dom (ns_clients n2)) ∧
    h_clients h2 !! c = Some cl2 ∧
    c_rooms cl2 = ∅ ∧
    (∀ room, joined h1 c room →
       ∃ rm2, h_rooms h2 !! room = Some rm2 ∧ c ∉ dom (r_clients rm2)) ∧
    (∀ room rm2, h_rooms h2 !! room = Some rm2 → c ∈ dom (r_clients rm2) →
       ∃ rm1, h_rooms h1 !! room = Some rm1 ∧ c ∈ dom (r_clients rm1)) ∧
    (mirror_consistent h1 → rooms_registered h1 →
       ∀ room rm2, h_rooms h2 !! room = Some rm2 → c ∉ dom (r_clients rm2)).
Proof.
  intros Hloop Hc Hn Hcn Hlive.
  destruct (readPump_deferred_spec c h1 cl n cn Hc Hn Hcn Hlive)
    as (h2 & Hrun & Hs & Hnn & Hcn2 & Hcl & Hdom & Hrooms).
  assert (∀ room rm2, h_rooms h2 !! room = Some rm2 →
            ∃ rm1, h_rooms h1 !! room = Some rm1 ∧
              ((registered_under n (map_to_list (c_rooms cl)).*1 room ∧
                rm2 = room_with_clients (delete c) rm1) ∨
               (¬ registered_under n (map_to_list (c_rooms cl)).*1 room ∧
                rm2 = rm1))) as Hback.
  { intros room rm2 Hrm2.
    assert (is_Some (h_rooms h1 !! room)) as [rm1 Hrm1].
    { apply elem_of_dom. rewrite <- Hdom. by eapply elem_of_dom_2. }
    exists rm1. split; [done|]. destruct (Hrooms room rm1 Hrm1) as [Hyes Hno].
    destruct (classic_registered n (map_to_list (c_rooms cl)).*1 room) as [Hr|Hr].
    - left. split; [done|]. rewrite (Hyes Hr) in Hrm2. by simplify_eq.
    - right. split; [done|]. rewrite (Hno Hr) in Hrm2. by simplify_eq. }
  exists h2, (with_rooms (λ _, ∅) cl), (ns_with_clients (delete c) n).
  split; [|split; [|split; [|split; [|split; [|split; [|split]]]]]].
  - unfold Client_readPump. by rewrite (bind_Some _ _ _ _ _ Hloop).
  - rewrite Hnn. apply lookup_insert_eq.
  - simpl. rewrite dom_delete_L. set_solver.
  - rewrite Hcl. apply lookup_insert_eq.
  - done.
  - intros room (cl' & n' & name & Hc' & Hn' & Hname & Hreg). simplify_eq.
    assert (is_Some (h_rooms h1 !! room)) as [rm1 Hrm1] by by eapply Hlive.
    destruct (Hrooms room rm1 Hrm1) as [Hyes _].
    eexists. split.
    + apply Hyes. exists name. split; [|done]. by apply elem_of_keys.
    + simpl. rewrite dom_delete_L. set_solver.
  - intros room rm2 Hrm2 Hin.
    destruct (Hback room rm2 Hrm2) as (rm1 & Hrm1 & [[_ ->]|[_ ->]]).
    + exists rm1. split; [done|]. simpl in Hin. rewrite dom_delete_L in Hin. set_solver.
    + by exists rm1.
  - intros Hmirror Hreg room rm2 Hrm2 Hin.
    destruct (Hback room rm2 Hrm2) as (rm1 & Hrm1 & [[_ ->]|[Hnot ->]]).
    + simpl in Hin. rewrite dom_delete_L in Hin. set_solver.
    + apply Hnot. destruct (Hmirror room rm1 c Hrm1 Hin) as (cl' & Hc' & Hns & Hname).
      destruct (Hreg room rm1 Hrm1) as (n' & Hn' & Hroom). simplify_eq.
      exists (r_name rm1). split; [by apply elem_of_keys|].
      rewrite <- Hns in Hn'. by simplify_eq.
Qed.

(** ** The room-subset invariant *)

Lemma extends_refl h : extends h h.
Proof.
  split; [done|]. split; [|split].
  - intros ns n Hn. by exists n.
  - intros ns n Hn. right. by exists n.
  - intros c cl Hc. by exists cl.
Qed.

Lemma extends_trans h1 h2 h3 : extends h1 h2 → extends h2 h3 → extends h1 h3.
Proof.
  intros (Hr & Hn & Hn' & Hc) (Hr2 & Hn2 & Hn2' & Hc2).
  split; [congruence|]. split; [|split].
  - intros ns n H1. destruct (Hn ns n H1) as (n' & H2 & Hrooms & Hsub).
    destruct (Hn2 ns n' H2) as (n'' & H3 & Hrooms' & Hsub').
    exists n''. split; [done|]. split; [congruence|set_solver].
  - intros ns n'' H3. destruct (Hn2' ns n'' H3) as [He|(n' & H2 & Hrooms')]; [by left|].
    destruct (Hn' ns n' H2) as [He|(n & H1 & Hrooms)].
    + left. congruence.
    + right. exists n. split; [done|congruence].
  - intros c cl H1. destruct (Hc c cl H1) as (cl' & H2 & Hns & Hrs).
    destruct (Hc2 c cl' H2) as (cl'' & H3 & Hns' & Hrs').
    exists cl''. split; [done|]. split; [congruence|set_solver].
Qed.

Lemma coherent_extends h h' : extends h h' → coherent h → coherent h'.
Proof.
  intros (Hr & Hn & Hn' & Hc) (I1 & I2 & I3 & I4).
  split; [|split; [|split]].
  - intros r rm Hrm. rewrite Hr in Hrm.
    destruct (I1 r rm Hrm) as (n & Hns & Hsub).
    destruct (Hn _ n Hns) as (n' & Hns' & _ & Hsub').
    exists n'. split; [done|set_solver].
  - intros r rm c Hrm Hin. rewrite Hr in Hrm.
    destruct (I2 r rm c Hrm Hin) as (cl & Hcl & Hns & Hname).
    destruct (Hc c cl Hcl) as (cl' & Hcl' & Hns' & Hrs').
    exists cl'. split; [done|]. split; [congruence|set_solver].
  - intros r rm Hrm. rewrite Hr in Hrm.
    destruct (I3 r rm Hrm) as (n & Hns & Hreg).
    destruct (Hn _ n Hns) as (n' & Hns' & Hrooms & _).
    exists n'. split; [done|congruence].
  - intros ns n' name r Hns' Hreg. rewrite Hr.
    destruct (Hn' ns n' Hns') as [He|(n & Hns & Hrooms)].
    + rewrite He in Hreg. by rewrite lookup_empty in Hreg.
    + rewrite Hrooms in Hreg. by eapply I4.
Qed.

Lemma extends_servers f h : extends h (set_servers f h).
Proof. exact (extends_refl h). Qed.

Lemma extends_conns f h : extends h (set_conns f h).
Proof. exact (extends_refl h). Qed.

Lemma extends_new_namespace h ns n :
  h_nss h !! ns = None → ns_rooms n = ∅ →
  extends h (set_nss (insert ns n) h).
Proof.
  intros Hfresh Hempty. split; [done|]. split; [|split]; simpl.
  - intros x nx Hx. exists nx. rewrite lookup_insert_ne by congruence. done.
  - intros x nx Hx. destruct (decide (ns = x)) as [->|Hne].
    + rewrite lookup_insert_eq in Hx. left. by simplify_eq.
    + rewrite lookup_insert_ne in Hx by done. right. by exists nx.
  - intros c cl Hc. by exists cl.
Qed.

Lemma extends_update_namespace h ns n n' :
  h_nss h !! ns = Some n → ns_rooms n' = ns_rooms n →
  dom (ns_clients n) ⊆ dom (ns_clients n') →
  extends h (set_nss (insert ns n') h).
Proof.
  intros Hn Hrooms Hsub. split; [done|]. split; [|split]; simpl.
  - intros x nx Hx. destruct (decide (ns = x)) as [->|Hne].
    + rewrite lookup_insert_eq. exists n'. by simplify_eq.
    + rewrite lookup_insert_ne by done. by exists nx.
  - intros x nx Hx. right. destruct (decide (ns = x)) as [->|Hne].
    + rewrite lookup_insert_eq in Hx. exists n. by simplify_eq.
    + rewrite lookup_insert_ne in Hx by done. by exists nx.
  - intros c cl Hc. by exists cl.
Qed.

Lemma extends_new_client h c cl :
  h_clients h !! c = None → extends h (set_clients (insert c cl) h).
Proof.
  intros Hfresh. split; [done|]. split; [|split]; simpl.
  - intros x nx Hx. by exists nx.
  - intros x nx Hx. right. by exists nx.
  - intros d cd Hd. exists cd. rewrite lookup_insert_ne by congruence. done.
Qed.

Lemma extends_update_client h c cl cl' :
  h_clients h !! c = Some cl →
  c_namespace cl' = c_namespace cl → dom (c_rooms cl) ⊆ dom (c_rooms cl') →
  extends h (set_clients (insert c cl') h).
Proof.
  intros Hc Hns Hrs. split; [done|]. split; [|split]; simpl.
  - intros x nx Hx. by exists nx.
  - intros x nx Hx. right. by exists nx.
  - intros d cd Hd. destruct (decide (c = d)) as [->|Hne].
    + rewrite lookup_insert_eq. exists cl'. by simplify_eq.
    + rewrite lookup_insert_ne by done. by exists cd.
Qed.

Lemma Server_Namespace_extends h s name ns h1 :
  Server_Namespace s name h = Some (ns, h1) → extends h h1.
Proof.
  intros Hrun.
  apply Server_Namespace_inv in Hrun as (sv & _ & [[_ ->]|(_ & -> & ->)]).
  - apply extends_refl.
  - eapply extends_trans; [|apply extends_servers].
    apply extends_new_namespace; [apply fresh_unused|done].
Qed.

Lemma select_send_extends c msg h u h1 :
  select_send c msg h = Some (u, h1) → extends h h1.
Proof.
  intros Hrun. destruct (select_send_live _ _ _ _ _ Hrun) as [cl Hcl].
  rewrite (select_send_Some _ _ _ msg Hcl) in Hrun. simplify_eq.
  by eapply extends_update_client.
Qed.

Lemma emit_loop_extends msg ks : ∀ h h1,
  for_each ks (λ client, select_send client msg) h = Some (tt, h1) → extends h h1.
Proof.
  induction ks as [|k ks IH]; intros h h1 Hrun; simpl in Hrun.
  - unfold ret in Hrun. simplify_eq. apply extends_refl.
  - apply bind_inv in Hrun as (u & h0 & Hk & Hrun).
    eapply extends_trans; [by eapply select_send_extends|by apply IH].
Qed.

Lemma Namespace_Room_inv h ns name r h1 :
  Namespace_Room ns name h = Some (r, h1) →
  ∃ n, h_nss h !! ns = Some n ∧
       ((ns_rooms n !! name = Some r ∧ h1 = h) ∨
        (ns_rooms n !! name = None ∧ r = fresh (dom (h_rooms h)) ∧
         h1 = set_nss (insert ns (ns_with_rooms (insert name r) n))
                (set_rooms (insert r (mkRoom name ∅ ns)) h))).
Proof.
  intros Hrun. destruct (h_nss h !! ns) as [n|] eqn:Hn.
  - exists n. split; [done|].
    destruct (ns_rooms n !! name) as [q|] eqn:E.
    + rewrite (Namespace_Room_present _ _ _ _ _ Hn E) in Hrun. left. by simplify_eq.
    + rewrite (Namespace_Room_absent _ _ _ _ Hn E) in Hrun. right. by simplify_eq.
  - unfold Namespace_Room, bind, deref in Hrun. by rewrite Hn in Hrun.
Qed.

Lemma coherent_new_room h ns n name p :
  h_nss h !! ns = Some n → ns_rooms n !! name = None →
  h_rooms h !! p = None →
  coherent h →
  coherent (set_nss (insert ns (ns_with_rooms (insert name p) n))
              (set_rooms (insert p (mkRoom name ∅ ns)) h)).
Proof.
  intros Hn Hname Hfresh (I1 & I2 & I3 & I4).
  split; [|split; [|split]]; simpl.
  - intros r rm Hrm; simpl in *. destruct (decide (p = r)) as [<-|Hne].
    + rewrite lookup_insert_eq in Hrm. simplify_eq. simpl.
      rewrite lookup_insert_eq. eexists. split; [done|]. simpl. set_solver.
    + rewrite lookup_insert_ne in Hrm by done.
      destruct (I1 r rm Hrm) as (nx & Hnx & Hsub).
      destruct (decide (ns = r_namespace rm)) as [Heq|Hne'].
      * rewrite <- Heq in *. rewrite lookup_insert_eq. simplify_eq.
        eexists. split; [done|]. done.
      * rewrite lookup_insert_ne by done. by exists nx.
  - intros r rm c Hrm Hin; simpl in *. destruct (decide (p = r)) as [<-|Hne].
    + rewrite lookup_insert_eq in Hrm. simplify_eq. simpl in Hin. set_solver.
    + rewrite lookup_insert_ne in Hrm by done. by eapply I2.
  - intros r rm Hrm; simpl in *. destruct (decide (p = r)) as [<-|Hne].
    + rewrite lookup_insert_eq in Hrm. simplify_eq. simpl.
      rewrite lookup_insert_eq. eexists. split; [done|]. simpl.
      apply lookup_insert_eq.
    + rewrite lookup_insert_ne in Hrm by done.
      destruct (I3 r rm Hrm) as (nx & Hnx & Hreg).
      destruct (decide (ns = r_namespace rm)) as [Heq|Hne'].
      * rewrite <- Heq in *. rewrite lookup_insert_eq. simplify_eq.
        eexists. split; [done|]. simpl.
        rewrite lookup_insert_ne; [done|]. intros ->. congruence.
      * rewrite lookup_insert_ne by done. by exists nx.
  - intros x nx k r Hx Hreg; simpl in *. destruct (decide (ns = x)) as [<-|Hne].
    + rewrite lookup_insert_eq in Hx. simplify_eq. simpl in Hreg.
      destruct (decide (name = k)) as [<-|Hne].
      * rewrite lookup_insert_eq in Hreg. simplify_eq.
        rewrite lookup_insert_eq. by eexists.
      * rewrite lookup_insert_ne in Hreg by done.
        destruct (I4 ns n k r Hn Hreg) as (rm & Hrm & Hns & Hk).
        exists rm. rewrite lookup_insert_ne; [done|]. intros <-. congruence.
    + rewrite lookup_insert_ne in Hx by done.
      destruct (I4 x nx k r Hx Hreg) as (rm & Hrm & Hns & Hk).
      exists rm. rewrite lookup_insert_ne; [done|]. intros <-. congruence.
Qed.

Lemma Namespace_Room_coherent h ns name r h1 :
  Namespace_Room ns name h = Some (r, h1) →
  coherent h →
  coherent h1 ∧ h_clients h1 = h_clients h ∧
  ∃ n n1, h_nss h !! ns = Some n ∧ h_nss h1 !! ns = Some n1 ∧
          ns_rooms n1 !! name = Some r ∧ ns_clients n1 = ns_clients n.
Proof.
  intros Hrun Hco.
  apply Namespace_Room_inv in Hrun as (n & Hn & [[Hreg ->]|(Hreg & -> & ->)]).
  - split; [done|]. split; [done|]. by exists n, n.
  - split; [apply coherent_new_room; try done; apply fresh_unused|]. split; [done|].
    exists n, (ns_with_rooms (insert name (fresh (dom (h_rooms h)))) n). simpl.
    split; [done|]. split; [apply lookup_insert_eq|]. split; [|done].
    apply lookup_insert_eq.
Qed.

Lemma Room_addClient_coherent h r rm c cl n :
  h_rooms h !! r = Some rm →
  h_clients h !! c = Some cl →
  c_namespace cl = r_namespace rm →
  r_name rm ∈ dom (c_rooms cl) →
  h_nss h !! r_namespace rm = Some n →
  c ∈ dom (ns_clients n) →
  coherent h →
  coherent (set_rooms (insert r (room_with_clients (insert c true) rm)) h).
Proof.
  intros Hrm Hcl Hns Hname Hn Hin (I1 & I2 & I3 & I4).
  split; [|split; [|split]]; simpl.
  - intros x rx Hx; simpl in *. destruct (decide (r = x)) as [<-|Hne].
    + rewrite lookup_insert_eq in Hx. simplify_eq. simpl.
      exists n. split; [done|]. rewrite dom_insert_L.
      destruct (I1 r rm Hrm) as (n' & Hn' & Hsub). simplify_eq. set_solver.
    + rewrite lookup_insert_ne in Hx by done. exact (I1 _ _ Hx).
  - intros x rx d Hx Hd; simpl in *. destruct (decide (r = x)) as [<-|Hne].
    + rewrite lookup_insert_eq in Hx. simplify_eq. simpl in *.
      rewrite dom_insert_L in Hd. apply elem_of_union in Hd as [Hd|Hd].
      * apply elem_of_singleton in Hd as ->. by exists cl.
      * by eapply I2.
    + rewrite lookup_insert_ne in Hx by done. by eapply I2.
  - intros x rx Hx; simpl in *. destruct (decide (r = x)) as [<-|Hne].
    + rewrite lookup_insert_eq in Hx. simplify_eq. simpl. exact (I3 _ _ Hrm).
    + rewrite lookup_insert_ne in Hx by done. exact (I3 _ _ Hx).
  - intros x nx k q Hx Hreg; simpl in *. destruct (I4 x nx k q Hx Hreg) as (rq & Hq & Hns' & Hk).
    destruct (decide (r = q)) as [<-|Hne].
    + rewrite lookup_insert_eq. simplify_eq. by eexists.
    + rewrite lookup_insert_ne by done. by exists rq.
Qed.

(** Removing [c] from rooms, from its mirror and from namespaces keeps the
    invariant as long as [c] stays consistent with the rooms it is still
    in. *)
Lemma coherent_shrink h h' c :
  (∀ r rm', h_rooms h' !! r = Some rm' →
     ∃ rm, h_rooms h !! r = Some rm ∧ r_name rm' = r_name rm ∧
           r_namespace rm' = r_namespace rm ∧
           dom (r_clients rm') ⊆ dom (r_clients rm)) →
  dom (h_rooms h') = dom (h_rooms h) →
  (∀ ns n, h_nss h !! ns = Some n →
     ∃ n', h_nss h' !! ns = Some n' ∧ ns_rooms n' = ns_rooms n ∧
           dom (ns_clients n) ∖ {[c]} ⊆ dom (ns_clients n')) →
  (∀ ns n', h_nss h' !! ns = Some n' →
     ∃ n, h_nss h !! ns = Some n ∧ ns_rooms n' = ns_rooms n) →
  (∀ d cl, d ≠ c → h_clients h !! d = Some cl → h_clients h' !! d = Some cl) →
  (∀ r rm', h_rooms h' !! r = Some rm' → c ∈ dom (r_clients rm') →
     ∃ cl' n', h_clients h' !! c = Some cl' ∧ c_namespace cl' = r_namespace rm' ∧
               r_name rm' ∈ dom (c_rooms cl') ∧
               h_nss h' !! r_namespace rm' = Some n' ∧ c ∈ dom (ns_clients n')) →
  coherent h → coherent h'.
Proof.
  intros R1 R2 N1 N2 C1 C2 (I1 & I2 & I3 & I4).
  split; [|split; [|split]].
  - intros r rm' Hrm'. destruct (R1 r rm' Hrm') as (rm & Hrm & Hname & Hns & Hsub).
    destruct (I1 r rm Hrm) as (n & Hn & Hsub').
    destruct (N1 _ n Hn) as (n' & Hn' & _ & Hsub'').
    exists n'. rewrite Hns. split; [done|]. intros d Hd.
    destruct (decide (d = c)) as [->|Hne].
    + destruct (C2 r rm' Hrm' Hd) as (cl' & n'' & _ & _ & _ & Hn'' & Hin).
      rewrite Hns in Hn''. by simplify_eq.
    + set_solver.
  - intros r rm' d Hrm' Hd. destruct (decide (d = c)) as [->|Hne].
    + destruct (C2 r rm' Hrm' Hd) as (cl' & n'' & Hcl' & Hns' & Hname' & _).
      by exists cl'.
    + destruct (R1 r rm' Hrm') as (rm & Hrm & Hname & Hns & Hsub).
      destruct (I2 r rm d Hrm) as (cl & Hcl & Hns' & Hname'); [set_solver|].
      exists cl. split; [by apply C1|]. split; congruence.
  - intros r rm' Hrm'. destruct (R1 r rm' Hrm') as (rm & Hrm & Hname & Hns & Hsub).
    destruct (I3 r rm Hrm) as (n & Hn & Hreg).
    destruct (N1 _ n Hn) as (n' & Hn' & Hrooms & _).
    exists n'. rewrite Hns, Hname, Hrooms. done.
  - intros ns n' name r Hn' Hreg.
    destruct (N2 ns n' Hn') as (n & Hn & Hrooms). rewrite Hrooms in Hreg.
    destruct (I4 ns n name r Hn Hreg) as (rm & Hrm & Hns & Hname).
    assert (is_Some (h_rooms h' !! r)) as [rm' Hrm'].
    { apply elem_of_dom. rewrite R2. by eapply elem_of_dom_2. }
    destruct (R1 r rm' Hrm') as (rm0 & Hrm0 & Hname0 & Hns0 & _).
    exists rm'. simplify_eq. done.
Qed.

Lemma Client_Leave_live c roomName h u h' :
  Client_Leave c roomName h = Some (u, h') →
  ∃ cl n, h_clients h !! c = Some cl ∧ h_nss h !! c_namespace cl = Some n.
Proof.
  unfold Client_Leave. intros Hrun.
  apply bind_inv in Hrun as (cl & h1 & Hcl & Hrun).
  apply deref_inv in Hcl as [Hcl ->].
  apply bind_inv in Hrun as (? & h2 & Ha & Hrun).
  apply assign_inv in Ha as [_ ->].
  apply bind_inv in Hrun as (n & h3 & Hn & _).
  apply deref_inv in Hn as [Hn ->]. by exists cl, n.
Qed.

Lemma Client_Leave_coherent c roomName h h' :
  Client_Leave c roomName h = Some (tt, h') → coherent h → coherent h'.
Proof.
  intros Hrun Hco. pose proof Hco as (I1 & I2 & I3 & I4).
  destruct (Client_Leave_live _ _ _ _ _ Hrun) as (cl & n & Hcl & Hn).
  destruct (Leave_step c n roomName h cl Hcl Hn)
    as (h1 & Hrun1 & Hs & Hnn & Hcn & Hcl1 & Hdom & Hrooms).
  { intros room Hreg. destruct (I4 _ _ _ _ Hn Hreg) as (rm & Hrm & _). eauto. }
  rewrite Hrun in Hrun1. simplify_eq.
  assert (∀ r rm', h_rooms h1 !! r = Some rm' →
            ∃ rm, h_rooms h !! r = Some rm ∧
                  rm' = if decide (ns_rooms n !! roomName = Some r)
                        then room_with_clients (delete c) rm else rm) as Hback.
  { intros r rm' Hrm'.
    assert (is_Some (h_rooms h !! r)) as [rm Hrm].
    { apply elem_of_dom. rewrite <- Hdom. by eapply elem_of_dom_2. }
    exists rm. split; [done|]. rewrite (Hrooms r rm Hrm) in Hrm'. by simplify_eq. }
  apply (coherent_shrink h h1 c); try done.
  - intros r rm' Hrm'. destruct (Hback r rm' Hrm') as (rm & Hrm & ->).
    exists rm. split; [done|]. destruct (decide _); simpl; [|done].
    rewrite dom_delete_L. set_solver.
  - intros ns nx Hx. exists nx. rewrite Hnn. split; [done|]. split; [done|set_solver].
  - intros ns nx Hx. exists nx. by rewrite <- Hnn.
  - intros d cd Hne Hd. rewrite Hcl1. by rewrite lookup_insert_ne.
  - intros r rm' Hrm' Hin. destruct (Hback r rm' Hrm') as (rm & Hrm & ->).
    destruct (decide (ns_rooms n !! roomName = Some r)) as [Hreg|Hreg].
    { simpl in Hin. rewrite dom_delete_L in Hin. set_solver. }
    destruct (I2 r rm c Hrm Hin) as (cl0 & Hcl0 & Hns & Hname).
    assert (cl0 = cl) as -> by congruence.
    destruct (I1 r rm Hrm) as (n0 & Hn0 & Hsub).
    destruct (I3 r rm Hrm) as (n1 & Hn1 & Hreg1).
    assert (n0 = n) as -> by congruence.
    assert (n1 = n) as -> by congruence.
    exists (with_rooms (delete roomName) cl), n.
    rewrite Hcl1, lookup_insert_eq, Hnn. simpl.
    split; [done|]. split; [done|]. split; [|split; [done|set_solver]].
    rewrite dom_delete_L. apply elem_of_difference. split; [done|].
    intros Heq%elem_of_singleton. rewrite Heq in Hreg1. done.
Qed.

Lemma Room_removeClient_coherent r c h h' :
  Room_removeClient r c h = Some (tt, h') → coherent h → coherent h'.
Proof.
  intros Hrun Hco. pose proof Hco as (I1 & I2 & I3 & I4).
  destruct (h_rooms h !! r) as [rm0|] eqn:Hrm0.
  2:{ unfold Room_removeClient, bind, deref in Hrun. by rewrite Hrm0 in Hrun. }
  rewrite (Room_removeClient_Some _ _ _ c Hrm0) in Hrun. simplify_eq.
  assert (∀ x rm', <[r:=room_with_clients (delete c) rm0]> (h_rooms h) !! x = Some rm' →
            ∃ rm, h_rooms h !! x = Some rm ∧
                  rm' = if decide (r = x) then room_with_clients (delete c) rm
                        else rm) as Hback.
  { intros x rm' Hx. destruct (decide (r = x)) as [<-|Hne].
    - rewrite lookup_insert_eq in Hx. exists rm0. by simplify_eq.
    - rewrite lookup_insert_ne in Hx by done. by exists rm'. }
  apply (coherent_shrink h _ c); simpl; try done.
  - intros x rm' Hx. destruct (Hback x rm' Hx) as (rm & Hrm & ->).
    exists rm. split; [done|]. destruct (decide _); simpl; [|done].
    rewrite dom_delete_L. set_solver.
  - by apply dom_insert_lookup_L.
  - intros ns nx Hx. exists nx. split; [done|]. split; [done|set_solver].
  - intros ns nx Hx. by exists nx.
  - intros x rm' Hx Hin. destruct (Hback x rm' Hx) as (rm & Hrm & ->).
    destruct (decide (r = x)) as [<-|Hne].
    { simpl in Hin. rewrite dom_delete_L in Hin. set_solver. }
    destruct (I2 x rm c Hrm Hin) as (cl0 & Hcl0 & Hns & Hname).
    destruct (I1 x rm Hrm) as (n0 & Hn0 & Hsub).
    exists cl0, n0. split; [done|]. split; [done|]. split; [done|].
    split; [done|set_solver].
Qed.

Lemma readPump_deferred_live c h u h' :
  readPump_deferred c h = Some (u, h') →
  registry_sound h →
  ∃ cl n cn, h_clients h !! c = Some cl ∧ h_nss h !! c_namespace cl = Some n ∧
             h_conns h !! c_conn cl = Some cn.
Proof.
  unfold readPump_deferred. intros Hrun I4.
  apply bind_inv in Hrun as (cl & h1 & Hcl & Hrun).
  apply deref_inv in Hcl as [Hcl ->].
  apply bind_inv in Hrun as (? & h2 & Hrm & Hrun).
  destruct (h_nss h !! c_namespace cl) as [n|] eqn:Hn.
  2:{ unfold Namespace_removeClient, bind, deref in Hrm. by rewrite Hn in Hrm. }
  rewrite (Namespace_removeClient_Some _ _ _ c Hn) in Hrm. simplify_eq.
  apply bind_inv in Hrun as (cl' & h3 & Hcl' & Hrun).
  apply deref_inv in Hcl' as [Hcl' ->]. simpl in Hcl'.
  assert (cl' = cl) as -> by congruence.
  apply bind_inv in Hrun as (? & h4 & Hloop & Hclose).
  destruct (leave_loop c (ns_with_clients (delete c) n) (map_to_list (c_rooms cl)).*1
              (set_nss (insert (c_namespace cl) (ns_with_clients (delete c) n)) h) cl)
    as (h5 & Hrun5 & _ & _ & Hcn5 & _).
  { done. }
  { simpl. apply lookup_insert_eq. }
  { intros name room _ Hreg. simpl in *.
    destruct (I4 _ _ _ _ Hn Hreg) as (rm & Hrm & _). eauto. }
  rewrite Hloop in Hrun5. simplify_eq.
  apply assign_inv in Hclose as [[cn Hcn] _]. rewrite Hcn5 in Hcn.
  by exists cl, n, cn.
Qed.

Lemma readPump_deferred_coherent c h h' :
  readPump_deferred c h = Some (tt, h') → coherent h → coherent h'.
Proof.
  intros Hrun Hco. pose proof Hco as (I1 & I2 & I3 & I4).
  destruct (readPump_deferred_live _ _ _ _ Hrun I4) as (cl & n & cn & Hcl & Hn & Hcn).
  destruct (readPump_deferred_spec c h cl n cn Hcl Hn Hcn)
    as (h1 & Hrun1 & Hs & Hnn & Hcn1 & Hcl1 & Hdom & Hrooms).
  { intros name room _ Hreg. destruct (I4 _ _ _ _ Hn Hreg) as (rm & Hrm & _). eauto. }
  rewrite Hrun in Hrun1. simplify_eq.
  assert (∀ r rm', h_rooms h1 !! r = Some rm' →
            ∃ rm, h_rooms h !! r = Some rm ∧
              ((registered_under n (map_to_list (c_rooms cl)).*1 r ∧
                rm' = room_with_clients (delete c) rm) ∨
               (¬ registered_under n (map_to_list (c_rooms cl)).*1 r ∧
                rm' = rm))) as Hback.
  { intros r rm' Hrm'.
    assert (is_Some (h_rooms h !! r)) as [rm Hrm].
    { apply elem_of_dom. rewrite <- Hdom. by eapply elem_of_dom_2. }
    exists rm. split; [done|]. destruct (Hrooms r rm Hrm) as [Hyes Hno].
    destruct (classic_registered n (map_to_list (c_rooms cl)).*1 r) as [Hr|Hr].
    - left. split; [done|]. rewrite (Hyes Hr) in Hrm'. by simplify_eq.
    - right. split; [done|]. rewrite (Hno Hr) in Hrm'. by simplify_eq. }
  apply (coherent_shrink h h1 c); try done.
  - intros r rm' Hrm'. destruct (Hback r rm' Hrm') as (rm & Hrm & [[_ ->]|[_ ->]]).
    + exists rm. split; [done|]. simpl. rewrite dom_delete_L. set_solver.
    + by exists rm.
  - intros ns nx Hx. rewrite Hnn.
    destruct (decide (c_namespace cl = ns)) as [<-|Hne].
    + rewrite lookup_insert_eq. eexists. split; [done|]. simpl.
      assert (nx = n) as -> by congruence. split; [done|].
      rewrite dom_delete_L. set_solver.
    + rewrite lookup_insert_ne by done. exists nx. split; [done|]. split; [done|set_solver].
  - intros ns nx Hx. rewrite Hnn in Hx.
    destruct (decide (c_namespace cl = ns)) as [<-|Hne].
    + rewrite lookup_insert_eq in Hx. exists n. by simplify_eq.
    + rewrite lookup_insert_ne in Hx by done. by exists nx.
  - intros d cd Hne Hd. rewrite Hcl1. by rewrite lookup_insert_ne.
  - intros r rm' Hrm' Hin. exfalso.
    destruct (Hback r rm' Hrm') as (rm & Hrm & [[_ ->]|[Hnot ->]]).
    + simpl in Hin. rewrite dom_delete_L in Hin. set_solver.
    + apply Hnot. destruct (I2 r rm c Hrm Hin) as (cl0 & Hcl0 & Hns & Hname).
      destruct (I3 r rm Hrm) as (n0 & Hn0 & Hreg).
      assert (cl0 = cl) as -> by congruence.
      assert (n0 = n) as -> by congruence.
      exists (r_name rm). split; [by apply elem_of_keys|done].
Qed.

Lemma Client_Join_coherent c roomName h h' :
  Client_Join c roomName h = Some (tt, h') →
  connected h c → coherent h → coherent h'.
Proof.
  intros Hrun (cl & n & Hcl & Hn & Hin) Hco. unfold Client_Join in Hrun.
  deref_step h_clients Hcl in Hrun.
  rewrite (bind_Some _ _ _ _ _ (assign_Some h_clients set_clients _ _ _ _ Hcl)) in Hrun.
  apply bind_inv in Hrun as (room & h1 & Hroom & Hadd).
  assert (coherent (set_clients (insert c (with_rooms (insert roomName true) cl)) h))
    as Hco1.
  { eapply coherent_extends; [|exact Hco].
    eapply extends_update_client; [done|done|]. simpl. rewrite dom_insert_L. set_solver. }
  destruct (Namespace_Room_coherent _ _ _ _ _ Hroom Hco1)
    as (Hco2 & Hcls & n0 & n1 & Hn0 & Hn1 & Hreg & Hclients).
  simpl in Hn0, Hcls. assert (n0 = n) as -> by congruence.
  pose proof Hco2 as (_ & _ & _ & I4).
  destruct (I4 _ _ _ _ Hn1 Hreg) as (rm & Hrm & Hns & Hname).
  rewrite (Room_addClient_Some _ _ _ c Hrm) in Hadd. injection Hadd as <-.
  apply (Room_addClient_coherent h1 room rm c
           (with_rooms (insert roomName true) cl) n1).
  - done.
  - rewrite Hcls. apply lookup_insert_eq.
  - simpl. by rewrite Hns.
  - simpl. rewrite dom_insert_L, Hname. set_solver.
  - by rewrite Hns.
  - by rewrite Hclients.
  - done.
Qed.

Lemma ServeWebSocket_coherent s name upgrade h h' :
  Server_ServeWebSocket s name upgrade h = Some (tt, h') → coherent h → coherent h'.
Proof.
  destruct upgrade; [|unfold Server_ServeWebSocket, ret; intros; by simplify_eq].
  intros Hrun Hco. apply ServeWebSocket_inv in Hrun as (ns & h0 & n & Hns & Hn & ->).
  eapply coherent_extends; [|exact Hco].
  eapply extends_trans; [apply extends_conns|].
  eapply extends_trans; [by eapply Server_Namespace_extends|].
  assert (h_clients h0 = h_clients h) as Hcls.
  { by apply Server_Namespace_inv in Hns as (sv & _ & [[_ ->]|(_ & _ & ->)]). }
  eapply extends_trans.
  - apply extends_new_client. rewrite Hcls. apply fresh_unused.
  - eapply extends_update_namespace; simpl; [done|done|].
    rewrite dom_insert_L. set_solver.
Qed.

Lemma coherent_empty : coherent empty_heap.
Proof.
  split; [|split; [|split]].
  - intros r rm Hr. unfold empty_heap in Hr. simpl in Hr. by rewrite lookup_empty in Hr.
  - intros r rm c Hr. unfold empty_heap in Hr. simpl in Hr. by rewrite lookup_empty in Hr.
  - intros r rm Hr. unfold empty_heap in Hr. simpl in Hr. by rewrite lookup_empty in Hr.
  - intros ns n name r Hn. unfold empty_heap in Hn. simpl in Hn. by rewrite lookup_empty in Hn.
Qed.

Lemma run_op_coherent h o h' :
  connected_op h o → run_op o h = Some (tt, h') → coherent h → coherent h'.
Proof.
  intros Hperm Hrun Hco. destruct o; simpl in Hperm, Hrun.
  - unfold discard, NewServer, bind, alloc, ret in Hrun. simplify_eq.
    eapply coherent_extends; [apply extends_servers|done].
  - apply bind_inv in Hrun as (ns & h1 & Hns & Hret). unfold ret in Hret. simplify_eq.
    eapply coherent_extends; [by eapply Server_Namespace_extends|done].
  - destruct (h_nss h !! ns) as [n|] eqn:Hn.
    2:{ unfold Namespace_On, bind, deref in Hrun. by rewrite Hn in Hrun. }
    rewrite (Namespace_On_Some _ _ _ event handler Hn) in Hrun. simplify_eq.
    eapply coherent_extends; [|done]. by eapply extends_update_namespace.
  - apply bind_inv in Hrun as (r & h1 & Hr & Hret). unfold ret in Hret. simplify_eq.
    by destruct (Namespace_Room_coherent _ _ _ _ _ Hr Hco) as [? _].
  - by eapply ServeWebSocket_coherent.
  - by eapply Client_Join_coherent.
  - by eapply Client_Leave_coherent.
  - unfold Namespace_Emit in Hrun. apply bind_inv in Hrun as (n & h1 & Hn & Hrun).
    apply deref_inv in Hn as [_ ->].
    eapply coherent_extends; [by eapply emit_loop_extends|done].
  - unfold Room_Emit in Hrun. apply bind_inv in Hrun as (rm & h1 & Hrm & Hrun).
    apply deref_inv in Hrm as [_ ->].
    apply bind_inv in Hrun as (n & h1 & Hn & Hrun).
    apply deref_inv in Hn as [_ ->].
    eapply coherent_extends; [by eapply emit_loop_extends|done].
  - unfold Client_Emit in Hrun. apply bind_inv in Hrun as (cl & h1 & Hcl & Hrun).
    apply deref_inv in Hcl as [_ ->].
    apply bind_inv in Hrun as (n & h1 & Hn & Hrun).
    apply deref_inv in Hn as [_ ->].
    eapply coherent_extends; [by eapply select_send_extends|done].
  - destruct (h_nss h !! ns) as [n|] eqn:Hn.
    2:{ unfold Namespace_addClient, bind, deref in Hrun. by rewrite Hn in Hrun. }
    rewrite (Namespace_addClient_Some _ _ _ c Hn) in Hrun. simplify_eq.
    eapply coherent_extends; [|done].
    eapply extends_update_namespace; simpl; [done|done|].
    rewrite dom_insert_L. set_solver.
  - done.
  - done.
  - by eapply Room_removeClient_coherent.
  - by eapply readPump_deferred_coherent.
Qed.

Lemma reachable_coherent h : reachable connected_op h → coherent h.
Proof.
  induction 1 as [|h o h' _ IH Hperm Hrun].
  - apply coherent_empty.
  - by eapply run_op_coherent.
Qed.


Lemma reachable_run permitted os : ∀ h h',
  reachable permitted h →
  (∀ h0 o, permitted h0 o) →
  run_ops os h = Some (tt, h') →
  reachable permitted h'.
Proof.
  induction os as [|o os IH]; intros h h' Hreach Hall Hrun; simpl in Hrun.
  - unfold run_ops in Hrun. simpl in Hrun. unfold ret in Hrun. by simplify_eq.
  - unfold run_ops in Hrun. simpl in Hrun.
    apply bind_inv in Hrun as ([] & h1 & Ho & Hrun).
    eapply IH; [|done|exact Hrun]. by eapply reach_step.
Qed.

Lemma room_subset_refuted h r rm n c :
  h_rooms h !! r = Some rm →
  h_nss h !! r_namespace rm = Some n →
  is_Some (r_clients rm !! c) →
  ns_clients n !! c = None →
  ¬ room_subset h.
Proof.
  intros Hrm Hn Hin Hout Hsub.
  destruct (Hsub r rm Hrm) as (n' & Hn' & Hdom).
  assert (n' = n) as -> by congruence.
  apply elem_of_dom in Hin. apply Hdom in Hin.
  by apply not_elem_of_dom in Hout.
Qed.


(** ** The wire format *)

Lemma valid_utf8_fixed s : valid_utf8 s = true → to_valid_utf8 s = s.
Proof. unfold valid_utf8. by intros ?%String.eqb_eq. Qed.

Lemma fmap_fixed {A} (f : A → A) (l : list A) :
  Forall (λ x, f x = x) l → f <$> l = l.
Proof. induction 1 as [|x l Hx _ IH]; [done|]. by rewrite fmap_cons, Hx, IH. Qed.

Lemma forallb_elem {A} (f : A → bool) (l : list A) x :
  forallb f l = true → x ∈ l → f x = true.
Proof.
  intros Hall Hx. rewrite forallb_forall in Hall. apply Hall.
  by apply list_elem_of_In.
Qed.

Lemma all_true_fold (g : string → bool) (m : gmap string bool) :
  map_fold (λ k b acc, g k && b && acc) true m = true →
  ∀ k b, m !! k = Some b → g k = true ∧ b = true.
Proof.
  apply (map_fold_weak_ind
           (λ r m, r = true → ∀ k b, m !! k = Some b → g k = true ∧ b = true)).
  - intros _ k b Hk. by rewrite lookup_empty in Hk.
  - intros i x m' r Hi IH Hr k b Hk.
    apply andb_true_iff in Hr as [Hr1 Hr2]. apply andb_true_iff in Hr1 as [Hg Hx].
    destruct (decide (i = k)) as [->|Hne].
    + rewrite lookup_insert_eq in Hk. by simplify_eq.
    + rewrite lookup_insert_ne in Hk by done. by apply IH.
Qed.

Lemma fold_all_true (m : gmap string bool) :
  (∀ k b, m !! k = Some b → b = true) →
  map_fold (λ _ b acc, b && acc) true m = true.
Proof.
  apply (map_fold_weak_ind
           (λ r m, (∀ k b, m !! k = Some b → b = true) → r = true)).
  - done.
  - intros i x m' r Hi IH Hall. apply andb_true_iff. split.
    + apply (Hall i). apply lookup_insert_eq.
    + apply IH. intros k b Hk. apply (Hall k). rewrite lookup_insert_ne; [done|].
      intros ->. congruence.
Qed.

Lemma value_size_slice l x : x ∈ l → value_size x < value_size (VSlice l).
Proof.
  simpl. induction 1 as [x l|x y l _ IH]; simpl; lia.
Qed.

Lemma value_size_map (m : gmap string value) k v :
  m !! k = Some v → value_size v < value_size (VMap m).
Proof.
  simpl. revert k v.
  apply (map_fold_weak_ind
           (λ r m, ∀ k v, m !! k = Some v → value_size v < S r)).
  - intros k v Hk. by rewrite lookup_empty in Hk.
  - intros i x m' r Hi IH k v Hk. destruct (decide (i = k)) as [->|Hne].
    + rewrite lookup_insert_eq in Hk. simplify_eq. lia.
    + rewrite lookup_insert_ne in Hk by done. specialize (IH k v Hk). lia.
Qed.

Lemma generic_map (m : gmap string value) k v :
  generic (VMap m) = true → m !! k = Some v →
  valid_utf8 k = true ∧ generic v = true.
Proof.
  simpl. intros Hall Hk.
  apply (all_true_fold valid_utf8 _ Hall k (generic v)).
  by rewrite lookup_fmap, Hk.
Qed.

Lemma value_size_ind (P : value → Prop) :
  (∀ v, (∀ w, value_size w < value_size v → P w) → P v) → ∀ v, P v.
Proof.
  intros Hstep v. remember (value_size v) as sz eqn:Hsz. revert v Hsz.
  induction sz as [sz IH] using lt_wf_ind. intros v ->.
  apply Hstep. intros w Hw. by eapply IH.
Qed.

Lemma generic_marshalable v : generic v = true → marshalable v = true.
Proof.
  induction v as [v IH] using value_size_ind. destruct v; simpl; try done.
  - intros Hall. apply forallb_forall. intros x Hx%list_elem_of_In.
    apply IH; [by apply value_size_slice|]. by eapply forallb_elem.
  - intros Hall. apply fold_all_true. intros k b Hk.
    rewrite lookup_fmap in Hk. destruct (m !! k) as [v|] eqn:Hv; [|done].
    simpl in Hk. simplify_eq. apply IH; [by eapply value_size_map|].
    by eapply (generic_map m k v).
Qed.

Lemma map_of_members_list_to_map {A} (l : list (string * A)) :
  map_of_members l = list_to_map (reverse l).
Proof.
  unfold map_of_members. induction l as [|x l IH] using rev_ind; [done|].
  by rewrite foldl_app, reverse_app, IH.
Qed.

(** Members with distinct keys decode to the map that has them. *)
Lemma map_of_members_spec {A} (l : list (string * A)) (m : gmap string A) :
  NoDup l.*1 → (∀ k v, (k, v) ∈ l ↔ m !! k = Some v) → map_of_members l = m.
Proof.
  intros Hnd Hl. rewrite map_of_members_list_to_map. apply map_eq. intros k.
  assert (NoDup (reverse l).*1) as Hnd'.
  { by rewrite fmap_reverse, reverse_Permutation. }
  destruct (m !! k) as [v|] eqn:Hk.
  - apply elem_of_list_to_map; [done|]. by apply elem_of_reverse, Hl.
  - apply not_elem_of_list_to_map_1. intros Hin.
    apply list_elem_of_fmap in Hin as [[k' v] [-> Hin]].
    apply elem_of_reverse, Hl in Hin. simpl in *. congruence.
Qed.

Lemma sorted_members_spec {A} (m : gmap string A) :
  NoDup (sorted_members m).*1 ∧
  ∀ k v, (k, v) ∈ sorted_members m ↔ m !! k = Some v.
Proof.
  pose proof (@merge_sort_Permutation _ key_le
                (λ x y, decide (String.leb x.1 y.1 = true)) (map_to_list m)) as Hp.
  split.
  - unfold sorted_members. rewrite Hp. apply NoDup_fst_map_to_list.
  - intros k v. unfold sorted_members. rewrite Hp. apply elem_of_map_to_list.
Qed.

(** Decoding members one by one, when each decodes to a value of [m]
    under its own key. *)
Lemma decode_members (g : string * json → option (string * value))
    (m : gmap string value) (l : list (string * json)) (l' : list (string * value)) :
  Forall (λ x, ∃ v, m !! x.1 = Some v ∧ g x = Some (x.1, v)) l →
  mapM g l = Some l' →
  l'.*1 = l.*1 ∧ ∀ k v, (k, v) ∈ l' → m !! k = Some v.
Proof.
  intros Hall Hmap. apply mapM_Some_1 in Hmap.
  induction Hmap as [|x y l l' Hxy _ IH]; [split; [done|]|].
  { intros k v Hin. by apply not_elem_of_nil in Hin. }
  apply Forall_cons in Hall as [(v & Hv & Hg) Hall].
  destruct (IH Hall) as [Hkeys Hvals].
  assert (y = (x.1, v)) as -> by congruence.
  split; [by rewrite !fmap_cons, Hkeys|].
  intros k w Hin. apply elem_of_cons in Hin as [Heq|Hin]; [|by apply Hvals].
  by simplify_eq.
Qed.

Lemma generic_round_trip v :
  generic v = true → unmarshal_value (marshal_value v) = Some v.
Proof.
  induction v as [v IH] using value_size_ind. destruct v; simpl; try done.
  - by intros ->.
  - intros Hs. by rewrite (valid_utf8_fixed s Hs), (valid_utf8_fixed s Hs).
  - intros Hall.
    assert (mapM unmarshal_value (marshal_value <$> l) = Some l) as ->; [|done].
    apply mapM_fmap_Forall_Some, Forall_forall.
    intros x Hx. apply IH; [by apply value_size_slice|]. by eapply forallb_elem.
  - intros Hall.
    destruct (sorted_members_spec (marshal_value <$> m)) as [Hnd Hin].
    set (members := sorted_members (marshal_value <$> m)) in *.
    set (g := λ '(key, j'), v ← unmarshal_value j'; Some (to_valid_utf8 key, v)).
    assert (Forall (λ x, ∃ v, m !! x.1 = Some v ∧ g x = Some (x.1, v)) members)
      as Hdec.
    { apply Forall_forall. intros [k j] Hkj%Hin. rewrite lookup_fmap in Hkj.
      destruct (m !! k) as [v|] eqn:Hk; [|done]. simpl in Hkj. simplify_eq.
      destruct (generic_map m k v Hall Hk) as [Hvalid Hgen].
      exists v. split; [done|]. simpl.
      rewrite IH; [|by eapply value_size_map|done]. simpl.
      by rewrite (valid_utf8_fixed k Hvalid). }
    assert (prod_map to_valid_utf8 id <$> members = members) as ->.
    { apply fmap_fixed. eapply Forall_impl; [exact Hdec|].
      intros [k j] (v & Hk & _). simpl in *. unfold prod_map. simpl.
      destruct (generic_map m k v Hall Hk) as [Hvalid _].
      by rewrite (valid_utf8_fixed k Hvalid). }
    destruct (mapM g members) as [decoded|] eqn:Hmap.
    2:{ exfalso. apply eq_None_not_Some in Hmap. apply Hmap, mapM_is_Some.
        eapply Forall_impl; [exact Hdec|]. intros x (v & _ & Hg).
        unfold compose. rewrite Hg. by eexists. }
    destruct (decode_members g m members decoded Hdec Hmap) as [Hkeys Hvals].
    simpl. do 2 f_equal. apply map_of_members_spec.
    + by rewrite Hkeys.
    + intros k v. split; [apply Hvals|]. intros Hk.
      assert (k ∈ decoded.*1) as Hkin.
      { rewrite Hkeys. apply list_elem_of_fmap. exists (k, marshal_value v).
        split; [done|]. apply Hin. by rewrite lookup_fmap, Hk. }
      apply list_elem_of_fmap in Hkin as [[k' v'] [-> Hkin]].
      pose proof (Hvals _ _ Hkin) as Hv'. simpl in *. by simplify_eq.
Qed.

Lemma decode_member_event msg j :
  decode_member msg ("event", j) =
    (s ← decode_string j (msg_Event msg);
     Some (mkMessage s (msg_Data msg) (msg_Namespace msg) (msg_Room msg))).
Proof. reflexivity. Qed.

Lemma decode_member_data msg j :
  decode_member msg ("data", j) =
    (v ← unmarshal_value j;
     Some (mkMessage (msg_Event msg) v (msg_Namespace msg) (msg_Room msg))).
Proof. reflexivity. Qed.

Lemma decode_member_namespace msg j :
  decode_member msg ("namespace", j) =
    (s ← decode_string j (msg_Namespace msg);
     Some (mkMessage (msg_Event msg) (msg_Data msg) s (msg_Room msg))).
Proof. reflexivity. Qed.

Lemma decode_member_room msg j :
  decode_member msg ("room", j) =
    (s ← decode_string j (msg_Room msg);
     Some (mkMessage (msg_Event msg) (msg_Data msg) (msg_Namespace msg) s)).
Proof. reflexivity. Qed.

Lemma max_depth_bound {A} (g : A → N) (l : list A) (k : N) :
  (∀ x, x ∈ l → (g x ≤ k)%N) →
  (foldr (λ x acc, N.max (g x) acc) 0 l ≤ k)%N.
Proof.
  induction l as [|x l IH]; intros Hall; simpl; [lia|].
  apply N.max_lub; [apply Hall; left|]. apply IH. intros y Hy. apply Hall. by right.
Qed.

Lemma max_depth_elem {A} (g : A → N) (l : list A) (x : A) :
  x ∈ l → (g x ≤ foldr (λ x acc, N.max (g x) acc) 0 l)%N.
Proof. induction 1 as [x l|x y l _ IH]; simpl; lia. Qed.

Lemma max_depth_lookup {A} (g : A → N) (m : gmap string A) i x :
  m !! i = Some x → (g x ≤ map_fold (λ _ x acc, N.max (g x) acc) 0 m)%N.
Proof.
  revert i x.
  apply (map_fold_weak_ind (λ r m, ∀ i x, m !! i = Some x → (g x ≤ r)%N)).
  - intros i x Hi. by rewrite lookup_empty in Hi.
  - intros j y m' r Hj IH i x Hi. destruct (decide (j = i)) as [->|Hne].
    + rewrite lookup_insert_eq in Hi. simplify_eq. lia.
    + rewrite lookup_insert_ne in Hi by done. specialize (IH i x Hi). lia.
Qed.

(** The encoder nests arrays and objects as the payload nests slices and
    maps. *)
Lemma marshal_value_depth v : (json_depth (marshal_value v) ≤ value_depth v)%N.
Proof.
  induction v as [v IH] using value_size_ind.
  destruct v; cbn [marshal_value json_depth value_depth]; try lia.
  - apply -> N.succ_le_mono.
    apply (max_depth_bound json_depth). intros j Hj.
    apply list_elem_of_fmap in Hj as (x & -> & Hx).
    etransitivity; [apply IH; by apply value_size_slice|].
    by apply (max_depth_elem value_depth).
  - apply -> N.succ_le_mono.
    apply (max_depth_bound (λ member : string * json, json_depth member.2)).
    intros [k j] Hkj.
    apply list_elem_of_fmap in Hkj as ([k' j'] & Heq & Hin).
    unfold prod_map in Heq. simpl in Heq. simplify_eq.
    apply sorted_members_spec in Hin. rewrite lookup_fmap in Hin.
    destruct (m !! k') as [v|] eqn:Hk; [|done]. simpl in Hin. simplify_eq. simpl.
    etransitivity; [apply IH; by eapply value_size_map|].
    by apply (max_depth_lookup value_depth m k').
Qed.

Lemma marshal_Message_depth m :
  (json_depth (marshal_Message m) ≤ N.succ (value_depth (msg_Data m)))%N.
Proof.
  pose proof (marshal_value_depth (msg_Data m)).
  unfold marshal_Message, omitempty.
  destruct (String.eqb (msg_Namespace m) ""), (String.eqb (msg_Room m) "");
    cbn [json_depth foldr app snd]; lia.
Qed.

Lemma Unmarshal_shallow j :
  (json_depth j ≤ maxNestingDepth)%N → Unmarshal j = decode_Message j.
Proof. unfold Unmarshal. intros Hd. by destruct (N.ltb_spec maxNestingDepth (json_depth j)); [lia|]. Qed.

Lemma Unmarshal_deep j :
  (maxNestingDepth < json_depth j)%N → Unmarshal j = None.
Proof. unfold Unmarshal. intros Hd. by destruct (N.ltb_spec maxNestingDepth (json_depth j)); [|lia]. Qed.

(** C9, as amended.  For a Message whose event, namespace and room are
    valid UTF-8 and whose data is [nil], a [bool], a finite [float64], a
    valid UTF-8 [string], or a [[]interface{}] that is not nil or a
    [map[string]interface{}] that is not nil, with valid UTF-8 keys, of
    such values, with slices and maps nested less than 10000 deep,
    marshalling succeeds and unmarshalling the result gives back the
    Message, equal in event, data, namespace and room. *)
Theorem round_trip_generic (m : Message) :
  valid_utf8 (msg_Event m) = true →
  valid_utf8 (msg_Namespace m) = true →
  valid_utf8 (msg_Room m) = true →
  generic (msg_Data m) = true →
  (value_depth (msg_Data m) < maxNestingDepth)%N →
  round_trip m = Some m.
Proof.
  intros He Hn Hr Hd Hdepth.
  unfold round_trip, Marshal. rewrite (generic_marshalable _ Hd).
  change (Some (marshal_Message m) ≫= Unmarshal) with (Unmarshal (marshal_Message m)).
  rewrite Unmarshal_shallow by (pose proof (marshal_Message_depth m); lia).
  clear Hdepth. destruct m as [event data namespace room]. simpl in *.
  unfold marshal_Message, omitempty. simpl.
  destruct (String.eqb namespace "") eqn:En; destruct (String.eqb room "") eqn:Er;
    simpl; rewrite ?decode_member_event, ?decode_member_data; simpl;
    rewrite (generic_round_trip _ Hd); simpl;
    rewrite ?decode_member_namespace; simpl;
    rewrite ?decode_member_room; simpl;
    rewrite ?valid_utf8_fixed by (by rewrite ?valid_utf8_fixed);
    try apply String.eqb_eq in En; try apply String.eqb_eq in Er; by subst.
Qed.

(** C9 as stated fails: the integer payload 42 is written as the number
    42 and read back as the [float64] 42, which is not the [int] that was
    sent. *)
Lemma round_trip_int_payload :
  round_trip int_payload =
    Some {| msg_Event := "x"; msg_Data := VFloat (float64_of_int 42);
            msg_Namespace := "/"; msg_Room := "r1" |} ∧
  msg_Data <$> round_trip int_payload ≠ Some (msg_Data int_payload).
Proof.
  assert (round_trip int_payload =
            Some {| msg_Event := "x"; msg_Data := VFloat (float64_of_int 42);
                    msg_Namespace := "/"; msg_Room := "r1" |}) as Hrt
    by by vm_compute.
  split; [done|]. rewrite Hrt. simpl. discriminate.
Qed.

(** ** Concrete runs *)

Lemma all_liveb_sound h targets : all_liveb h targets = true → all_live h targets.
Proof.
  unfold all_liveb, all_live. intros Hall c Hc.
  apply elem_of_keys in Hc.
  by apply (forallb_elem _ _ _ Hall), bool_decide_eq_true in Hc.
Qed.

Lemma rooms_liveb_sound h n :
  rooms_liveb h n = true →
  ∀ name room, ns_rooms n !! name = Some room → is_Some (h_rooms h !! room).
Proof.
  unfold rooms_liveb. intros Hall name room Hreg.
  apply elem_of_map_to_list in Hreg.
  by apply (forallb_elem _ _ _ Hall), bool_decide_eq_true in Hreg.
Qed.

Lemma connectedb_sound h c : connectedb h c = true → connected h c.
Proof.
  unfold connectedb, connected. intros Hb.
  destruct (h_clients h !! c) as [cl|]; [|done].
  destruct (h_nss h !! c_namespace cl) as [n|] eqn:Hn; [|done].
  apply bool_decide_eq_true in Hb. by exists cl, n.
Qed.

Lemma connected_opb_sound h o : connected_opb h o = true → connected_op h o.
Proof. destruct o; simpl; try done. apply connectedb_sound. Qed.

Lemma run_connected_reachable os : ∀ h h',
  reachable connected_op h → run_connected os h = Some h' →
  reachable connected_op h'.
Proof.
  induction os as [|o os IH]; intros h h' Hreach Hrun; simpl in Hrun.
  - by simplify_eq.
  - destruct (connected_opb h o) eqn:Hperm; [|done].
    destruct (run_op o h) as [[[] h1]|] eqn:Ho; [|done].
    eapply IH; [|exact Hrun].
    eapply reach_step; [done|by apply connected_opb_sound|done].
Qed.

(** Two connections accepted on a new server. *)
Lemma generateID_repeats_witness :
  ID <$> h_clients (after accept_twice) !! fresh (dom (h_clients (after new_server)))
    = Some generateID ∧
  ID <$> h_clients (after accept_twice) !! fresh (dom (h_clients (after accept_once)))
    = Some generateID.
Proof.
  edestruct generateID_repeats with (h := after new_server) (h1 := after accept_once)
    (h2 := after accept_twice) (s := 1%positive) (name1 := "/") (name2 := "/")
    as (_ & _ & _ & _ & H1 & H2).
  - vm_compute. reflexivity.
  - vm_compute. reflexivity.
  - split; [exact H1|exact H2].
Defined.

(** An emit to room "r1" of [two_clients]. *)
Lemma Emit_scoping_witness :
  ∃ h', Room_Emit 1 "x" (VInt 42) (after two_clients) = Some (tt, h') ∧
        only_clients_changed (after two_clients) h'.
Proof.
  destruct (Emit_scoping (after two_clients) "x" (VInt 42)) as (Hroom & _).
  edestruct Hroom with (r := 1%positive) as (h' & Hrun & Hframe & _).
  - vm_compute. reflexivity.
  - vm_compute. reflexivity.
  - apply all_liveb_sound. vm_compute. reflexivity.
  - exists h'. split; [exact Hrun|exact Hframe].
Defined.

(** A namespace emit while the second client's queue is full. *)
Lemma drop_on_full_witness :
  ∃ h', Namespace_Emit 1 "x" VNil slow_consumer = Some (tt, h') ∧
        h_clients h' !! 2%positive = h_clients slow_consumer !! 2%positive.
Proof.
  destruct (drop_on_full slow_consumer "x" VNil) as (_ & _ & Hns).
  edestruct Hns with (ns := 1%positive) as (h' & Hrun & Hqueues).
  - vm_compute. reflexivity.
  - apply all_liveb_sound. vm_compute. reflexivity.
  - exists h'. split; [exact Hrun|].
    edestruct Hqueues with (c := 2%positive) as (cl' & Hcl' & Hfull & _).
    + apply elem_of_dom. vm_compute. eauto.
    + vm_compute. reflexivity.
    + rewrite Hcl'. rewrite Hfull; [vm_compute; reflexivity|].
      unfold full. simpl. lia.
Defined.

(** "ping" dispatched after its handler was registered. *)
Lemma dispatch_routing_witness :
  ∃ h1, register_all 1 [("ping", 7%positive)] (after accept_once) = Some (tt, h1) ∧
        Namespace_handleEvent pong 1 1 ping h1 = Client_Emit 1 "pong" VNil h1.
Proof.
  edestruct dispatch_routing with (call := pong) (h := after accept_once)
    (ns := 1%positive) (client := 1%positive) (msg := ping)
    (regs := [("ping", 7%positive)]) as (_ & h1 & Hreg & Hcall).
  - vm_compute. reflexivity.
  - exists h1. split; [exact Hreg|exact Hcall].
Defined.

(** The first client of [two_clients] receives a frame that does not
    decode. *)
Lemma teardown_cascade_witness :
  ∃ h2 cl2, Client_readPump pong 1 [bad_frame] (after two_clients) = Some (tt, h2) ∧
            h_clients h2 !! 1%positive = Some cl2 ∧ c_rooms cl2 = ∅.
Proof.
  edestruct teardown_cascade with (call := pong) (c := 1%positive)
    (frames := [bad_frame]) (h := after two_clients) (h1 := after two_clients)
    as (h2 & cl2 & n2 & Hrun & _ & _ & Hcl & Hrooms & _).
  - vm_compute. reflexivity.
  - vm_compute. reflexivity.
  - vm_compute. reflexivity.
  - vm_compute. reflexivity.
  - intros name room _. apply rooms_liveb_sound. vm_compute. reflexivity.
  - exists h2, cl2. split; [exact Hrun|]. split; [exact Hcl|exact Hrooms].
Defined.

(** The first namespace of a new server, which has none, and a new room
    of the namespace of [two_clients]: one object more each, and the same
    pointer at the second call. *)
Lemma get_or_create_unique_witness :
  (∃ h1, Server_Namespace 1 "/" (after new_server) = Some (1%positive, h1) ∧
         Server_Namespace 1 "/" h1 = Some (1%positive, h1) ∧
         h_nss (after new_server) = ∅ ∧
         h_nss h1 = {[1%positive := mkNamespace "/" ∅ ∅ ∅ 1]}) ∧
  (∃ h1, Namespace_Room 1 "r2" (after two_clients) = Some (2%positive, h1) ∧
         Namespace_Room 1 "r2" h1 = Some (2%positive, h1) ∧
         h_rooms h1 = <[2%positive := mkRoom "r2" ∅ 1]> (h_rooms (after two_clients))).
Proof.
  destruct get_or_create_unique as [Hns Hroom]. split.
  - edestruct (Hns (after new_server) 1%positive) with (name := "/")
      as (p & h1 & Hfirst & Hsecond & Hnew).
    { vm_compute. reflexivity. }
    assert (p = 1%positive) as ->.
    { assert (Server_Namespace 1 "/" (after new_server) =
              Some (1%positive, then_run (Server_Namespace 1 "/") (after new_server)))
        as Hrun by (vm_compute; reflexivity).
      rewrite Hrun in Hfirst. by injection Hfirst as <- _. }
    exists h1. split; [exact Hfirst|]. split; [exact Hsecond|].
    split; [vm_compute; reflexivity|].
    simpl in Hnew. destruct Hnew as [_ ->]. vm_compute. reflexivity.
  - edestruct (Hroom (after two_clients) 1%positive) with (room := "r2")
      as (r & h1 & Hfirst & Hsecond & Hnew).
    { vm_compute. reflexivity. }
    assert (r = 2%positive) as ->.
    { assert (Namespace_Room 1 "r2" (after two_clients) =
              Some (2%positive, then_run (Namespace_Room 1 "r2") (after two_clients)))
        as Hrun by (vm_compute; reflexivity).
      rewrite Hrun in Hfirst. by injection Hfirst as <- _. }
    exists h1. split; [exact Hfirst|]. split; [exact Hsecond|].
    vm_compute in Hnew. destruct Hnew as [_ ->]. vm_compute. reflexivity.
Defined.

(** The second client of [two_clients], which has joined nothing. *)
Lemma Join_Leave_idempotent_witness :
  (∃ h1, Client_Join 2 "r1" (after two_clients) = Some (tt, h1) ∧
         Client_Join 2 "r1" h1 = Some (tt, h1)) ∧
  Client_Leave 2 "r1" (after two_clients) = Some (tt, after two_clients).
Proof.
  edestruct Join_Leave_idempotent with (h := after two_clients) (c := 2%positive)
    (roomName := "r1") as (Hjoin & Hleave).
  - vm_compute. reflexivity.
  - vm_compute. reflexivity.
  - intros room. apply rooms_liveb_sound. vm_compute. reflexivity.
  - split; [exact Hjoin|]. apply Hleave.
    + apply not_elem_of_dom. vm_compute. reflexivity.
    + intros room rm Hreg Hrm. vm_compute in Hreg. injection Hreg as <-.
      vm_compute in Hrm. injection Hrm as <-.
      apply not_elem_of_dom. vm_compute. reflexivity.
Defined.


(** A chat message with a slice payload. *)
Lemma round_trip_generic_witness : round_trip text_payload = Some text_payload.
Proof.
  apply round_trip_generic.
  - vm_compute. reflexivity.
  - vm_compute. reflexivity.
  - vm_compute. reflexivity.
  - vm_compute. reflexivity.
  - vm_compute. reflexivity.
Defined.

(** Leaving a room that does not exist. *)
Lemma Leave_frame_witness :
  ∃ h', Client_Leave 2 "nowhere" (after two_clients) = Some (tt, h') ∧
        h_nss h' = h_nss (after two_clients) ∧
        dom (h_rooms h') = dom (h_rooms (after two_clients)).
Proof.
  edestruct Leave_frame with (h := after two_clients) (c := 2%positive)
    (roomName := "nowhere") as (h' & Hrun & _ & _ & Hnss & _ & _ & Hdom & _).
  - vm_compute. reflexivity.
  - vm_compute. reflexivity.
  - intros room. apply rooms_liveb_sound. vm_compute. reflexivity.
  - exists h'. split; [exact Hrun|]. split; [exact Hnss|exact Hdom].
Defined.

(** ** The scenarios of the specification *)

(** A "ping" handler that emits "pong" back: the sender's queue gets
    exactly one pong. *)
Example scenario_ping_pong :
  queue_of
    (then_run (Namespace_handleEvent pong 1 1 ping)
       (after (accept_once ++ [OpOn 1 "ping" 7]))) 1
  = Some [mkMessage "pong" VNil "/" ""].
Proof. vm_compute. reflexivity. Qed.

(** Of two clients of "/" the first has joined "r1": an emit to "r1"
    reaches the first, tagged with the room, and not the second. *)
Example scenario_room_emit :
  queue_of (then_run (Room_Emit 1 "x" (VInt 42)) (after two_clients)) 1
    = Some [mkMessage "x" (VInt 42) "/" "r1"] ∧
  queue_of (then_run (Room_Emit 1 "x" (VInt 42)) (after two_clients)) 2
    = Some [].
Proof. split; vm_compute; reflexivity. Qed.

(** A namespace emit while the second client's queue is full: the first
    client gets the message, the second keeps its queue. *)
Example scenario_slow_consumer :
  queue_of (then_run (Namespace_Emit 1 "x" VNil) slow_consumer) 1
    = Some [mkMessage "x" VNil "/" ""] ∧
  queue_of (then_run (Namespace_Emit 1 "x" VNil) slow_consumer) 2
    = queue_of slow_consumer 2.
Proof. split; vm_compute; reflexivity. Qed.

(** The byte 0xFF is not UTF-8: it comes back as U+FFFD. *)
Example scenario_invalid_utf8 :
  msg_Event <$> round_trip (mkMessage (String (ascii_of_N 255) "") VNil "" "")
  = Some (replacement_char "").
Proof. vm_compute. reflexivity. Qed.

(** A NaN payload cannot be written at all. *)
Example scenario_nan_payload :
  round_trip (mkMessage "x" (VFloat S754_nan) "/" "") = None.
Proof. vm_compute. reflexivity. Qed.

(** The float 42 and the integer 42 are read back as the same [float64]. *)
Example scenario_number_literals :
  unmarshal_value (marshal_value (VInt 42)) =
  unmarshal_value (marshal_value (VFloat (float64_of_int 42))).
Proof. vm_compute. reflexivity. Qed.

(** What [ReadJSON] makes of some frames.  A number beyond the range of
    [float64] is an error where it is decoded, as payload, and is skipped
    with the member of a key that selects no field. *)
Example scenario_number_out_of_range :
  Unmarshal (JObject [("event", JString "x"); ("data", JNumber (NumInt (10 ^ 400)))])
    = None ∧
  Unmarshal (JObject [("id", JNumber (NumInt (10 ^ 400))); ("event", JString "x")])
    = Some (mkMessage "x" VNil "" "").
Proof. split; vm_compute; reflexivity. Qed.

(** A key selects its field whatever the case of its letters; of two
    members for one field the later one is kept, and [null] keeps what
    the field has. *)
Example scenario_key_case :
  Unmarshal (JObject [("EVENT", JString "ping")]) = Some ping ∧
  Unmarshal (JObject [("Event", JNumber (NumInt 5))]) = None ∧
  Unmarshal (JObject [("event", JString "a"); ("Event", JString "b");
                      ("EVENT", JNull)])
    = Some (mkMessage "b" VNil "" "").
Proof. repeat split; vm_compute; reflexivity. Qed.

(** Two keys that differ in ill-formed bytes are written as two members
    with the key U+FFFD, the one of the smaller key first; the decoder
    keeps the second. *)
Example scenario_colliding_keys :
  (λ m, match msg_Data m with VMap d => map_to_list d | _ => [] end) <$>
    round_trip
      (mkMessage "x"
         (VMap (<[String (ascii_of_N 255) "" := VString "hi"]>
                  (<[String (ascii_of_N 254) "" := VString "lo"]> ∅))) "" "")
  = Some [(replacement_char "", VString "hi")].
Proof. vm_compute. reflexivity. Qed.

(** A payload of 10000 slices, one in the other, is written and not read
    back: with the object of the message around it the text is nested
    10001 deep.  One slice less and it is read back. *)
Example scenario_nesting :
  let nested n := N.iter n (λ v, VSlice [v]) VNil in
  generic (nested 10000%N) = true ∧
  round_trip (mkMessage "x" (nested 10000%N) "" "") = None ∧
  round_trip (mkMessage "x" (nested 9999%N) "" "") = Some (mkMessage "x" (nested 9999%N) "" "").
Proof. repeat split; vm_compute; reflexivity. Qed.

(** * Further properties *)

(** ** The outbound pump *)

Lemma with_buf_same cl : with_buf (chan_buf (send cl)) cl = cl.
Proof. by destruct cl as [? ? ? ? ? []]. Qed.

Lemma with_buf_twice buf buf' cl : with_buf buf (with_buf buf' cl) = with_buf buf cl.
Proof. done. Qed.

Lemma writePump_loop_spec W c : ∀ fuel k h cl,
  h_clients h !! c = Some cl →
  fuel = length (chan_buf (send cl)) →
  ∃ written exited buf',
    writePump_loop W c k fuel h =
      Some ((written, exited), set_clients (insert c (with_buf buf' cl)) h) ∧
    (∀ i m, written !! i = Some m → W (k + i) m = true) ∧
    if exited
    then ∃ failed, chan_buf (send cl) = (written ++ failed :: buf')%list ∧
                   W (k + length written) failed = false
    else chan_buf (send cl) = written ∧ buf' = [].
Proof.
  induction fuel as [|fuel IH]; intros k h cl Hc Hfuel.
  - exists [], false, []. simpl. split; [|split].
    + unfold ret. do 2 f_equal. apply heap_eq; simpl; try done.
      symmetry. apply insert_id. rewrite Hc. f_equal.
      rewrite <- (with_buf_same cl) at 1. f_equal.
      symmetry in Hfuel. by apply nil_length_inv in Hfuel.
    + intros i m Hi. by rewrite lookup_nil in Hi.
    + split; [|done]. symmetry in Hfuel. by apply nil_length_inv in Hfuel.
  - simpl. deref_step h_clients Hc.
    destruct (chan_buf (send cl)) as [|msg rest] eqn:Hbuf; [done|].
    rewrite (bind_Some _ _ _ _ _ (assign_Some h_clients set_clients _ _ _ _ Hc)).
    destruct (W k msg) eqn:Hw.
    + destruct (IH (S k) (set_clients (insert c (with_buf rest cl)) h) (with_buf rest cl))
        as (written & exited & buf' & Hrun & Hok & Hshape).
      { simpl. apply lookup_insert_eq. }
      { simpl in *. lia. }
      exists (msg :: written), exited, buf'. split; [|split].
      * rewrite (bind_Some _ _ _ _ _ Hrun). unfold ret. simpl. do 2 f_equal.
        apply heap_eq; simpl; try done. by rewrite insert_insert_eq.
      * intros [|i] m Hi; simpl in Hi.
        -- simplify_eq. by rewrite Nat.add_0_r.
        -- replace (k + S i) with (S k + i) by lia. by apply Hok.
      * destruct exited.
        -- destruct Hshape as (failed & Hq & Hf). exists failed. simpl in *.
           split; [by rewrite Hq|]. by replace (k + S (length written)) with (S k + length written) by lia.
        -- destruct Hshape as [Hq ->]. simpl in *. by rewrite Hq.
    + exists [], true, rest. split; [done|]. split.
      * intros i m Hi. by rewrite lookup_nil in Hi.
      * exists msg. simpl. split; [done|]. by rewrite Nat.add_0_r.
Qed.

Lemma Client_writePump_spec W c h cl cn :
  h_clients h !! c = Some cl →
  h_conns h !! c_conn cl = Some cn →
  ∃ (written : list Message) (exited : bool) (buf' : list Message),
    Client_writePump W c h =
      Some ((written, exited),
            set_conns (λ conns, if exited then <[c_conn cl := mkConn true]> conns
                                else conns)
              (set_clients (insert c (with_buf buf' cl)) h)) ∧
    (∀ i m, written !! i = Some m → W i m = true) ∧
    if exited
    then ∃ failed, chan_buf (send cl) = (written ++ failed :: buf')%list ∧
                   W (length written) failed = false
    else chan_buf (send cl) = written ∧ buf' = [].
Proof.
  intros Hc Hcn. unfold Client_writePump. deref_step h_clients Hc.
  destruct (writePump_loop_spec W c _ 0 h cl Hc eq_refl)
    as (written & exited & buf' & Hrun & Hok & Hshape).
  exists written, exited, buf'. split; [|split; [exact Hok|exact Hshape]].
  rewrite (bind_Some _ _ _ _ _ Hrun). simpl. destruct exited.
  - unfold Conn_Close. erewrite bind_Some; [done|]. by eapply assign_Some.
  - done.
Qed.

(** X1.  Run on a live client with a live connection, [writePump] hands
    the queued messages to [WriteJSON] in queue order.  If every write
    succeeds it writes the whole queue, leaves it empty and leaves the
    connection as it was (the pump waits).  Otherwise it stops at the first
    message whose write fails: the messages before it were written, the
    failing message has been taken off the queue, the messages after it
    stay queued, and the connection is closed. *)
Theorem writePump_fifo (WriteJSON : nat → Message → bool) (c : loc) (h : Heap)
    (cl : Client) (cn : Conn) :
  h_clients h !! c = Some cl →
  h_conns h !! c_conn cl = Some cn →
  ∃ written exited h' cl',
    Client_writePump WriteJSON c h = Some ((written, exited), h') ∧
    h_clients h' !! c = Some cl' ∧
    (∀ i m, written !! i = Some m → WriteJSON i m = true) ∧
    if exited
    then (∃ failed,
            chan_buf (send cl) = (written ++ failed :: chan_buf (send cl'))%list ∧
            WriteJSON (length written) failed = false) ∧
         h_conns h' !! c_conn cl = Some (mkConn true)
    else chan_buf (send cl) = written ∧ chan_buf (send cl') = [] ∧
         h_conns h' = h_conns h.
Proof.
  intros Hc Hcn.
  destruct (Client_writePump_spec WriteJSON c h cl cn Hc Hcn)
    as (written & exited & buf' & Hrun & Hok & Hshape).
  eexists written, exited, _, (with_buf buf' cl).
  split; [exact Hrun|]. split; [simpl; apply lookup_insert_eq|].
  split; [exact Hok|]. destruct exited; simpl.
  - split; [exact Hshape|]. apply lookup_insert_eq.
  - destruct Hshape as [Hq ->]. done.
Qed.

(** X2.  [writePump] touches nothing but the queue of its client and, when
    it is left by a failed write, the closed flag of the client's
    connection: servers, namespaces (client sets included) and rooms are
    unchanged, every other client is unchanged, and the client keeps its
    ID, namespace, room mirror and queue capacity.  A client whose
    outbound pump has exited is still registered. *)
Theorem writePump_frame (WriteJSON : nat → Message → bool) (c : loc) (h : Heap)
    (cl : Client) (cn : Conn) :
  h_clients h !! c = Some cl →
  h_conns h !! c_conn cl = Some cn →
  ∃ r h' buf',
    Client_writePump WriteJSON c h = Some (r, h') ∧
    h_servers h' = h_servers h ∧ h_nss h' = h_nss h ∧ h_rooms h' = h_rooms h ∧
    h_clients h' = <[c := with_buf buf' cl]> (h_clients h) ∧
    (∀ conn, conn ≠ c_conn cl → h_conns h' !! conn = h_conns h !! conn).
Proof.
  intros Hc Hcn.
  destruct (Client_writePump_spec WriteJSON c h cl cn Hc Hcn)
    as (written & exited & buf' & Hrun & _ & _).
  exists (written, exited). eexists. exists buf'. split; [exact Hrun|]. simpl.
  repeat split. intros conn Hne. destruct exited; [|done].
  by rewrite lookup_insert_ne.
Qed.

(** A client with three queued messages on a transport whose second write
    fails. *)
Lemma writePump_fifo_witness :
  ∃ written exited h' cl',
    Client_writePump (fails_from 1) 2 slow_queue = Some ((written, exited), h') ∧
    h_clients h' !! 2%positive = Some cl'.
Proof.
  edestruct writePump_fifo with (WriteJSON := fails_from 1) (c := 2%positive)
    (h := slow_queue) as (written & exited & h' & cl' & Hrun & Hcl & _).
  - vm_compute. reflexivity.
  - vm_compute. reflexivity.
  - exists written, exited, h', cl'. split; [exact Hrun|exact Hcl].
Defined.

Lemma writePump_frame_witness :
  ∃ r h', Client_writePump always_written 2 slow_queue = Some (r, h') ∧
          h_nss h' = h_nss slow_queue.
Proof.
  edestruct writePump_frame with (WriteJSON := always_written) (c := 2%positive)
    (h := slow_queue) as (r & h' & buf' & Hrun & _ & Hnss & _).
  - vm_compute. reflexivity.
  - vm_compute. reflexivity.
  - exists r, h'. split; [exact Hrun|exact Hnss].
Defined.

(** The run of the first witness, evaluated. *)
Example writePump_second_write_fails :
  (λ r, (r.1, queue_of r.2 2, h_conns r.2 !! 2%positive)) <$>
    Client_writePump (fails_from 1) 2 slow_queue
  = Some (([ping], true), Some [mkMessage "late" VNil "/" ""], Some (mkConn true)).
Proof. vm_compute. reflexivity. Qed.

(** ** Sequences of emits *)

Lemma take_push cap (buf : list Message) msg rest :
  (length buf ≤ cap)%nat →
  take cap (chan_buf (chan_try_send (mkChan cap buf) msg) ++ rest) =
  take cap (buf ++ msg :: rest).
Proof.
  intros Hle. unfold chan_try_send. simpl.
  destruct (decide _) as [Hlt|Hge]; simpl.
  - by rewrite <- app_assoc.
  - rewrite !take_app_le by lia. done.
Qed.

Lemma pushed_length msg cl :
  (length (chan_buf (send cl)) ≤ chan_cap (send cl))%nat →
  chan_cap (send (pushed msg cl)) = chan_cap (send cl) ∧
  (length (chan_buf (send (pushed msg cl))) ≤ chan_cap (send cl))%nat.
Proof.
  intros Hle. unfold pushed, chan_try_send. simpl.
  destruct (decide _); simpl; [|done]. rewrite length_app. simpl. lia.
Qed.

Lemma with_buf_pushed msg cl rest :
  (length (chan_buf (send cl)) ≤ chan_cap (send cl))%nat →
  with_buf (take (chan_cap (send (pushed msg cl)))
              (chan_buf (send (pushed msg cl)) ++ rest)) (pushed msg cl) =
  with_buf (take (chan_cap (send cl)) (chan_buf (send cl) ++ msg :: rest)) cl.
Proof.
  intros Hle. destruct cl as [? ? ? ? ? [cap buf]]. simpl in Hle.
  pose proof (take_push cap buf msg rest Hle) as Htake.
  unfold with_buf, pushed, chan_try_send in *. simpl in *.
  destruct (decide _); simpl in *; by rewrite Htake.
Qed.

Lemma emit_all_spec c n es : ∀ h cl,
  h_clients h !! c = Some cl →
  h_nss h !! c_namespace cl = Some n →
  (length (chan_buf (send cl)) ≤ chan_cap (send cl))%nat →
  emit_all c es h =
    Some (tt, set_clients
                (insert c (with_buf (take (chan_cap (send cl))
                                       (chan_buf (send cl) ++ messages_of n es)) cl))
                h).
Proof.
  induction es as [|[event data] es IH]; intros h cl Hc Hn Hle.
  - unfold emit_all, messages_of. simpl. unfold ret. do 2 f_equal.
    apply heap_eq; simpl; try done. symmetry. apply insert_id. rewrite Hc. f_equal.
    rewrite app_nil_r, take_ge by done. symmetry. apply with_buf_same.
  - unfold emit_all in *. simpl.
    rewrite (bind_Some _ _ _ _ _ (Client_Emit_spec _ _ _ _ event data Hc Hn)).
    destruct (pushed_length (namespace_message n event data) cl Hle) as [Hcap Hlen].
    rewrite (IH _ (pushed (namespace_message n event data) cl)).
    + do 2 f_equal. apply heap_eq; simpl; try done. rewrite insert_insert_eq.
      f_equal. by apply with_buf_pushed.
    + simpl. apply lookup_insert_eq.
    + done.
    + by rewrite Hcap.
Qed.

(** X3.  A sequence of [Client.Emit] calls on a live client is a bounded
    FIFO with tail drop: afterwards the queue holds, in order, what was
    queued followed by the new messages, cut at the capacity.  The emits
    that found the queue full are the ones lost, and nothing else in the
    heap changes. *)
Theorem emit_sequence_bounded (h : Heap) (c : loc) (cl : Client) (n : Namespace)
    (es : list (string * value)) :
  h_clients h !! c = Some cl →
  h_nss h !! c_namespace cl = Some n →
  (length (chan_buf (send cl)) ≤ chan_cap (send cl))%nat →
  ∃ h' cl',
    emit_all c es h = Some (tt, h') ∧
    only_clients_changed h h' ∧
    h_clients h' = <[c := cl']> (h_clients h) ∧
    cl' = with_buf (chan_buf (send cl')) cl ∧
    chan_buf (send cl') =
      take (chan_cap (send cl))
        (chan_buf (send cl) ++ ((λ e, mkMessage e.1 e.2 (ns_name n) "") <$> es))%list.
Proof.
  intros Hc Hn Hle. eexists _, _. split; [by eapply emit_all_spec|].
  by repeat split.
Qed.

(** X4.  Emit order reaches the wire: after a sequence of [Client.Emit]
    calls, a run of [writePump] on a transport that accepts every write
    writes exactly the queue of X3 (the old messages, then the new ones in
    emit order, cut at the capacity), leaves the queue empty and does not
    close the connection. *)
Theorem emit_then_write (h : Heap) (c : loc) (cl : Client) (n : Namespace)
    (cn : Conn) (es : list (string * value)) :
  h_clients h !! c = Some cl →
  h_nss h !! c_namespace cl = Some n →
  h_conns h !! c_conn cl = Some cn →
  (length (chan_buf (send cl)) ≤ chan_cap (send cl))%nat →
  ∃ h1 h2,
    emit_all c es h = Some (tt, h1) ∧
    Client_writePump always_written c h1 =
      Some ((take (chan_cap (send cl))
               (chan_buf (send cl) ++
                  ((λ e, mkMessage e.1 e.2 (ns_name n) "") <$> es))%list,
             false), h2) ∧
    queue_of h2 c = Some [] ∧
    h_conns h2 = h_conns h.
Proof.
  intros Hc Hn Hcn Hle.
  pose proof (emit_all_spec c n es h cl Hc Hn Hle) as Hemit.
  unfold messages_of, namespace_message in Hemit.
  set (queue := take (chan_cap (send cl))
                  (chan_buf (send cl) ++
                     ((λ e, mkMessage e.1 e.2 (ns_name n) "") <$> es))%list) in *.
  destruct (Client_writePump_spec always_written c
              (set_clients (insert c (with_buf queue cl)) h) (with_buf queue cl) cn)
    as (written & exited & buf' & Hrun & _ & Hshape).
  { simpl. apply lookup_insert_eq. }
  { simpl. exact Hcn. }
  destruct exited.
  { destruct Hshape as (failed & _ & Hf). done. }
  destruct Hshape as [Hq ->]. simpl in Hq. subst written.
  eexists _, _. split; [exact Hemit|]. split; [exact Hrun|].
  split; [|done]. unfold queue_of. simpl. by rewrite lookup_insert_eq.
Qed.

(** Three emits to the second client of [slow_consumer], whose queue of
    capacity 1 is full. *)
Lemma emit_sequence_bounded_witness :
  ∃ h', emit_all 2 [("a", VNil); ("b", VNil); ("c", VNil)] slow_consumer = Some (tt, h') ∧
        only_clients_changed slow_consumer h'.
Proof.
  edestruct emit_sequence_bounded with (h := slow_consumer) (c := 2%positive)
    (es := [("a", VNil); ("b", VNil); ("c", VNil)]) as (h' & cl' & Hrun & Hframe & _).
  - vm_compute. reflexivity.
  - vm_compute. reflexivity.
  - vm_compute. lia.
  - exists h'. split; [exact Hrun|exact Hframe].
Defined.

(** Two emits to the first client of [two_clients], then its pump. *)
Lemma emit_then_write_witness :
  ∃ h1 h2 written,
    emit_all 1 [("a", VNil); ("b", VInt 1)] (after two_clients) = Some (tt, h1) ∧
    Client_writePump always_written 1 h1 = Some ((written, false), h2) ∧
    queue_of h2 1 = Some [].
Proof.
  edestruct emit_then_write with (h := after two_clients) (c := 1%positive)
    (es := [("a", VNil); ("b", VInt 1)]) as (h1 & h2 & Hemit & Hwrite & Hq & _).
  - vm_compute. reflexivity.
  - vm_compute. reflexivity.
  - vm_compute. reflexivity.
  - vm_compute. lia.
  - eexists h1, h2, _. split; [exact Hemit|]. split; [exact Hwrite|exact Hq].
Defined.

(** ** Bounded queues *)

(** Take a successful run apart into its primitive steps. *)
Ltac invert_run :=
  repeat match goal with
  | H : bind _ _ _ = Some _ |- _ =>
      let H1 := fresh "Hstep" in
      apply bind_inv in H as (? & ? & H1 & H); cbv beta in H
  | H : deref _ _ _ = Some _ |- _ => apply deref_inv in H as [H ->]
  | H : assign _ _ _ _ _ = Some _ |- _ => apply assign_inv in H as [_ ->]
  | H : ret _ _ = Some _ |- _ => unfold ret in H; simplify_eq
  | H : alloc _ _ _ _ = Some _ |- _ => unfold alloc in H; simplify_eq
  | H : (match ?x with Some _ => _ | None => _ end) _ = Some _ |- _ =>
      destruct x eqn:?
  | H : (if ?b then _ else _) _ = Some _ |- _ => destruct b eqn:?
  end.

Lemma queue_ok_push ch msg : queue_ok ch → queue_ok (chan_try_send ch msg).
Proof.
  intros [Hcap Hlen]. unfold queue_ok, chan_try_send.
  destruct (decide _); simpl; [|done]. rewrite length_app. simpl. lia.
Qed.

Lemma queues_bounded_same h h' :
  h_clients h' = h_clients h → queues_bounded h → queues_bounded h'.
Proof. unfold queues_bounded. by intros ->. Qed.

Lemma queues_bounded_insert h h' c cl :
  h_clients h' = <[c := cl]> (h_clients h) → queue_ok (send cl) →
  queues_bounded h → queues_bounded h'.
Proof.
  unfold queues_bounded. intros -> Hok Hq d cd Hd.
  destruct (decide (c = d)) as [->|Hne].
  - rewrite lookup_insert_eq in Hd. by simplify_eq.
  - rewrite lookup_insert_ne in Hd by done. by eapply Hq.
Qed.

Lemma select_send_bounded c msg h u h' :
  select_send c msg h = Some (u, h') → queues_bounded h → queues_bounded h'.
Proof.
  intros Hrun Hq. destruct (select_send_live _ _ _ _ _ Hrun) as [cl Hcl].
  rewrite (select_send_Some _ _ _ msg Hcl) in Hrun. simplify_eq.
  eapply queues_bounded_insert; [done| |done]. simpl.
  apply queue_ok_push. by eapply Hq.
Qed.

Lemma emit_loop_bounded msg ks : ∀ h h',
  for_each ks (λ client, select_send client msg) h = Some (tt, h') →
  queues_bounded h → queues_bounded h'.
Proof.
  induction ks as [|k ks IH]; intros h h' Hrun Hq; simpl in Hrun.
  - unfold ret in Hrun. by simplify_eq.
  - apply bind_inv in Hrun as (u & h0 & Hk & Hrun).
    eapply IH; [exact Hrun|]. by eapply select_send_bounded.
Qed.

Lemma Client_Leave_bounded c roomName h u h' :
  Client_Leave c roomName h = Some (u, h') → queues_bounded h → queues_bounded h'.
Proof.
  unfold Client_Leave, Room_removeClient. intros Hrun Hq. invert_run;
    (eapply queues_bounded_insert; [simpl; reflexivity| |done]); simpl;
    eapply Hq; eassumption.
Qed.

Lemma leave_loop_bounded c names : ∀ h u h',
  for_each names (λ room, Client_Leave c room) h = Some (u, h') →
  queues_bounded h → queues_bounded h'.
Proof.
  induction names as [|name names IH]; intros h u h' Hrun Hq; simpl in Hrun.
  - unfold ret in Hrun. by simplify_eq.
  - apply bind_inv in Hrun as (u0 & h0 & Hk & Hrun).
    eapply IH; [exact Hrun|]. by eapply Client_Leave_bounded.
Qed.

Lemma run_op_bounded o h h' :
  run_op o h = Some (tt, h') → queues_bounded h → queues_bounded h'.
Proof.
  intros Hrun Hq. destruct o; simpl in Hrun.
  - unfold discard, NewServer in Hrun. invert_run. by eapply queues_bounded_same.
  - unfold discard, Server_Namespace in Hrun. invert_run; by eapply queues_bounded_same.
  - unfold Namespace_On in Hrun. invert_run. by eapply queues_bounded_same.
  - unfold discard, Namespace_Room in Hrun. invert_run; by eapply queues_bounded_same.
  - destruct upgrade; [|unfold Server_ServeWebSocket, ret in Hrun; by simplify_eq].
    apply ServeWebSocket_clients in Hrun as (conn & ns & Hcls).
    eapply queues_bounded_insert; [exact Hcls| |done]. simpl.
    split; [done|]. simpl. lia.
  - unfold Client_Join, Namespace_Room, Room_addClient in Hrun. invert_run;
      (eapply queues_bounded_insert; [simpl; reflexivity| |done]); simpl;
      eapply Hq; eassumption.
  - by eapply Client_Leave_bounded.
  - unfold Namespace_Emit in Hrun. invert_run. by eapply emit_loop_bounded.
  - unfold Room_Emit in Hrun. invert_run. by eapply emit_loop_bounded.
  - unfold Client_Emit in Hrun. invert_run. by eapply select_send_bounded.
  - unfold Namespace_addClient in Hrun. invert_run. by eapply queues_bounded_same.
  - unfold Namespace_removeClient in Hrun. invert_run. by eapply queues_bounded_same.
  - unfold Room_addClient in Hrun. invert_run. by eapply queues_bounded_same.
  - unfold Room_removeClient in Hrun. invert_run. by eapply queues_bounded_same.
  - unfold readPump_deferred, Namespace_removeClient, Conn_Close in Hrun.
    invert_run. eapply queues_bounded_same; [simpl; reflexivity|].
    eapply leave_loop_bounded; [eassumption|]. by eapply queues_bounded_same.
Qed.

(** X5.  The outbound queue of every client is bounded: in every state
    reached from the empty heap by any sequence of operations of the
    server (the unexported ones included), every client's queue has
    capacity 256 and holds at most 256 messages. *)
Theorem queues_stay_bounded (h : Heap) :
  reachable any_op h → queues_bounded h.
Proof.
  induction 1 as [|h o h' _ IH _ Hrun].
  - intros c cl Hc. unfold empty_heap in Hc. simpl in Hc.
    by rewrite lookup_empty in Hc.
  - by eapply run_op_bounded.
Qed.

(** A run of any operations. *)
Lemma queues_stay_bounded_witness : queues_bounded (after join_then_remove).
Proof.
  apply queues_stay_bounded.
  apply (reachable_run any_op join_then_remove empty_heap).
  - apply reach_empty.
  - intros h0 o. exact I.
  - vm_compute. reflexivity.
Defined.

(** ** Join and Leave together *)

Lemma with_rooms_insert_delete cl roomName :
  c_rooms cl !! roomName = None →
  with_rooms (delete roomName) (with_rooms (insert roomName true) cl) = cl.
Proof.
  intros Hr. destruct cl; unfold with_rooms; simpl in *.
  by rewrite delete_insert_id.
Qed.

Lemma room_with_clients_insert_delete rm c :
  r_clients rm !! c = None →
  room_with_clients (delete c) (room_with_clients (insert c true) rm) = rm.
Proof.
  intros Hr. destruct rm; unfold room_with_clients; simpl in *.
  by rewrite delete_insert_id.
Qed.

(** X6.  For a client that has not joined [r] (the name is not in its
    mirror and it is not a member of the room registered under [r]),
    [c.Join(r)] followed by [c.Leave(r)] leaves exactly the heap that the
    room lookup [c.namespace.Room(r)] leaves: everything is restored,
    except that a room that did not exist before now exists, empty and
    registered.  [Leave] never removes a room. *)
Theorem Join_then_Leave (h : Heap) (c : loc) (cl : Client) (n : Namespace)
    (roomName : string) :
  h_clients h !! c = Some cl →
  h_nss h !! c_namespace cl = Some n →
  (∀ room, ns_rooms n !! roomName = Some room →
     ∃ rm, h_rooms h !! room = Some rm ∧ r_clients rm !! c = None) →
  c_rooms cl !! roomName = None →
  ∃ h1 h2 room,
    Client_Join c roomName h = Some (tt, h1) ∧
    Client_Leave c roomName h1 = Some (tt, h2) ∧
    Namespace_Room (c_namespace cl) roomName h = Some (room, h2).
Proof.
  intros Hc Hn Hlive Hmirror.
  rewrite (Client_Join_eq _ _ _ _ roomName Hc Hn). simpl.
  destruct (ns_rooms n !! roomName) as [room|] eqn:E.
  - destruct (Hlive room eq_refl) as (rm & Hrm & Hout).
    rewrite (Room_addClient_Some _ _ rm c) by done.
    eexists _, h, room. split; [done|].
    split; [|by eapply Namespace_Room_present].
    erewrite Client_Leave_eq; [|simpl; apply lookup_insert_eq|simpl; exact Hn].
    rewrite E. erewrite Room_removeClient_Some; [|simpl; apply lookup_insert_eq].
    do 2 f_equal. apply heap_eq; simpl; try done.
    + rewrite insert_insert_eq, room_with_clients_insert_delete by done.
      by apply insert_id.
    + rewrite insert_insert_eq, with_rooms_insert_delete by done.
      by apply insert_id.
  - eexists _, _, _. split; [done|].
    split; [|by eapply Namespace_Room_absent].
    erewrite Client_Leave_eq;
      [|simpl; apply lookup_insert_eq|simpl; apply lookup_insert_eq].
    simpl. rewrite lookup_insert_eq.
    erewrite Room_removeClient_Some; [|simpl; apply lookup_insert_eq].
    do 2 f_equal. apply heap_eq; simpl; try done.
    + rewrite insert_insert_eq. f_equal. unfold room_with_clients. simpl.
      f_equal. apply delete_singleton_eq.
    + rewrite insert_insert_eq, with_rooms_insert_delete by done.
      by apply insert_id.
Qed.

(** The second client of [two_clients] joins "r1" and leaves it. *)
Lemma Join_then_Leave_witness :
  ∃ h1, Client_Join 2 "r1" (after two_clients) = Some (tt, h1) ∧
        Client_Leave 2 "r1" h1 = Some (tt, after two_clients).
Proof.
  edestruct Join_then_Leave with (h := after two_clients) (c := 2%positive)
    (roomName := "r1") as (h1 & h2 & room & Hjoin & Hleave & Hroom).
  - vm_compute. reflexivity.
  - vm_compute. reflexivity.
  - intros room Hreg. vm_compute in Hreg. injection Hreg as <-.
    eexists. split; vm_compute; reflexivity.
  - vm_compute. reflexivity.
  - exists h1. split; [exact Hjoin|].
    assert (Namespace_Room 1 "r1" (after two_clients) = Some (1%positive, after two_clients))
      as Hsame by (vm_compute; reflexivity).
    change (c_namespace _) with 1%positive in Hroom.
    rewrite Hsame in Hroom. injection Hroom as _ <-. exact Hleave.
Defined.

(** ** Joining, leaving and room broadcasts *)

Lemma join_then_emit (h : Heap) (c : loc) (cl : Client) (n : Namespace)
    (roomName event : string) (data : value) :
  h_clients h !! c = Some cl →
  h_nss h !! c_namespace cl = Some n →
  (∀ room, ns_rooms n !! roomName = Some room →
     ∃ rm, h_rooms h !! room = Some rm ∧ r_namespace rm = c_namespace cl ∧
           r_name rm = roomName ∧ all_live h (r_clients rm)) →
  ∃ h1 room h2,
    Client_Join c roomName h = Some (tt, h1) ∧
    Namespace_Room (c_namespace cl) roomName h1 = Some (room, h1) ∧
    Room_Emit room event data h1 = Some (tt, h2) ∧
    h_clients h2 !! c =
      Some (pushed (mkMessage event data (ns_name n) roomName)
              (with_rooms (insert roomName true) cl)).
Proof.
  intros Hc Hn Hreg.
  rewrite (Client_Join_eq _ _ _ _ roomName Hc Hn). simpl.
  destruct (ns_rooms n !! roomName) as [room|] eqn:E.
  - destruct (Hreg room eq_refl) as (rm & Hrm & Hns & Hname & Hlive).
    rewrite (Room_addClient_Some _ _ rm c) by done.
    set (h1 := set_rooms _ _).
    destruct (Room_Emit_spec h1 room (room_with_clients (insert c true) rm) n
                event data) as (h2 & Hemit & _ & Hcs).
    { apply lookup_insert_eq. }
    { simpl. by rewrite Hns. }
    { intros d Hd. simpl in *. rewrite dom_insert_L in Hd.
      destruct (decide (d = c)) as [->|Hne].
      - rewrite lookup_insert_eq. eauto.
      - rewrite lookup_insert_ne by done. apply Hlive. set_solver. }
    exists h1, room, h2. split; [done|].
    split; [by eapply Namespace_Room_present|]. split; [done|].
    rewrite Hcs. unfold delivered. rewrite decide_True.
    + simpl. rewrite lookup_insert_eq. simpl. unfold room_message. simpl.
      by rewrite Hname.
    + simpl. set_solver.
  - set (room := fresh (dom (h_rooms h))).
    set (h1 := set_rooms _ _).
    destruct (Room_Emit_spec h1 room (mkRoom roomName {[c := true]} (c_namespace cl))
                (ns_with_rooms (insert roomName room) n) event data)
      as (h2 & Hemit & _ & Hcs).
    { apply lookup_insert_eq. }
    { simpl. apply lookup_insert_eq. }
    { intros d Hd. simpl in *. rewrite dom_singleton_L in Hd.
      apply elem_of_singleton in Hd as ->. rewrite lookup_insert_eq. eauto. }
    exists h1, room, h2. split; [done|]. split.
    { eapply Namespace_Room_present; [apply lookup_insert_eq|].
      simpl. apply lookup_insert_eq. }
    split; [done|].
    rewrite Hcs. unfold delivered. rewrite decide_True.
    + simpl. by rewrite lookup_insert_eq.
    + simpl. set_solver.
Qed.

(** X7.  After [c.Join(r)], the room that [c.namespace.Room(r)] returns
    is registered (the lookup creates nothing), and an emit to it pushes
    one message on [c]'s queue, tagged with the name of [c]'s namespace
    and with [r].  It holds whether the room existed before or not, when
    a room already registered under [r] is a live room of that name and
    namespace whose members are live. *)
Theorem Join_then_Room_Emit (h : Heap) (c : loc) (cl : Client) (n : Namespace)
    (roomName event : string) (data : value) :
  h_clients h !! c = Some cl →
  h_nss h !! c_namespace cl = Some n →
  (∀ room, ns_rooms n !! roomName = Some room →
     ∃ rm, h_rooms h !! room = Some rm ∧ r_namespace rm = c_namespace cl ∧
           r_name rm = roomName ∧ all_live h (r_clients rm)) →
  ∃ h1 room h2,
    Client_Join c roomName h = Some (tt, h1) ∧
    Namespace_Room (c_namespace cl) roomName h1 = Some (room, h1) ∧
    Room_Emit room event data h1 = Some (tt, h2) ∧
    h_clients h2 !! c =
      Some (pushed (mkMessage event data (ns_name n) roomName)
              (with_rooms (insert roomName true) cl)).
Proof. apply join_then_emit. Qed.

(** The second client of [two_clients] joins "r1", where the first is. *)
Lemma Join_then_Room_Emit_witness :
  ∃ h1 h2,
    Client_Join 2 "r1" (after two_clients) = Some (tt, h1) ∧
    Room_Emit 1 "news" (VInt 7) h1 = Some (tt, h2) ∧
    queue_of h2 2 = Some [mkMessage "news" (VInt 7) "/" "r1"].
Proof.
  edestruct Join_then_Room_Emit with (h := after two_clients) (c := 2%positive)
    (roomName := "r1") (event := "news") (data := VInt 7)
    as (h1 & room & h2 & Hjoin & Hroom & Hemit & Hc).
  - vm_compute. reflexivity.
  - vm_compute. reflexivity.
  - intros room Hreg. vm_compute in Hreg. injection Hreg as <-.
    eexists. split; [vm_compute; reflexivity|]. split; [reflexivity|].
    split; [reflexivity|]. apply all_liveb_sound. vm_compute. reflexivity.
  - exists h1, h2. split; [exact Hjoin|].
    assert (h1 = after (two_clients ++ [OpJoin 2 "r1"])) as Hh1.
    { assert (Client_Join 2 "r1" (after two_clients) = Some (tt, after (two_clients ++ [OpJoin 2 "r1"])))
        as Hrun by (vm_compute; reflexivity).
      rewrite Hrun in Hjoin. by injection Hjoin as <-. }
    assert (room = 1%positive) as ->.
    { rewrite Hh1 in Hroom. vm_compute in Hroom. by injection Hroom as <-. }
    split; [exact Hemit|].
    unfold queue_of. rewrite Hc. reflexivity.
Defined.

(** X8.  After [c.Leave(r)], an emit to the room registered under [r] in
    [c]'s namespace pushes nothing on [c]'s queue: [c]'s record is the one
    [Leave] left, with the queue it had before. *)
Theorem Leave_then_Room_Emit (h : Heap) (c : loc) (cl : Client) (n n' : Namespace)
    (roomName event : string) (room : loc) (rm : Room) (data : value) :
  h_clients h !! c = Some cl →
  h_nss h !! c_namespace cl = Some n →
  ns_rooms n !! roomName = Some room →
  h_rooms h !! room = Some rm →
  h_nss h !! r_namespace rm = Some n' →
  all_live h (r_clients rm) →
  ∃ h1 h2,
    Client_Leave c roomName h = Some (tt, h1) ∧
    Room_Emit room event data h1 = Some (tt, h2) ∧
    h_clients h2 !! c = Some (with_rooms (delete roomName) cl) ∧
    send <$> h_clients h2 !! c = Some (send cl).
Proof.
  intros Hc Hn Hreg Hrm Hn' Hlive.
  rewrite (Client_Leave_eq _ _ _ _ roomName Hc Hn), Hreg.
  erewrite Room_removeClient_Some; [|simpl; exact Hrm].
  set (h1 := set_rooms _ _).
  destruct (Room_Emit_spec h1 room (room_with_clients (delete c) rm) n'
              event data) as (h2 & Hemit & _ & Hcs).
  { apply lookup_insert_eq. }
  { done. }
  { intros d Hd. simpl in *. rewrite dom_delete_L in Hd.
    apply elem_of_difference in Hd as [Hd Hne].
    rewrite lookup_insert_ne by set_solver. by apply Hlive. }
  exists h1, h2. split; [done|]. split; [done|].
  assert (h_clients h2 !! c = Some (with_rooms (delete roomName) cl)) as ->.
  { rewrite Hcs. unfold delivered. rewrite decide_False.
    - simpl. apply lookup_insert_eq.
    - simpl. set_solver. }
  done.
Qed.

(** The first client of [two_clients] leaves "r1", its room. *)
Lemma Leave_then_Room_Emit_witness :
  ∃ h1 h2,
    Client_Leave 1 "r1" (after two_clients) = Some (tt, h1) ∧
    Room_Emit 1 "news" (VInt 7) h1 = Some (tt, h2) ∧
    queue_of h2 1 = Some [].
Proof.
  edestruct Leave_then_Room_Emit with (h := after two_clients) (c := 1%positive)
    (roomName := "r1") (room := 1%positive) (event := "news") (data := VInt 7)
    as (h1 & h2 & Hleave & Hemit & _ & Hq).
  - vm_compute. reflexivity.
  - vm_compute. reflexivity.
  - vm_compute. reflexivity.
  - vm_compute. reflexivity.
  - vm_compute. reflexivity.
  - apply all_liveb_sound. vm_compute. reflexivity.
  - exists h1, h2. split; [exact Hleave|]. split; [exact Hemit|].
    unfold queue_of. destruct (h_clients h2 !! 1%positive) as [cl'|]; [|done].
    simpl in *. injection Hq as ->. reflexivity.
Defined.

(** ** Servers and accepted connections *)

(** X9.  Namespaces are per server: on a server that [NewServer] has just
    returned, [Namespace(name)] creates a namespace of its own (empty, with
    that name, owned by the new server) even when another server already
    has a namespace of that name, and that server still returns its own. *)
Theorem servers_independent (h : Heap) (s1 : loc) (sv1 : Server) (name : string)
    (ns1 : loc) :
  h_servers h !! s1 = Some sv1 →
  namespaces sv1 !! name = Some ns1 →
  is_Some (h_nss h !! ns1) →
  ∃ s2 h1 ns2 h2,
    NewServer h = Some (s2, h1) ∧
    Server_Namespace s2 name h1 = Some (ns2, h2) ∧
    s2 ≠ s1 ∧ ns2 ≠ ns1 ∧
    h_nss h2 !! ns2 = Some (mkNamespace name ∅ ∅ ∅ s2) ∧
    h_nss h2 !! ns1 = h_nss h !! ns1 ∧
    Server_Namespace s1 name h2 = Some (ns1, h2).
Proof.
  intros Hs Hreg [n1 Hn1].
  set (s2 := fresh (dom (h_servers h))).
  set (h1 := set_servers (insert s2 {| namespaces := ∅ |}) h).
  assert (s2 ≠ s1) as Hs2.
  { intros Heq. pose proof (fresh_unused (h_servers h)) as Hf.
    fold s2 in Hf. congruence. }
  assert (fresh (dom (h_nss h)) ≠ ns1) as Hns2.
  { intros Heq. pose proof (fresh_unused (h_nss h)) as Hf. congruence. }
  eexists s2, h1, _, _. split; [done|]. split.
  { eapply (Server_Namespace_absent h1 s2); [apply lookup_insert_eq|done]. }
  simpl. split; [done|]. split; [done|].
  split; [apply lookup_insert_eq|].
  split; [by apply lookup_insert_ne|].
  eapply Server_Namespace_present; [|exact Hreg].
  simpl. by rewrite !lookup_insert_ne.
Qed.

(** A second server beside the one of [two_clients]. *)
Lemma servers_independent_witness :
  ∃ s2 h1 ns2 h2,
    NewServer (after two_clients) = Some (s2, h1) ∧
    Server_Namespace s2 "/" h1 = Some (ns2, h2) ∧ ns2 ≠ 1%positive.
Proof.
  edestruct servers_independent with (h := after two_clients) (s1 := 1%positive)
    (name := "/") (ns1 := 1%positive)
    as (s2 & h1 & ns2 & h2 & Hnew & Hns & _ & Hne & _).
  - vm_compute. reflexivity.
  - vm_compute. reflexivity.
  - eexists. vm_compute. reflexivity.
  - exists s2, h1, ns2, h2. split; [exact Hnew|]. split; [exact Hns|exact Hne].
Defined.

(** X11.  On a live server whose namespace of that name, if it has one,
    is live, the handler of [ServeWebSocket(name)] returns.  If the
    upgrade fails nothing changes.  If it succeeds there is one new
    client: it was not live before, it has the fixed ID, a new open
    connection, no rooms and an empty queue of capacity 256; its namespace
    is the one [s.Namespace(name)] returns, it is registered there, and
    every client that was connected still is, with the record it had. *)
Theorem accept_registers (h : Heap) (s : loc) (sv : Server) (name : string) :
  h_servers h !! s = Some sv →
  (∀ ns, namespaces sv !! name = Some ns → is_Some (h_nss h !! ns)) →
  Server_ServeWebSocket s name false h = Some (tt, h) ∧
  ∃ h' ns,
    Server_ServeWebSocket s name true h = Some (tt, h') ∧
    let c := fresh (dom (h_clients h)) in
    let conn := fresh (dom (h_conns h)) in
    h_clients h !! c = None ∧
    h_conns h !! conn = None ∧
    h_clients h' = <[c := mkClient generateID conn s ns ∅ (make_chan 256)]> (h_clients h) ∧
    h_conns h' = <[conn := mkConn false]> (h_conns h) ∧
    h_rooms h' = h_rooms h ∧
    Server_Namespace s name h' = Some (ns, h') ∧
    connected h' c ∧
    ∀ d, connected h d → connected h' d ∧ h_clients h' !! d = h_clients h !! d.
Proof.
  intros Hs Hlive. split; [done|].
  unfold Server_ServeWebSocket.
  set (c := fresh (dom (h_clients h))).
  set (conn := fresh (dom (h_conns h))).
  set (h0 := set_conns (insert conn (mkConn false)) h).
  assert (h_clients h !! c = None) as Hc by apply fresh_unused.
  assert (∀ d, connected h d → d ≠ c) as Hold.
  { intros d (cl & _ & Hd & _) ->. congruence. }
  destruct (namespaces sv !! name) as [ns|] eqn:E.
  - destruct (Hlive ns eq_refl) as [n Hn].
    exists (set_nss (insert ns (ns_with_clients (insert c true) n))
              (set_clients (insert c (mkClient generateID conn s ns ∅ (make_chan 256))) h0)),
           ns.
    split.
    { erewrite bind_Some; [|reflexivity].
      erewrite bind_Some; [|by eapply (Server_Namespace_present h0)].
      erewrite bind_Some; [|reflexivity].
      by erewrite Namespace_addClient_Some. }
    simpl. split; [done|]. split; [apply fresh_unused|].
    split; [done|]. split; [done|]. split; [done|].
    split; [by eapply Server_Namespace_present|].
    split.
    { eexists _, _. simpl. rewrite lookup_insert_eq. split; [done|].
      simpl. rewrite lookup_insert_eq. split; [done|].
      simpl. set_solver. }
    intros d Hd. pose proof (Hold d Hd) as Hne.
    destruct Hd as (cl & nd & Hd & Hnd & Hin). split.
    + destruct (decide (c_namespace cl = ns)) as [Heq|Hns].
      * eexists cl, _. simpl. rewrite lookup_insert_ne by done.
        split; [done|]. rewrite Heq, lookup_insert_eq. split; [done|].
        simpl. rewrite Heq, Hn in Hnd. injection Hnd as <-. set_solver.
      * exists cl, nd. simpl. by rewrite !lookup_insert_ne.
    + simpl. by rewrite lookup_insert_ne.
  - set (ns := fresh (dom (h_nss h))).
    assert (h_nss h !! ns = None) as Hns by apply fresh_unused.
    exists (set_nss (insert ns (ns_with_clients (insert c true) (mkNamespace name ∅ ∅ ∅ s)))
              (set_clients (insert c (mkClient generateID conn s ns ∅ (make_chan 256)))
                 (set_servers (insert s {| namespaces := <[name := ns]> (namespaces sv) |})
                    (set_nss (insert ns (mkNamespace name ∅ ∅ ∅ s)) h0)))),
           ns.
    split.
    { erewrite bind_Some; [|reflexivity].
      erewrite bind_Some; [|by eapply (Server_Namespace_absent h0)].
      erewrite bind_Some; [|reflexivity].
      erewrite Namespace_addClient_Some; [done|simpl; apply lookup_insert_eq]. }
    simpl. split; [done|]. split; [apply fresh_unused|].
    split; [done|]. split; [done|]. split; [done|].
    split.
    { eapply Server_Namespace_present; simpl; apply lookup_insert_eq. }
    split.
    { eexists _, _. simpl. rewrite lookup_insert_eq. split; [done|].
      simpl. rewrite lookup_insert_eq. split; [done|].
      simpl. set_solver. }
    intros d Hd. pose proof (Hold d Hd) as Hne.
    destruct Hd as (cl & nd & Hd & Hnd & Hin). split.
    + exists cl, nd. simpl. rewrite lookup_insert_ne by done. split; [done|].
      rewrite !lookup_insert_ne by congruence. done.
    + simpl. by rewrite lookup_insert_ne.
Qed.

(** A third connection on the server of [two_clients]. *)
Lemma accept_registers_witness :
  ∃ h', Server_ServeWebSocket 1 "/" true (after two_clients) = Some (tt, h') ∧
        connected h' 3 ∧ connected h' 1.
Proof.
  edestruct accept_registers with (h := after two_clients) (s := 1%positive)
    (name := "/") as (_ & h' & ns & Hrun & _ & _ & _ & _ & _ & _ & Hnew & Hold).
  - vm_compute. reflexivity.
  - intros ns Hns. vm_compute in Hns. injection Hns as <-.
    eexists. vm_compute. reflexivity.
  - exists h'. split; [exact Hrun|]. split; [exact Hnew|].
    apply Hold. apply connectedb_sound. vm_compute. reflexivity.
Defined.

(** ** The inbound pump *)

Lemma readPump_loop_bad call c bad rest frames :
  Unmarshal bad = None → ∀ h,
  readPump_loop call c (frames ++ bad :: rest) h = readPump_loop call c frames h.
Proof.
  intros Hbad. induction frames as [|frame frames IH]; intros h; simpl.
  - by rewrite Hbad.
  - destruct (Unmarshal frame) as [msg|]; [|done].
    unfold bind. destruct (deref h_clients c h) as [[cl h1]|]; [|done].
    destruct (Namespace_handleEvent call (c_namespace cl) c msg h1) as [[u h2]|];
      [apply IH|done].
Qed.

(** X12.  A frame that does not decode ends the inbound pump for good:
    whatever the transport delivers behind it is never dispatched, and the
    pump tears the client down exactly as if the transport had closed at
    that frame. *)
Theorem readPump_stops_at_bad_frame (call : EventHandler → loc → value → M unit)
    (c : loc) (frames rest : list json) (bad : json) (h : Heap) :
  Unmarshal bad = None →
  Client_readPump call c (frames ++ bad :: rest) h = Client_readPump call c frames h.
Proof.
  intros Hbad. unfold Client_readPump, bind.
  by rewrite readPump_loop_bad.
Qed.

(** A ping behind a frame that is not an object gets no pong. *)
Lemma readPump_stops_at_bad_frame_witness :
  Client_readPump pong 1 [bad_frame; marshal_Message ping] (after two_clients) =
  Client_readPump pong 1 [] (after two_clients).
Proof.
  apply (readPump_stops_at_bad_frame pong 1%positive [] [marshal_Message ping]).
  vm_compute. reflexivity.
Defined.

(** ** Teardown and the other clients *)

(** X13.  The teardown of [c] is local to [c]: every other client keeps
    its record (its queue, its rooms), every other namespace and every
    other connection is untouched, [c]'s namespace keeps its name, rooms
    and handlers and the other members of its client set, and every room
    stays live with its name, its namespace and its other members. *)
Theorem teardown_local (h : Heap) (c : loc) (cl : Client) (n : Namespace) (cn : Conn) :
  h_clients h !! c = Some cl →
  h_nss h !! c_namespace cl = Some n →
  h_conns h !! c_conn cl = Some cn →
  (∀ name room, name ∈ dom (c_rooms cl) → ns_rooms n !! name = Some room →
                is_Some (h_rooms h !! room)) →
  ∃ h' n',
    readPump_deferred c h = Some (tt, h') ∧
    h_servers h' = h_servers h ∧
    (∀ d, d ≠ c → h_clients h' !! d = h_clients h !! d) ∧
    (∀ ns, ns ≠ c_namespace cl → h_nss h' !! ns = h_nss h !! ns) ∧
    (∀ conn, conn ≠ c_conn cl → h_conns h' !! conn = h_conns h !! conn) ∧
    h_nss h' !! c_namespace cl = Some n' ∧
    ns_name n' = ns_name n ∧ ns_rooms n' = ns_rooms n ∧ ns_events n' = ns_events n ∧
    (∀ d, d ≠ c → d ∈ dom (ns_clients n') ↔ d ∈ dom (ns_clients n)) ∧
    ∀ room rm, h_rooms h !! room = Some rm →
      ∃ rm', h_rooms h' !! room = Some rm' ∧
             r_name rm' = r_name rm ∧ r_namespace rm' = r_namespace rm ∧
             ∀ d, d ≠ c → d ∈ dom (r_clients rm') ↔ d ∈ dom (r_clients rm).
Proof.
  intros Hc Hn Hcn Hlive.
  destruct (readPump_deferred_spec c h cl n cn Hc Hn Hcn Hlive)
    as (h' & Hrun & Hs & Hnn & Hcc & Hcl & _ & Hrooms).
  exists h', (ns_with_clients (delete c) n).
  split; [done|]. split; [done|].
  split. { intros d Hd. by rewrite Hcl, lookup_insert_ne. }
  split. { intros ns Hns. by rewrite Hnn, lookup_insert_ne. }
  split. { intros conn Hconn. by rewrite Hcc, lookup_insert_ne. }
  split. { rewrite Hnn. apply lookup_insert_eq. }
  split; [done|]. split; [done|]. split; [done|].
  split. { intros d Hd. simpl. rewrite dom_delete_L. set_solver. }
  intros room rm Hrm. destruct (Hrooms room rm Hrm) as [Hyes Hno].
  destruct (classic_registered n (map_to_list (c_rooms cl)).*1 room) as [Hr|Hr].
  - exists (room_with_clients (delete c) rm). split; [by apply Hyes|].
    split; [done|]. split; [done|].
    intros d Hd. simpl. rewrite dom_delete_L. set_solver.
  - exists rm. split; [by apply Hno|]. done.
Qed.

(** The first client of [two_clients] is torn down; the second keeps its
    record and its place in the namespace. *)
Lemma teardown_local_witness :
  ∃ h' n',
    readPump_deferred 1 (after two_clients) = Some (tt, h') ∧
    h_clients h' !! 2%positive = h_clients (after two_clients) !! 2%positive ∧
    h_nss h' !! 1%positive = Some n' ∧ 2%positive ∈ dom (ns_clients n').
Proof.
  edestruct teardown_local with (h := after two_clients) (c := 1%positive)
    as (h' & n' & Hrun & _ & Hcs & _ & _ & Hn' & _ & _ & _ & Hmem & _).
  - vm_compute. reflexivity.
  - vm_compute. reflexivity.
  - vm_compute. reflexivity.
  - intros name room _. apply rooms_liveb_sound. vm_compute. reflexivity.
  - exists h', n'. split; [exact Hrun|]. split; [by apply Hcs|].
    split; [exact Hn'|]. apply Hmem; [done|].
    apply elem_of_dom. eexists. vm_compute. reflexivity.
Defined.

(** ** Broadcast and unicast *)

Lemma pushed_namespace msg cl : c_namespace (pushed msg cl) = c_namespace cl.
Proof. done. Qed.

Lemma fan_out_loop ns n event data ks : ∀ h,
  h_nss h !! ns = Some n →
  (∀ c, c ∈ ks → ∃ cl, h_clients h !! c = Some cl ∧ c_namespace cl = ns) →
  for_each ks (λ client, select_send client (namespace_message n event data)) h =
  for_each ks (λ client, Client_Emit client event data) h.
Proof.
  induction ks as [|k ks IH]; intros h Hn Hks; [done|].
  destruct (Hks k) as (cl & Hk & Hns); [left|].
  simpl.
  rewrite (bind_Some _ _ _ _ _ (select_send_Some h k cl _ Hk)).
  erewrite (bind_Some (Client_Emit k event data));
    [|apply Client_Emit_spec with (n := n); [done|by rewrite Hns]].
  apply IH; [done|].
  intros c Hc. simpl. destruct (decide (c = k)) as [->|Hne].
  - rewrite lookup_insert_eq. eexists. split; [done|]. done.
  - rewrite lookup_insert_ne by done. apply Hks. by right.
Qed.

(** X14.  A namespace broadcast is the unicast to each member: when the
    clients of the namespace's client set are live clients of that
    namespace, [ns.Emit(event, data)] leaves the heap that calling
    [c.Emit(event, data)] on each of them leaves. *)
Theorem Namespace_Emit_fans_out (h : Heap) (ns : loc) (n : Namespace)
    (event : string) (data : value) :
  h_nss h !! ns = Some n →
  (∀ c, c ∈ dom (ns_clients n) →
        ∃ cl, h_clients h !! c = Some cl ∧ c_namespace cl = ns) →
  Namespace_Emit ns event data h =
  for_range (ns_clients n) (λ client, Client_Emit client event data) h.
Proof.
  intros Hn Hmembers. unfold Namespace_Emit.
  deref_step h_nss Hn.
  apply (fan_out_loop ns); [done|].
  intros c Hc. by apply Hmembers, elem_of_keys.
Qed.

(** The two clients of [two_clients]. *)
Lemma Namespace_Emit_fans_out_witness :
  Namespace_Emit 1 "news" (VInt 7) (after two_clients) =
  (Client_Emit 1 "news" (VInt 7) ;;; Client_Emit 2 "news" (VInt 7) ;;; ret tt)
    (after two_clients).
Proof.
  etransitivity;
    [eapply Namespace_Emit_fans_out with (h := after two_clients) (ns := 1%positive)|].
  - vm_compute. reflexivity.
  - intros c Hc.
    assert (c = 1%positive ∨ c = 2%positive) as [-> | ->].
    { apply elem_of_keys in Hc. vm_compute in Hc.
      inversion_clear Hc as [|? ? ? Hc']; [by right|].
      inversion_clear Hc' as [|? ? ? Hc'']; [by left|].
      inversion Hc''. }
    + eexists. split; vm_compute; reflexivity.
    + eexists. split; vm_compute; reflexivity.
  - vm_compute. reflexivity.
Defined.

(** ** Pointer validity *)

Lemma grows_refl h : grows h h.
Proof. by repeat split. Qed.

Lemma grows_trans h1 h2 h3 : grows h1 h2 → grows h2 h3 → grows h1 h3.
Proof.
  intros (?&?&?&?&?) (?&?&?&?&?). repeat split; by etrans.
Qed.

Lemma valid_server_grows h h' sv : grows h h' → valid_server h sv → valid_server h' sv.
Proof.
  intros (_&Hn&_) Hv name ns Hreg. apply Hn. by eapply Hv.
Qed.

Lemma valid_namespace_grows h h' n :
  grows h h' → valid_namespace h n → valid_namespace h' n.
Proof.
  intros (Hs&_&Hr&Hc&_) (Hv1&Hv2&Hv3). split; [by apply Hs|].
  split; [by etrans|]. intros name r Hreg. apply Hr. by eapply Hv3.
Qed.

Lemma valid_room_grows h h' rm : grows h h' → valid_room h rm → valid_room h' rm.
Proof.
  intros (_&Hn&_&Hc&_) (Hv1&Hv2). split; [by apply Hn|by etrans].
Qed.

Lemma valid_client_grows h h' cl : grows h h' → valid_client h cl → valid_client h' cl.
Proof.
  intros (Hs&Hn&_&_&Hcn) (Hv1&Hv2&Hv3).
  split; [by apply Hs|]. split; [by apply Hn|by apply Hcn].
Qed.

Lemma dom_insert_grows `{Countable K} {V} (m : gmap K V) k v :
  dom m ⊆ dom (<[k := v]> m).
Proof. rewrite dom_insert_L. set_solver. Qed.

Lemma valid_set_servers h s sv :
  pointers_valid h → valid_server (set_servers (insert s sv) h) sv →
  pointers_valid (set_servers (insert s sv) h) ∧ grows h (set_servers (insert s sv) h).
Proof.
  intros (H1&H2&H3&H4) Hnew.
  assert (grows h (set_servers (insert s sv) h)) as Hg.
  { repeat split; simpl; try done. apply dom_insert_grows. }
  split; [|done]. split; [|split; [|split]].
  - intros s' sv' Hs'. simpl in Hs'.
    apply lookup_insert_Some in Hs' as [[-> <-]|[_ Hs']]; [done|].
    eapply valid_server_grows; [done|by eapply H1].
  - intros ns n Hn. eapply valid_namespace_grows; [done|by eapply H2].
  - intros r rm Hr. eapply valid_room_grows; [done|by eapply H3].
  - intros c cl Hc. eapply valid_client_grows; [done|by eapply H4].
Qed.

Lemma valid_set_nss h ns n :
  pointers_valid h → valid_namespace (set_nss (insert ns n) h) n →
  pointers_valid (set_nss (insert ns n) h) ∧ grows h (set_nss (insert ns n) h).
Proof.
  intros (H1&H2&H3&H4) Hnew.
  assert (grows h (set_nss (insert ns n) h)) as Hg.
  { repeat split; simpl; try done. apply dom_insert_grows. }
  split; [|done]. split; [|split; [|split]].
  - intros s sv Hs. eapply valid_server_grows; [done|by eapply H1].
  - intros ns' n' Hn'. simpl in Hn'.
    apply lookup_insert_Some in Hn' as [[-> <-]|[_ Hn']]; [done|].
    eapply valid_namespace_grows; [done|by eapply H2].
  - intros r rm Hr. eapply valid_room_grows; [done|by eapply H3].
  - intros c cl Hc. eapply valid_client_grows; [done|by eapply H4].
Qed.

Lemma valid_set_rooms h r rm :
  pointers_valid h → valid_room (set_rooms (insert r rm) h) rm →
  pointers_valid (set_rooms (insert r rm) h) ∧ grows h (set_rooms (insert r rm) h).
Proof.
  intros (H1&H2&H3&H4) Hnew.
  assert (grows h (set_rooms (insert r rm) h)) as Hg.
  { repeat split; simpl; try done. apply dom_insert_grows. }
  split; [|done]. split; [|split; [|split]].
  - intros s sv Hs. eapply valid_server_grows; [done|by eapply H1].
  - intros ns n Hn. eapply valid_namespace_grows; [done|by eapply H2].
  - intros r' rm' Hr'. simpl in Hr'.
    apply lookup_insert_Some in Hr' as [[-> <-]|[_ Hr']]; [done|].
    eapply valid_room_grows; [done|by eapply H3].
  - intros c cl Hc. eapply valid_client_grows; [done|by eapply H4].
Qed.

Lemma valid_set_clients h c cl :
  pointers_valid h → valid_client (set_clients (insert c cl) h) cl →
  pointers_valid (set_clients (insert c cl) h) ∧ grows h (set_clients (insert c cl) h).
Proof.
  intros (H1&H2&H3&H4) Hnew.
  assert (grows h (set_clients (insert c cl) h)) as Hg.
  { repeat split; simpl; try done. apply dom_insert_grows. }
  split; [|done]. split; [|split; [|split]].
  - intros s sv Hs. eapply valid_server_grows; [done|by eapply H1].
  - intros ns n Hn. eapply valid_namespace_grows; [done|by eapply H2].
  - intros r rm Hr. eapply valid_room_grows; [done|by eapply H3].
  - intros c' cl' Hc'. simpl in Hc'.
    apply lookup_insert_Some in Hc' as [[-> <-]|[_ Hc']]; [done|].
    eapply valid_client_grows; [done|by eapply H4].
Qed.

Lemma valid_set_conns h conn cn :
  pointers_valid h →
  pointers_valid (set_conns (insert conn cn) h) ∧ grows h (set_conns (insert conn cn) h).
Proof.
  intros (H1&H2&H3&H4).
  assert (grows h (set_conns (insert conn cn) h)) as Hg.
  { repeat split; simpl; try done. apply dom_insert_grows. }
  split; [|done]. split; [|split; [|split]].
  - intros s sv Hs. eapply valid_server_grows; [done|by eapply H1].
  - intros ns n Hn. eapply valid_namespace_grows; [done|by eapply H2].
  - intros r rm Hr. eapply valid_room_grows; [done|by eapply H3].
  - intros c cl Hc. eapply valid_client_grows; [done|by eapply H4].
Qed.

Lemma pointers_valid_empty : pointers_valid empty_heap.
Proof.
  split; [|split; [|split]]; intros ? ? Hx; unfold empty_heap in Hx; simpl in Hx;
    by rewrite lookup_empty in Hx.
Qed.

(** What each method keeps. *)

Lemma NewServer_valid h s h' :
  NewServer h = Some (s, h') → pointers_valid h →
  pointers_valid h' ∧ grows h h' ∧ s ∈ dom (h_servers h').
Proof.
  unfold NewServer, alloc. intros Hrun Hv. simplify_eq.
  destruct (valid_set_servers h (fresh (dom (h_servers h))) {| namespaces := ∅ |} Hv)
    as [Hv' Hg].
  { intros name ns Hreg. simpl in Hreg. by rewrite lookup_empty in Hreg. }
  split; [done|]. split; [done|]. simpl. rewrite dom_insert_L. set_solver.
Qed.

Lemma Server_Namespace_valid h s name ns h' :
  Server_Namespace s name h = Some (ns, h') → pointers_valid h →
  pointers_valid h' ∧ grows h h' ∧ ns ∈ dom (h_nss h') ∧ s ∈ dom (h_servers h).
Proof.
  intros Hrun Hv.
  apply Server_Namespace_inv in Hrun as (sv & Hs & [[Hreg ->]|(Hreg & Hns & ->)]).
  - split; [done|]. split; [apply grows_refl|].
    split; [|by eapply elem_of_dom_2].
    destruct Hv as (H1&_). by eapply H1.
  - destruct (valid_set_nss h ns (mkNamespace name ∅ ∅ ∅ s) Hv) as [Hv1 Hg1].
    { split; [simpl; by eapply elem_of_dom_2|]. split; [simpl; set_solver|].
      intros k r Hk. simpl in Hk. by rewrite lookup_empty in Hk. }
    destruct (valid_set_servers _ s {| namespaces := <[name := ns]> (namespaces sv) |} Hv1)
      as [Hv2 Hg2].
    { intros k q Hk. simpl in *.
      apply lookup_insert_Some in Hk as [[_ <-]|[_ Hk]].
      - rewrite dom_insert_L. set_solver.
      - apply dom_insert_grows. destruct Hv as (H1&_). by eapply H1. }
    split; [done|]. split; [by eapply grows_trans|].
    split; [|by eapply elem_of_dom_2].
    simpl. rewrite dom_insert_L. set_solver.
Qed.

Lemma Namespace_Room_valid h ns name r h' :
  Namespace_Room ns name h = Some (r, h') → pointers_valid h →
  pointers_valid h' ∧ grows h h' ∧ r ∈ dom (h_rooms h').
Proof.
  intros Hrun Hv.
  apply Namespace_Room_inv in Hrun as (n & Hn & [[Hreg ->]|(Hreg & Hr & ->)]).
  - split; [done|]. split; [apply grows_refl|].
    destruct Hv as (_&H2&_). destruct (H2 ns n Hn) as (_&_&Hrooms). by eapply Hrooms.
  - destruct (valid_set_rooms h r (mkRoom name ∅ ns) Hv) as [Hv1 Hg1].
    { split; simpl; [by eapply elem_of_dom_2|set_solver]. }
    destruct (valid_set_nss _ ns (ns_with_rooms (insert name r) n) Hv1) as [Hv2 Hg2].
    { destruct Hv as (_&H2&_). destruct (H2 ns n Hn) as (Hs&Hcs&Hrooms).
      split; [done|]. split; [done|].
      intros k q Hk. simpl in *.
      apply lookup_insert_Some in Hk as [[_ <-]|[_ Hk]].
      - rewrite dom_insert_L. set_solver.
      - apply dom_insert_grows. by eapply Hrooms. }
    split; [done|]. split; [by eapply grows_trans|].
    simpl. rewrite dom_insert_L. set_solver.
Qed.

Lemma Namespace_On_valid h ns event handler u h' :
  Namespace_On ns event handler h = Some (u, h') → pointers_valid h →
  pointers_valid h' ∧ grows h h'.
Proof.
  unfold Namespace_On. intros Hrun Hv. invert_run.
  apply valid_set_nss; [done|].
  destruct Hv as (_&H2&_).
  match goal with H : h_nss _ !! ns = Some _ |- _ => destruct (H2 _ _ H) as (Hs&Hcs&Hr) end.
  by split; [|split].
Qed.

Lemma Namespace_addClient_valid h ns c u h' :
  Namespace_addClient ns c h = Some (u, h') → pointers_valid h →
  c ∈ dom (h_clients h) →
  pointers_valid h' ∧ grows h h'.
Proof.
  unfold Namespace_addClient. intros Hrun Hv Hc. invert_run.
  apply valid_set_nss; [done|].
  destruct Hv as (_&H2&_).
  match goal with H : h_nss _ !! ns = Some _ |- _ => destruct (H2 _ _ H) as (Hs&Hcs&Hr) end.
  split; [done|]. split; [|done]. simpl. rewrite dom_insert_L. set_solver.
Qed.

Lemma Namespace_removeClient_valid h ns c u h' :
  Namespace_removeClient ns c h = Some (u, h') → pointers_valid h →
  pointers_valid h' ∧ grows h h'.
Proof.
  unfold Namespace_removeClient. intros Hrun Hv. invert_run.
  apply valid_set_nss; [done|].
  destruct Hv as (_&H2&_).
  match goal with H : h_nss _ !! ns = Some _ |- _ => destruct (H2 _ _ H) as (Hs&Hcs&Hr) end.
  split; [done|]. split; [|done]. simpl. rewrite dom_delete_L. set_solver.
Qed.

Lemma Room_addClient_valid h r c u h' :
  Room_addClient r c h = Some (u, h') → pointers_valid h →
  c ∈ dom (h_clients h) →
  pointers_valid h' ∧ grows h h'.
Proof.
  unfold Room_addClient. intros Hrun Hv Hc. invert_run.
  apply valid_set_rooms; [done|].
  destruct Hv as (_&_&H3&_).
  match goal with H : h_rooms _ !! r = Some _ |- _ => destruct (H3 _ _ H) as (Hn&Hcs) end.
  split; [done|]. simpl. rewrite dom_insert_L. set_solver.
Qed.

Lemma Room_removeClient_valid h r c u h' :
  Room_removeClient r c h = Some (u, h') → pointers_valid h →
  pointers_valid h' ∧ grows h h'.
Proof.
  unfold Room_removeClient. intros Hrun Hv. invert_run.
  apply valid_set_rooms; [done|].
  destruct Hv as (_&_&H3&_).
  match goal with H : h_rooms _ !! r = Some _ |- _ => destruct (H3 _ _ H) as (Hn&Hcs) end.
  split; [done|]. simpl. rewrite dom_delete_L. set_solver.
Qed.

Lemma client_update_valid h c cl cl' :
  pointers_valid h → h_clients h !! c = Some cl →
  c_server cl' = c_server cl → c_namespace cl' = c_namespace cl →
  c_conn cl' = c_conn cl →
  pointers_valid (set_clients (insert c cl') h) ∧ grows h (set_clients (insert c cl') h).
Proof.
  intros Hv Hc Hs Hn Hcn. apply valid_set_clients; [done|].
  destruct Hv as (_&_&_&H4). destruct (H4 c cl Hc) as (?&?&?).
  unfold valid_client. simpl. by rewrite Hs, Hn, Hcn.
Qed.

Lemma select_send_valid c msg h u h' :
  select_send c msg h = Some (u, h') → pointers_valid h →
  pointers_valid h' ∧ grows h h'.
Proof.
  unfold select_send. intros Hrun Hv. invert_run.
  by eapply client_update_valid.
Qed.

Lemma emit_loop_valid msg ks : ∀ h u h',
  for_each ks (λ client, select_send client msg) h = Some (u, h') →
  pointers_valid h → pointers_valid h' ∧ grows h h'.
Proof.
  induction ks as [|k ks IH]; intros h u h' Hrun Hv; simpl in Hrun.
  - unfold ret in Hrun. simplify_eq. split; [done|apply grows_refl].
  - apply bind_inv in Hrun as (u0 & h0 & Hk & Hrun).
    destruct (select_send_valid _ _ _ _ _ Hk Hv) as [Hv0 Hg0].
    destruct (IH _ _ _ Hrun Hv0) as [Hv' Hg'].
    split; [done|by eapply grows_trans].
Qed.

Lemma Client_Join_valid c roomName h u h' :
  Client_Join c roomName h = Some (u, h') → pointers_valid h →
  pointers_valid h' ∧ grows h h'.
Proof.
  unfold Client_Join. intros Hrun Hv.
  apply bind_inv in Hrun as (cl & h0 & Hc & Hrun). apply deref_inv in Hc as [Hc ->].
  apply bind_inv in Hrun as (u1 & h1 & Hset & Hrun). apply assign_inv in Hset as [_ ->].
  apply bind_inv in Hrun as (room & h2 & Hroom & Hrun).
  destruct (client_update_valid h c cl (with_rooms (insert roomName true) cl) Hv Hc)
    as [Hv1 Hg1]; [done..|].
  destruct (Namespace_Room_valid _ _ _ _ _ Hroom Hv1) as (Hv2 & Hg2 & _).
  destruct (Room_addClient_valid _ _ _ _ _ Hrun Hv2) as [Hv3 Hg3].
  { destruct Hg2 as (_&_&_&Hcs&_). apply Hcs. simpl. rewrite dom_insert_L. set_solver. }
  split; [done|]. eapply grows_trans; [|done]. by eapply grows_trans.
Qed.

Lemma Client_Leave_valid c roomName h u h' :
  Client_Leave c roomName h = Some (u, h') → pointers_valid h →
  pointers_valid h' ∧ grows h h'.
Proof.
  unfold Client_Leave. intros Hrun Hv.
  apply bind_inv in Hrun as (cl & h0 & Hc & Hrun). apply deref_inv in Hc as [Hc ->].
  apply bind_inv in Hrun as (u1 & h1 & Hset & Hrun). apply assign_inv in Hset as [_ ->].
  apply bind_inv in Hrun as (n & h2 & Hn & Hrun). apply deref_inv in Hn as [Hn ->].
  destruct (client_update_valid h c cl (with_rooms (delete roomName) cl) Hv Hc)
    as [Hv1 Hg1]; [done..|].
  destruct (ns_rooms n !! roomName) as [room|].
  - destruct (Room_removeClient_valid _ _ _ _ _ Hrun Hv1) as [Hv2 Hg2].
    split; [done|by eapply grows_trans].
  - unfold ret in Hrun. by simplify_eq.
Qed.

Lemma leave_loop_valid c names : ∀ h u h',
  for_each names (λ room, Client_Leave c room) h = Some (u, h') →
  pointers_valid h → pointers_valid h' ∧ grows h h'.
Proof.
  induction names as [|name names IH]; intros h u h' Hrun Hv; simpl in Hrun.
  - unfold ret in Hrun. simplify_eq. split; [done|apply grows_refl].
  - apply bind_inv in Hrun as (u0 & h0 & Hk & Hrun).
    destruct (Client_Leave_valid _ _ _ _ _ Hk Hv) as [Hv0 Hg0].
    destruct (IH _ _ _ Hrun Hv0) as [Hv' Hg'].
    split; [done|by eapply grows_trans].
Qed.

Lemma readPump_deferred_valid c h u h' :
  readPump_deferred c h = Some (u, h') → pointers_valid h →
  pointers_valid h' ∧ grows h h'.
Proof.
  unfold readPump_deferred, Conn_Close. intros Hrun Hv.
  apply bind_inv in Hrun as (cl & h0 & Hc & Hrun). apply deref_inv in Hc as [Hc ->].
  apply bind_inv in Hrun as (u1 & h1 & Hrem & Hrun).
  apply bind_inv in Hrun as (cl1 & h2 & Hc1 & Hrun). apply deref_inv in Hc1 as [Hc1 ->].
  apply bind_inv in Hrun as (u2 & h3 & Hloop & Hrun).
  apply assign_inv in Hrun as [_ ->].
  destruct (Namespace_removeClient_valid _ _ _ _ _ Hrem Hv) as [Hv1 Hg1].
  destruct (leave_loop_valid _ _ _ _ _ Hloop Hv1) as [Hv2 Hg2].
  destruct (valid_set_conns h3 (c_conn cl1) (mkConn true) Hv2) as [Hv3 Hg3].
  split; [done|]. eapply grows_trans; [|done]. by eapply grows_trans.
Qed.

Lemma ServeWebSocket_valid h s name h' :
  Server_ServeWebSocket s name true h = Some (tt, h') → pointers_valid h →
  pointers_valid h' ∧ grows h h'.
Proof.
  intros Hrun Hv.
  apply ServeWebSocket_inv in Hrun as (ns & h0 & n & Hns & Hn & ->).
  destruct (valid_set_conns h (fresh (dom (h_conns h))) (mkConn false) Hv) as [Hv0 Hg0].
  destruct (Server_Namespace_valid _ _ _ _ _ Hns Hv0) as (Hv1 & Hg1 & Hlive & Hs).
  set (c := fresh (dom (h_clients h))).
  set (cl := mkClient _ _ _ _ _ _).
  destruct (valid_set_clients h0 c cl Hv1) as [Hv2 Hg2].
  { destruct Hg1 as (Hss&_&_&_&Hcn). split; [|split]; simpl.
    - by apply Hss.
    - done.
    - apply Hcn. simpl. rewrite dom_insert_L. set_solver. }
  destruct (valid_set_nss _ ns (ns_with_clients (insert c true) n) Hv2) as [Hv3 Hg3].
  { destruct Hv1 as (_&H2&_). destruct (H2 ns n Hn) as (Hs'&Hcs&Hr).
    split; [done|]. split; [|done]. simpl. rewrite !dom_insert_L. set_solver. }
  split; [done|].
  eapply grows_trans; [|done]. eapply grows_trans; [|done]. by eapply grows_trans.
Qed.

Lemma run_op_valid o h h' :
  run_op o h = Some (tt, h') → pointers_valid h → live_args h o →
  pointers_valid h' ∧ grows h h'.
Proof.
  intros Hrun Hv Hargs. destruct o; simpl in Hrun, Hargs.
  - unfold discard in Hrun. invert_run.
    by edestruct NewServer_valid as (?&?&?).
  - unfold discard in Hrun. invert_run.
    by edestruct Server_Namespace_valid as (?&?&?).
  - by eapply Namespace_On_valid.
  - unfold discard in Hrun. invert_run.
    by edestruct Namespace_Room_valid as (?&?&?).
  - destruct upgrade; [by eapply ServeWebSocket_valid|].
    unfold Server_ServeWebSocket, ret in Hrun. simplify_eq.
    split; [done|apply grows_refl].
  - by eapply Client_Join_valid.
  - by eapply Client_Leave_valid.
  - unfold Namespace_Emit in Hrun. invert_run. by eapply emit_loop_valid.
  - unfold Room_Emit in Hrun. invert_run. by eapply emit_loop_valid.
  - unfold Client_Emit in Hrun. invert_run. by eapply select_send_valid.
  - destruct Hargs. by eapply Namespace_addClient_valid.
  - by eapply Namespace_removeClient_valid.
  - destruct Hargs. by eapply Room_addClient_valid.
  - by eapply Room_removeClient_valid.
  - by eapply readPump_deferred_valid.
Qed.

Lemma reachable_valid h : reachable live_args h → pointers_valid h.
Proof.
  induction 1 as [|h o h' _ IH Hperm Hrun].
  - apply pointers_valid_empty.
  - by edestruct run_op_valid as [? _].
Qed.

Lemma discard_Some {A} (m : M A) h a h' :
  m h = Some (a, h') → discard m h = Some (tt, h').
Proof. intros Hm. unfold discard. by rewrite (bind_Some _ _ _ _ _ Hm). Qed.

Lemma ServeWebSocket_runs h s sv name :
  h_servers h !! s = Some sv →
  (∀ ns, namespaces sv !! name = Some ns → is_Some (h_nss h !! ns)) →
  ∃ h', Server_ServeWebSocket s name true h = Some (tt, h').
Proof.
  intros Hs Hlive. unfold Server_ServeWebSocket.
  set (h0 := set_conns (insert (fresh (dom (h_conns h))) (mkConn false)) h).
  erewrite bind_Some; [|reflexivity]. fold h0.
  destruct (namespaces sv !! name) as [ns|] eqn:E.
  - destruct (Hlive ns eq_refl) as [n Hn].
    erewrite bind_Some; [|by eapply (Server_Namespace_present h0)].
    erewrite bind_Some; [|reflexivity].
    erewrite Namespace_addClient_Some; [by eexists|done].
  - erewrite bind_Some; [|by eapply (Server_Namespace_absent h0)].
    erewrite bind_Some; [|reflexivity].
    erewrite Namespace_addClient_Some; [by eexists|simpl; apply lookup_insert_eq].
Qed.

Lemma run_op_progress o h :
  pointers_valid h → live_args h o → ∃ h', run_op o h = Some (tt, h').
Proof.
  intros (H1&H2&H3&H4) Hargs. destruct o; simpl in *.
  - eexists. by eapply discard_Some.
  - apply elem_of_dom in Hargs as [sv Hs].
    destruct (namespaces sv !! name) as [ns|] eqn:E; eexists; eapply discard_Some.
    + by eapply Server_Namespace_present.
    + by eapply Server_Namespace_absent.
  - apply elem_of_dom in Hargs as [n Hn]. eexists. by eapply Namespace_On_Some.
  - apply elem_of_dom in Hargs as [n Hn].
    destruct (ns_rooms n !! name) as [r|] eqn:E; eexists; eapply discard_Some.
    + by eapply Namespace_Room_present.
    + by eapply Namespace_Room_absent.
  - destruct upgrade; [|by eexists].
    apply elem_of_dom in Hargs as [sv Hs].
    eapply ServeWebSocket_runs; [done|].
    intros ns Hns. apply elem_of_dom. by eapply H1.
  - apply elem_of_dom in Hargs as [cl Hc].
    destruct (H4 c cl Hc) as (_ & Hn & _). apply elem_of_dom in Hn as [n Hn].
    rewrite (Client_Join_eq _ _ _ _ roomName Hc Hn). simpl.
    destruct (ns_rooms n !! roomName) as [room|] eqn:E; [|by eexists].
    destruct (H2 _ n Hn) as (_ & _ & Hrooms).
    apply Hrooms, elem_of_dom in E as [rm Hrm].
    eexists. by eapply Room_addClient_Some.
  - apply elem_of_dom in Hargs as [cl Hc].
    destruct (H4 c cl Hc) as (_ & Hn & _). apply elem_of_dom in Hn as [n Hn].
    destruct (Leave_step c n roomName h cl Hc Hn) as (h' & Hrun & _).
    { intros room Hreg. destruct (H2 _ n Hn) as (_ & _ & Hrooms).
      apply elem_of_dom. by eapply Hrooms. }
    by exists h'.
  - apply elem_of_dom in Hargs as [n Hn].
    destruct (Namespace_Emit_spec h ns n event data Hn) as (h' & Hrun & _).
    { intros c Hc. destruct (H2 _ n Hn) as (_ & Hcs & _). apply elem_of_dom. by apply Hcs. }
    by exists h'.
  - apply elem_of_dom in Hargs as [rm Hrm].
    destruct (H3 r rm Hrm) as [Hn Hcs]. apply elem_of_dom in Hn as [n Hn].
    destruct (Room_Emit_spec h r rm n event data Hrm Hn) as (h' & Hrun & _).
    { intros c Hc. apply elem_of_dom. by apply Hcs. }
    by exists h'.
  - apply elem_of_dom in Hargs as [cl Hc].
    destruct (H4 c cl Hc) as (_ & Hn & _). apply elem_of_dom in Hn as [n Hn].
    eexists. by eapply Client_Emit_spec.
  - destruct Hargs as [Hn _]. apply elem_of_dom in Hn as [n Hn].
    eexists. by eapply Namespace_addClient_Some.
  - destruct Hargs as [Hn _]. apply elem_of_dom in Hn as [n Hn].
    eexists. by eapply Namespace_removeClient_Some.
  - destruct Hargs as [Hr _]. apply elem_of_dom in Hr as [rm Hr].
    eexists. by eapply Room_addClient_Some.
  - destruct Hargs as [Hr _]. apply elem_of_dom in Hr as [rm Hr].
    eexists. by eapply Room_removeClient_Some.
  - apply elem_of_dom in Hargs as [cl Hc].
    destruct (H4 c cl Hc) as (_ & Hn & Hcn).
    apply elem_of_dom in Hn as [n Hn]. apply elem_of_dom in Hcn as [cn Hcn].
    destruct (readPump_deferred_spec c h cl n cn Hc Hn Hcn) as (h' & Hrun & _).
    { intros name room _ Hreg. destruct (H2 _ n Hn) as (_ & _ & Hrooms).
      apply elem_of_dom. by eapply Hrooms. }
    by exists h'.
Qed.

(** X15.  No method panics on a pointer the library handed out.  In every
    state reached from the empty heap by operations whose receiver and
    pointer arguments are live objects, every pointer stored in a server,
    namespace, room or client points to a live object, and every operation
    on live objects returns: the namespace and room lookups, [On], the
    three emits, [Join], [Leave], the four add and remove methods, an
    accepted connection and the teardown of [readPump]. *)
Theorem operations_never_panic (h : Heap) (o : op) :
  reachable live_args h →
  live_args h o →
  pointers_valid h ∧ ∃ h', run_op o h = Some (tt, h') ∧ pointers_valid h'.
Proof.
  intros Hreach Hargs. pose proof (reachable_valid h Hreach) as Hv.
  split; [done|].
  destruct (run_op_progress o h Hv Hargs) as [h' Hrun].
  exists h'. split; [done|]. by edestruct run_op_valid as [? _].
Qed.

(** The teardown of the first client of [two_clients]. *)
Lemma operations_never_panic_witness :
  ∃ h', readPump_deferred 1 (after two_clients) = Some (tt, h').
Proof.
  edestruct operations_never_panic with (h := after two_clients) (o := OpTeardown 1)
    as (_ & h' & Hrun & _).
  - apply (reach_step live_args (after accept_twice) (OpJoin 1 "r1")).
    + apply (reach_step live_args (after accept_once) (OpAccept 1 "/" true)).
      * apply (reach_step live_args (after new_server) (OpAccept 1 "/" true)).
        -- apply (reach_step live_args empty_heap OpNewServer).
           ++ apply reach_empty.
           ++ exact I.
           ++ vm_compute. reflexivity.
        -- unfold live_args. apply elem_of_dom. eexists. vm_compute. reflexivity.
        -- vm_compute. reflexivity.
      * unfold live_args. apply elem_of_dom. eexists. vm_compute. reflexivity.
      * vm_compute. reflexivity.
    + unfold live_args. apply elem_of_dom. eexists. vm_compute. reflexivity.
    + vm_compute. reflexivity.
  - unfold live_args. apply elem_of_dom. eexists. vm_compute. reflexivity.
  - exists h'. exact Hrun.
Defined.

(** ** Rooms, members and the registry *)

(** X16.  In every state reached by the operations of [connected_op],
    called one after the other so that no call overlaps another, a member
    of a room is a connected client of the room's namespace that has
    joined the room: it is live, its namespace is the room's, it is in
    that namespace's client set, its [c.rooms] has the room's name, and
    the room is the one that namespace has under that name. *)
Theorem room_members_joined (h : Heap) (r : loc) (rm : Room) (c : loc) :
  reachable connected_op h →
  h_rooms h !! r = Some rm →
  c ∈ dom (r_clients rm) →
  ∃ cl, h_clients h !! c = Some cl ∧
        c_namespace cl = r_namespace rm ∧
        r_name rm ∈ dom (c_rooms cl) ∧
        connected h c ∧ joined h c r.
Proof.
  intros Hreach Hrm Hin.
  destruct (reachable_coherent h Hreach) as (I1 & I2 & I3 & _).
  destruct (I2 r rm c Hrm Hin) as (cl & Hcl & Hns & Hname).
  destruct (I1 r rm Hrm) as (n & Hn & Hsub).
  destruct (I3 r rm Hrm) as (n' & Hn' & Hreg).
  assert (n' = n) as -> by congruence.
  exists cl. split; [done|]. split; [done|]. split; [done|]. split.
  - exists cl, n. rewrite Hns. split; [done|]. split; [done|]. by apply Hsub.
  - exists cl, n, (r_name rm). rewrite Hns. done.
Qed.

(** The first client of [two_clients] in room "r1". *)
Lemma room_members_joined_witness :
  connected (after two_clients) 1 ∧ joined (after two_clients) 1 1.
Proof.
  edestruct room_members_joined with (h := after two_clients) (r := 1%positive)
    (c := 1%positive) as (cl & _ & _ & _ & Hconn & Hjoined).
  - apply (run_connected_reachable two_clients empty_heap).
    + apply reach_empty.
    + vm_compute. reflexivity.
  - vm_compute. reflexivity.
  - apply elem_of_dom. eexists. vm_compute. reflexivity.
  - split; [exact Hconn|exact Hjoined].
Defined.

(** X17.  Room names are scoped by namespace.  In every state of
    [connected_op], an entry of a namespace's room map points to a live
    room that carries that name and that namespace, so two entries that
    differ in the namespace or in the name point to two different rooms. *)
Theorem rooms_scoped_by_namespace (h : Heap) (ns1 ns2 : loc) (n1 n2 : Namespace)
    (name1 name2 : string) (r1 r2 : loc) :
  reachable connected_op h →
  h_nss h !! ns1 = Some n1 → ns_rooms n1 !! name1 = Some r1 →
  h_nss h !! ns2 = Some n2 → ns_rooms n2 !! name2 = Some r2 →
  (∃ rm1, h_rooms h !! r1 = Some rm1 ∧ r_name rm1 = name1 ∧ r_namespace rm1 = ns1) ∧
  (r1 = r2 → ns1 = ns2 ∧ name1 = name2).
Proof.
  intros Hreach Hn1 Hr1 Hn2 Hr2.
  destruct (reachable_coherent h Hreach) as (_ & _ & _ & I4).
  destruct (I4 _ _ _ _ Hn1 Hr1) as (rm1 & Hrm1 & Hns1 & Hname1).
  destruct (I4 _ _ _ _ Hn2 Hr2) as (rm2 & Hrm2 & Hns2 & Hname2).
  split; [by exists rm1|].
  intros <-. assert (rm2 = rm1) as -> by congruence. by subst.
Qed.

(** Room "r1" in two namespaces of one server. *)
Lemma rooms_scoped_by_namespace_witness :
  let h := after (two_clients ++ [OpNamespace 1 "/admin"; OpRoom 2 "r1"]) in
  ∃ n1 n2 r1 r2,
    h_nss h !! 1%positive = Some n1 ∧ ns_rooms n1 !! "r1" = Some r1 ∧
    h_nss h !! 2%positive = Some n2 ∧ ns_rooms n2 !! "r1" = Some r2 ∧
    (r1 = r2 → 1%positive = 2%positive).
Proof.
  intros h.
  edestruct rooms_scoped_by_namespace with (h := h) (ns1 := 1%positive)
    (ns2 := 2%positive) (name1 := "r1") (name2 := "r1") as (_ & Hinj).
  - apply (run_connected_reachable
             (two_clients ++ [OpNamespace 1 "/admin"; OpRoom 2 "r1"]) empty_heap).
    + apply reach_empty.
    + vm_compute. reflexivity.
  - vm_compute. reflexivity.
  - vm_compute. reflexivity.
  - vm_compute. reflexivity.
  - vm_compute. reflexivity.
  - eexists _, _, _, _. split; [vm_compute; reflexivity|].
    split; [vm_compute; reflexivity|]. split; [vm_compute; reflexivity|].
    split; [vm_compute; reflexivity|]. intros Heq. by apply Hinj.
Defined.

(** ** Properties that every client keeps *)

Section ClientInvariant.
Variable P : Client → Prop.
Hypothesis P_rooms : ∀ f cl, P cl → P (with_rooms f cl).
Hypothesis P_pushed : ∀ msg cl, P cl → P (pushed msg cl).
Hypothesis P_accepted : ∀ conn s ns,
  P (mkClient generateID conn s ns ∅ (make_chan 256)).

Lemma every_client_same h h' :
  h_clients h' = h_clients h → every_client P h → every_client P h'.
Proof. unfold every_client. by intros ->. Qed.

Lemma every_client_insert h h' c cl :
  h_clients h' = <[c := cl]> (h_clients h) → P cl →
  every_client P h → every_client P h'.
Proof.
  unfold every_client. intros -> Hok Hq d cd Hd.
  destruct (decide (c = d)) as [->|Hne].
  - rewrite lookup_insert_eq in Hd. by simplify_eq.
  - rewrite lookup_insert_ne in Hd by done. by eapply Hq.
Qed.

Lemma select_send_every c msg h u h' :
  select_send c msg h = Some (u, h') → every_client P h → every_client P h'.
Proof.
  unfold select_send. intros Hrun Hq. invert_run.
  eapply every_client_insert; [simpl; reflexivity| |done].
  apply P_pushed. eapply Hq; eassumption.
Qed.

Lemma emit_loop_every msg ks : ∀ h u h',
  for_each ks (λ client, select_send client msg) h = Some (u, h') →
  every_client P h → every_client P h'.
Proof.
  induction ks as [|k ks IH]; intros h u h' Hrun Hq; simpl in Hrun.
  - unfold ret in Hrun. by simplify_eq.
  - apply bind_inv in Hrun as (u0 & h0 & Hk & Hrun).
    eapply IH; [exact Hrun|]. by eapply select_send_every.
Qed.

Lemma Client_Leave_every c roomName h u h' :
  Client_Leave c roomName h = Some (u, h') → every_client P h → every_client P h'.
Proof.
  unfold Client_Leave, Room_removeClient. intros Hrun Hq. invert_run;
    (eapply every_client_insert; [simpl; reflexivity| |done]);
    apply P_rooms; eapply Hq; eassumption.
Qed.

Lemma leave_loop_every c names : ∀ h u h',
  for_each names (λ room, Client_Leave c room) h = Some (u, h') →
  every_client P h → every_client P h'.
Proof.
  induction names as [|name names IH]; intros h u h' Hrun Hq; simpl in Hrun.
  - unfold ret in Hrun. by simplify_eq.
  - apply bind_inv in Hrun as (u0 & h0 & Hk & Hrun).
    eapply IH; [exact Hrun|]. by eapply Client_Leave_every.
Qed.

Lemma run_op_every o h h' :
  run_op o h = Some (tt, h') → every_client P h → every_client P h'.
Proof.
  intros Hrun Hq. destruct o; simpl in Hrun.
  - unfold discard, NewServer in Hrun. invert_run. by eapply every_client_same.
  - unfold discard, Server_Namespace in Hrun. invert_run; by eapply every_client_same.
  - unfold Namespace_On in Hrun. invert_run. by eapply every_client_same.
  - unfold discard, Namespace_Room in Hrun. invert_run; by eapply every_client_same.
  - destruct upgrade; [|unfold Server_ServeWebSocket, ret in Hrun; by simplify_eq].
    apply ServeWebSocket_clients in Hrun as (conn & ns & Hcls).
    by eapply every_client_insert.
  - unfold Client_Join, Namespace_Room, Room_addClient in Hrun. invert_run;
      (eapply every_client_insert; [simpl; reflexivity| |done]);
      apply P_rooms; eapply Hq; eassumption.
  - by eapply Client_Leave_every.
  - unfold Namespace_Emit in Hrun. invert_run. by eapply emit_loop_every.
  - unfold Room_Emit in Hrun. invert_run. by eapply emit_loop_every.
  - unfold Client_Emit in Hrun. invert_run. by eapply select_send_every.
  - unfold Namespace_addClient in Hrun. invert_run. by eapply every_client_same.
  - unfold Namespace_removeClient in Hrun. invert_run. by eapply every_client_same.
  - unfold Room_addClient in Hrun. invert_run. by eapply every_client_same.
  - unfold Room_removeClient in Hrun. invert_run. by eapply every_client_same.
  - unfold readPump_deferred, Namespace_removeClient, Conn_Close in Hrun.
    invert_run. eapply every_client_same; [simpl; reflexivity|].
    eapply leave_loop_every; [eassumption|]. by eapply every_client_same.
Qed.

Lemma reachable_every h : reachable any_op h → every_client P h.
Proof.
  induction 1 as [|h o h' _ IH _ Hrun].
  - intros c cl Hc. unfold empty_heap in Hc. simpl in Hc. by rewrite lookup_empty in Hc.
  - by eapply run_op_every.
Qed.
End ClientInvariant.

(** ** The chat example *)

Lemma join_room_frame_decodes data :
  Unmarshal (Chat.join_room_frame data) =
  if (json_depth data <? maxNestingDepth)%N
  then v ← unmarshal_value data; Some (mkMessage "join-room" v "" "")
  else None.
Proof.
  unfold Unmarshal, Chat.join_room_frame. cbn [json_depth foldr snd].
  destruct (N.ltb_spec (json_depth data) maxNestingDepth);
    destruct (N.ltb_spec maxNestingDepth
                (N.succ (N.max 0 (N.max (json_depth data) 0)))); (done || lia).
Qed.

Lemma readPump_loop_cons call c frame rest msg :
  Unmarshal frame = Some msg →
  readPump_loop call c (frame :: rest) =
    (let* cl := deref h_clients c in
     Namespace_handleEvent call (c_namespace cl) c msg ;;;
     readPump_loop call c rest).
Proof. intros Hmsg. simpl. by rewrite Hmsg. Qed.

Lemma readPump_loop_undecoded call c frame rest :
  Unmarshal frame = None → readPump_loop call c (frame :: rest) = ret tt.
Proof. intros Hbad. simpl. by rewrite Hbad. Qed.

(** X18.  The chat example, end to end, for the frame that the page's
    [joinRoom()] sends.  With the example's handler registered for
    "join-room", a live client of the namespace that sends a string is
    joined to the room of that name (the string as decoded, [r]) and is
    itself sent "user-joined", tagged with [r], with its ID as "user" and
    [r] as "room".  A frame whose payload decodes to a value that is not
    a string changes nothing, and the inbound pump goes on with the
    frames that follow.  A frame whose payload does not decode (a number
    out of range) or is nested too deep does not decode, and the loop of
    the pump ends there, whatever follows. *)
Theorem chat_join_room (h : Heap) (ns : loc) (n : Namespace) (c : loc) (cl : Client)
    (s : string) :
  let r := to_valid_utf8 s in
  h_nss h !! ns = Some n →
  ns_events n !! "join-room" = Some Chat.join_room_handler →
  h_clients h !! c = Some cl →
  c_namespace cl = ns →
  (∀ room, ns_rooms n !! r = Some room →
     ∃ rm, h_rooms h !! room = Some rm ∧ r_namespace rm = ns ∧
           r_name rm = r ∧ all_live h (r_clients rm)) →
  (∃ h2,
     readPump_loop (Chat.call ns) c [Chat.join_room_frame (JString s)] h = Some (tt, h2) ∧
     h_clients h2 !! c =
       Some (pushed
               (mkMessage "user-joined"
                  (VMap (<["user" := VString (ID cl)]> (<["room" := VString r]> ∅)))
                  (ns_name n) r)
               (with_rooms (insert r true) cl))) ∧
  (∀ data v rest,
     unmarshal_value data = Some v → (json_depth data < maxNestingDepth)%N →
     (∀ name, v ≠ VString name) →
     readPump_loop (Chat.call ns) c (Chat.join_room_frame data :: rest) h =
       readPump_loop (Chat.call ns) c rest h) ∧
  (∀ data rest,
     unmarshal_value data = None ∨ (maxNestingDepth ≤ json_depth data)%N →
     Unmarshal (Chat.join_room_frame data) = None ∧
     readPump_loop (Chat.call ns) c (Chat.join_room_frame data :: rest) h = Some (tt, h)).
Proof.
  intros r Hn Hreg Hc Hns Hroom. subst ns. split; [|split].
  - destruct (join_then_emit h c cl n r "user-joined"
                (VMap (<["user" := VString (ID cl)]> (<["room" := VString r]> ∅)))
                Hc Hn Hroom) as (h1 & room & h2 & Hjoin & Hlookup & Hemit & Hq).
    exists h2. split; [|done].
    erewrite readPump_loop_cons; [|by rewrite join_room_frame_decodes].
    deref_step h_clients Hc.
    erewrite bind_Some; [done|].
    rewrite (Namespace_handleEvent_eq _ _ _ _ _ _ Hn). simpl msg_Event. rewrite Hreg.
    simpl msg_Data. fold r.
    unfold Chat.call. rewrite decide_False by done. rewrite decide_True by done.
    unfold Chat.on_join_room.
    deref_step h_clients Hc.
    by rewrite (bind_Some _ _ _ _ _ Hjoin), (bind_Some _ _ _ _ _ Hlookup).
  - intros data v rest Hv Hdepth Hdata.
    erewrite readPump_loop_cons.
    2:{ rewrite join_room_frame_decodes, Hv.
        by destruct (N.ltb_spec (json_depth data) maxNestingDepth); [|lia]. }
    deref_step h_clients Hc.
    erewrite bind_Some; [reflexivity|].
    rewrite (Namespace_handleEvent_eq _ _ _ _ _ _ Hn). simpl msg_Event. rewrite Hreg.
    simpl msg_Data.
    unfold Chat.call. rewrite decide_False by done. rewrite decide_True by done.
    destruct v; try done. by destruct (Hdata s0).
  - intros data rest Hv.
    assert (Unmarshal (Chat.join_room_frame data) = None) as Hbad.
    { rewrite join_room_frame_decodes.
      destruct (N.ltb_spec (json_depth data) maxNestingDepth); [|done].
      destruct Hv as [->|]; [done|lia]. }
    split; [done|]. by rewrite readPump_loop_undecoded.
Qed.

(** The first user of [Chat.two_users] joins "lobby". *)
Lemma chat_join_room_witness :
  ∃ h2, readPump_loop (Chat.call 1) 1 [Chat.join_room_frame (JString "lobby")]
          Chat.two_users = Some (tt, h2) ∧
        queue_of h2 1 =
          Some [mkMessage "user-joined"
                  (VMap (<["user" := VString "abcdefghijklmnop"]>
                           (<["room" := VString "lobby"]> ∅))) "/" "lobby"].
Proof.
  edestruct chat_join_room with (h := Chat.two_users) (ns := 1%positive)
    (c := 1%positive) (s := "lobby") as ((h2 & Hrun & Hq) & _).
  - vm_compute. reflexivity.
  - vm_compute. reflexivity.
  - vm_compute. reflexivity.
  - vm_compute. reflexivity.
  - intros room Hreg. vm_compute in Hreg. discriminate Hreg.
  - exists h2. split; [exact Hrun|]. unfold queue_of. rewrite Hq. vm_compute. reflexivity.
Defined.

Lemma Room_Emit_empty h r rm n event data :
  h_rooms h !! r = Some rm → h_nss h !! r_namespace rm = Some n →
  r_clients rm = ∅ →
  Room_Emit r event data h = Some (tt, h).
Proof.
  intros Hr Hn Hempty. unfold Room_Emit.
  deref_step h_rooms Hr. deref_step h_nss Hn.
  unfold for_range. by rewrite Hempty, map_to_list_empty.
Qed.

(** X19.  The chat example's "room-message" handler does not ask whether
    the sender is in the room, nor whether the room exists: for a payload
    that is a map with a string "room" naming a room the namespace does
    not have, the call leaves exactly the heap that [ns.Room(name)]
    leaves, with a new, empty, registered room of that name and no message
    on any queue.  Any other payload that is not a map, or has no string
    under "room", changes nothing. *)
Theorem chat_room_message_creates (h : Heap) (ns : loc) (n : Namespace) (c : loc)
    (cl : Client) (msg : gmap string value) (r : string) :
  h_nss h !! ns = Some n →
  h_clients h !! c = Some cl →
  msg !! "room" = Some (VString r) →
  ns_rooms n !! r = None →
  (∃ room h',
     Chat.on_room_message ns c (VMap msg) h = Some (tt, h') ∧
     Namespace_Room ns r h = Some (room, h') ∧
     h_rooms h !! room = None ∧
     h_rooms h' !! room = Some (mkRoom r ∅ ns) ∧
     h_clients h' = h_clients h) ∧
  (∀ data,
     match data with
     | VMap m => match m !! "room" with Some (VString _) => False | _ => True end
     | _ => True
     end →
     Chat.on_room_message ns c data h = Some (tt, h)).
Proof.
  intros Hn Hc Hroom Hnew. split.
  - pose proof (Namespace_Room_absent h ns n r Hn Hnew) as Hcreate. simpl in Hcreate.
    eexists _, _. split; [|split; [exact Hcreate|]].
    + unfold Chat.on_room_message. rewrite Hroom.
      deref_step h_clients Hc.
      rewrite (bind_Some _ _ _ _ _ Hcreate).
      eapply Room_Emit_empty.
      * simpl. apply lookup_insert_eq.
      * simpl. apply lookup_insert_eq.
      * done.
    + split; [apply fresh_unused|]. split; [|done]. simpl. apply lookup_insert_eq.
  - intros data Hdata. unfold Chat.on_room_message.
    destruct data as [| | | | | |m]; try done.
    destruct (m !! "room") as [[]|]; done.
Qed.

(** The second user of [Chat.two_users] writes to a room nobody joined. *)
Lemma chat_room_message_creates_witness :
  ∃ h', Chat.on_room_message 1 2
          (VMap (<["room" := VString "void"]> (<["text" := VString "hi"]> ∅)))
          Chat.two_users = Some (tt, h') ∧
        h_rooms Chat.two_users = ∅ ∧
        h_rooms h' !! 1%positive = Some (mkRoom "void" ∅ 1).
Proof.
  edestruct chat_room_message_creates with (h := Chat.two_users) (ns := 1%positive)
    (c := 2%positive) (r := "void")
    (msg := <["room" := VString "void"]> (<["text" := VString "hi"]> (∅ : gmap string value)))
    as ((room & h' & Hrun & Hcreate & _ & Hroom & _) & _).
  - vm_compute. reflexivity.
  - vm_compute. reflexivity.
  - vm_compute. reflexivity.
  - vm_compute. reflexivity.
  - exists h'. split; [exact Hrun|]. split; [vm_compute; reflexivity|].
    assert (room = 1%positive) as ->; [|exact Hroom].
    assert (Namespace_Room 1 "void" Chat.two_users =
            Some (1%positive, then_run (Namespace_Room 1 "void") Chat.two_users)) as Heq
      by (vm_compute; reflexivity).
    rewrite Heq in Hcreate. by injection Hcreate as <- _.
Defined.

(** X20.  Every client of every reachable state carries the ID
    "abcdefghijklmnop": clients are created by accepted connections only
    and no method changes an ID.  So the "from" field of the chat
    example's broadcast is the same for every sender: the handler for
    "message" leaves the same heap whichever live client sent the text. *)
Theorem chat_message_anonymous (h : Heap) (ns c1 c2 : loc) (data : value) :
  reachable any_op h →
  c1 ∈ dom (h_clients h) →
  c2 ∈ dom (h_clients h) →
  every_client (λ cl, ID cl = "abcdefghijklmnop") h ∧
  Chat.on_message ns c1 data h = Chat.on_message ns c2 data h.
Proof.
  intros Hreach [cl1 Hc1]%elem_of_dom [cl2 Hc2]%elem_of_dom.
  assert (every_client (λ cl, ID cl = "abcdefghijklmnop") h) as Hids.
  { by apply reachable_every. }
  split; [done|]. unfold Chat.on_message.
  deref_step h_clients Hc1. deref_step h_clients Hc2.
  by rewrite (Hids c1 cl1 Hc1), (Hids c2 cl2 Hc2).
Qed.

(** The two clients of [two_clients]. *)
Lemma chat_message_anonymous_witness :
  Chat.on_message 1 1 (VString "hi") (after two_clients) =
  Chat.on_message 1 2 (VString "hi") (after two_clients).
Proof.
  edestruct chat_message_anonymous with (h := after two_clients) (ns := 1%positive)
    (c1 := 1%positive) (c2 := 2%positive) (data := VString "hi") as [_ Heq].
  - apply (reachable_run any_op two_clients empty_heap).
    + apply reach_empty.
    + intros h0 o. exact I.
    + vm_compute. reflexivity.
  - apply elem_of_dom. eexists. vm_compute. reflexivity.
  - apply elem_of_dom. eexists. vm_compute. reflexivity.
  - exact Heq.
Defined.

(** ** Payloads that cannot be written *)

Lemma writePump_first_failure W c h cl cn (pre post : list Message) (bad : Message) :
  h_clients h !! c = Some cl →
  h_conns h !! c_conn cl = Some cn →
  chan_buf (send cl) = (pre ++ bad :: post)%list →
  (∀ i m, pre !! i = Some m → W i m = true) →
  W (length pre) bad = false →
  Client_writePump W c h =
    Some ((pre, true),
          set_conns (insert (c_conn cl) (mkConn true))
            (set_clients (insert c (with_buf post cl)) h)).
Proof.
  intros Hc Hcn Hbuf Hpre Hbad.
  destruct (Client_writePump_spec W c h cl cn Hc Hcn)
    as (written & exited & buf' & Hrun & Hok & Hshape).
  rewrite Hrun. destruct exited.
  - destruct Hshape as (failed & Hq & Hfail). rewrite Hbuf in Hq.
    assert (length pre = length written) as Hlen.
    { destruct (Nat.lt_total (length pre) (length written)) as [Hlt|[Heq|Hgt]];
        [exfalso|done|exfalso].
      - assert (written !! length pre = Some bad) as Hw.
        { rewrite <- (lookup_app_l _ (failed :: buf')) by done.
          rewrite <- Hq. by rewrite list_lookup_middle. }
        apply Hok in Hw. congruence.
      - assert (pre !! length written = Some failed) as Hw.
        { rewrite <- (lookup_app_l _ (bad :: post)) by done.
          rewrite Hq. by rewrite list_lookup_middle. }
        apply Hpre in Hw. congruence. }
    apply app_inj_1 in Hq as [-> Htail]; [|done]. by simplify_eq.
  - destruct Hshape as [Hq ->]. exfalso. rewrite Hbuf in Hq.
    assert (written !! length pre = Some bad) as Hw.
    { rewrite <- Hq. by rewrite list_lookup_middle. }
    apply Hok in Hw. congruence.
Qed.

(** X10.  A queued message whose payload cannot be encoded (a NaN or an
    infinite float anywhere in it) ends the outbound pump: [WriteJSON]
    returns the encoder's error, the pump breaks out of its loop and the
    deferred [c.conn.Close()] closes the connection.  The messages queued
    before it were written, it is consumed, and the ones behind it stay in
    the queue, never written. *)
Theorem unencodable_payload_closes (up : nat → bool) (h : Heap) (c : loc) (cl : Client)
    (cn : Conn) (pre post : list Message) (bad : Message) :
  h_clients h !! c = Some cl →
  h_conns h !! c_conn cl = Some cn →
  chan_buf (send cl) = (pre ++ bad :: post)%list →
  Forall (λ m, marshalable (msg_Data m) = true) pre →
  (∀ i, (i < length pre)%nat → up i = true) →
  marshalable (msg_Data bad) = false →
  ∃ h',
    Client_writePump (WriteJSON_over up) c h = Some ((pre, true), h') ∧
    h_conns h' !! c_conn cl = Some (mkConn true) ∧
    queue_of h' c = Some post.
Proof.
  intros Hc Hcn Hbuf Hpre Hup Hbad.
  eexists. split.
  - eapply writePump_first_failure; [done..| |].
    + intros i m Hi. unfold WriteJSON_over, Marshal.
      rewrite Forall_lookup in Hpre. rewrite (Hpre i m Hi).
      apply Hup. by eapply lookup_lt_Some.
    + unfold WriteJSON_over, Marshal. by rewrite Hbad.
  - simpl. split; [apply lookup_insert_eq|].
    unfold queue_of. simpl. by rewrite lookup_insert_eq.
Qed.

(** A NaN between a ping and an integer payload. *)
Lemma unencodable_payload_closes_witness :
  ∃ h', Client_writePump (WriteJSON_over always_up) 2 poisoned_queue =
          Some (([ping], true), h') ∧
        h_conns h' !! 2%positive = Some (mkConn true) ∧
        queue_of h' 2 = Some [int_payload].
Proof.
  edestruct unencodable_payload_closes with (up := always_up) (h := poisoned_queue)
    (c := 2%positive) (pre := [ping]) (bad := nan_payload) (post := [int_payload])
    as (h' & Hrun & Hconn & Hq).
  - vm_compute. reflexivity.
  - vm_compute. reflexivity.
  - vm_compute. reflexivity.
  - repeat constructor.
  - intros i _. reflexivity.
  - vm_compute. reflexivity.
  - exists h'. split; [exact Hrun|]. split; [exact Hconn|exact Hq].
Defined.

(** ** The mirror is exact *)

Lemma api_reachable h : reachable api_op h → reachable connected_op h.
Proof.
  induction 1 as [|h o h' _ IH Hperm Hrun]; [apply reach_empty|].
  eapply reach_step; [exact IH| |exact Hrun]. by destruct o.
Qed.

(** Steps that keep every mirror and the namespace of every client, and
    lose no registration and no member. *)
Lemma mirror_backed_frame h h' :
  mirror_backed h →
  (∀ c cl', h_clients h' !! c = Some cl' →
     c_rooms cl' = ∅ ∨
     ∃ cl, h_clients h !! c = Some cl ∧ c_namespace cl' = c_namespace cl ∧
           c_rooms cl' = c_rooms cl) →
  (∀ ns n, h_nss h !! ns = Some n →
     ∃ n', h_nss h' !! ns = Some n' ∧
           ∀ name r, ns_rooms n !! name = Some r → ns_rooms n' !! name = Some r) →
  (∀ r rm, h_rooms h !! r = Some rm →
     ∃ rm', h_rooms h' !! r = Some rm' ∧ dom (r_clients rm) ⊆ dom (r_clients rm')) →
  mirror_backed h'.
Proof.
  intros B Hcs Hns Hrs c cl' name Hcl' Hname.
  destruct (Hcs c cl' Hcl') as [Hempty|(cl & Hcl & Hsame & Hmirror)].
  { rewrite Hempty in Hname. set_solver. }
  rewrite Hmirror in Hname.
  destruct (B c cl name Hcl Hname) as (n & r & rm & Hn & Hreg & Hrm & Hin).
  destruct (Hns _ n Hn) as (n' & Hn' & Hregs).
  destruct (Hrs r rm Hrm) as (rm' & Hrm' & Hsub).
  exists n', r, rm'. rewrite Hsame. split; [done|]. split; [by apply Hregs|].
  split; [done|by apply Hsub].
Qed.

Lemma same_clients_kept (h h' : Heap) :
  h_clients h' = h_clients h →
  ∀ c cl', h_clients h' !! c = Some cl' →
    c_rooms cl' = ∅ ∨
    ∃ cl, h_clients h !! c = Some cl ∧ c_namespace cl' = c_namespace cl ∧
          c_rooms cl' = c_rooms cl.
Proof. intros -> c cl' Hc. right. by exists cl'. Qed.

Lemma same_nss_kept (h h' : Heap) :
  h_nss h' = h_nss h →
  ∀ ns n, h_nss h !! ns = Some n →
    ∃ n', h_nss h' !! ns = Some n' ∧
          ∀ name r, ns_rooms n !! name = Some r → ns_rooms n' !! name = Some r.
Proof. intros -> ns n Hn. by exists n. Qed.

Lemma same_rooms_kept (h h' : Heap) :
  h_rooms h' = h_rooms h →
  ∀ r rm, h_rooms h !! r = Some rm →
    ∃ rm', h_rooms h' !! r = Some rm' ∧ dom (r_clients rm) ⊆ dom (r_clients rm').
Proof. intros -> r rm Hr. by exists rm. Qed.

(** A namespace record replaced by one with the same or more rooms; a
    namespace that was not live has no record to keep. *)
Lemma insert_nss_kept (h h' : Heap) ns0 n0 :
  h_nss h' = <[ns0 := n0]> (h_nss h) →
  (∀ n name r, h_nss h !! ns0 = Some n → ns_rooms n !! name = Some r →
               ns_rooms n0 !! name = Some r) →
  ∀ ns n, h_nss h !! ns = Some n →
    ∃ n', h_nss h' !! ns = Some n' ∧
          ∀ name r, ns_rooms n !! name = Some r → ns_rooms n' !! name = Some r.
Proof.
  intros -> Hregs ns n Hn. destruct (decide (ns0 = ns)) as [->|Hne].
  - exists n0. rewrite lookup_insert_eq. split; [done|]. intros name r. by apply Hregs.
  - exists n. by rewrite lookup_insert_ne.
Qed.

Lemma select_send_backed c msg h u h' :
  select_send c msg h = Some (u, h') → mirror_backed h → mirror_backed h'.
Proof.
  unfold select_send. intros Hrun B. invert_run.
  eapply mirror_backed_frame; [done| |by apply same_nss_kept|by apply same_rooms_kept].
  intros d cd Hd. simpl in Hd. right.
  apply lookup_insert_Some in Hd as [[<- <-]|[_ Hd]]; eauto.
Qed.

Lemma emit_loop_backed msg ks : ∀ h u h',
  for_each ks (λ client, select_send client msg) h = Some (u, h') →
  mirror_backed h → mirror_backed h'.
Proof.
  induction ks as [|k ks IH]; intros h u h' Hrun B; simpl in Hrun.
  - unfold ret in Hrun. by simplify_eq.
  - apply bind_inv in Hrun as (u0 & h0 & Hk & Hrun).
    eapply IH; [exact Hrun|]. by eapply select_send_backed.
Qed.

Lemma Server_Namespace_backed s name h ns h' :
  Server_Namespace s name h = Some (ns, h') → mirror_backed h →
  mirror_backed h' ∧ h_clients h' = h_clients h.
Proof.
  intros Hrun B.
  apply Server_Namespace_inv in Hrun as (sv & Hs & [[Hreg ->]|(Hreg & Hns & ->)]).
  - done.
  - split; [|done].
    eapply mirror_backed_frame;
      [done|by apply same_clients_kept| |by apply same_rooms_kept].
    eapply insert_nss_kept; [simpl; reflexivity|].
    intros n k r Hn. subst ns. by rewrite fresh_unused in Hn.
Qed.

Lemma Namespace_Room_backed ns name h r h' :
  Namespace_Room ns name h = Some (r, h') → mirror_backed h → mirror_backed h'.
Proof.
  intros Hrun B.
  apply Namespace_Room_inv in Hrun as (n & Hn & [[Hreg ->]|(Hreg & Hr & ->)]); [done|].
  eapply mirror_backed_frame; [done|by apply same_clients_kept| |].
  - eapply insert_nss_kept; [simpl; reflexivity|].
    intros n0 k q Hn0 Hk. assert (n0 = n) as -> by congruence. simpl.
    rewrite lookup_insert_ne; [done|]. intros <-. congruence.
  - intros q rm Hq. exists rm. split; [|done]. simpl.
    rewrite lookup_insert_ne; [done|]. intros <-. subst r.
    by rewrite fresh_unused in Hq.
Qed.

Lemma ServeWebSocket_backed s name h h' :
  Server_ServeWebSocket s name true h = Some (tt, h') →
  mirror_backed h → mirror_backed h'.
Proof.
  intros Hrun B.
  apply ServeWebSocket_inv in Hrun as (ns & h0 & n & Hns & Hn & ->).
  destruct (Server_Namespace_backed _ _ _ _ _ Hns) as [B0 Hcs].
  { eapply mirror_backed_frame;
      [done|by apply same_clients_kept|by apply same_nss_kept|by apply same_rooms_kept]. }
  eapply mirror_backed_frame; [exact B0| | |by apply same_rooms_kept].
  - intros d cd Hd. simpl in Hd.
    apply lookup_insert_Some in Hd as [[_ <-]|[_ Hd]]; [by left|].
    right. by exists cd.
  - eapply insert_nss_kept; [simpl; reflexivity|].
    intros n0 k q Hn0 Hk. assert (n0 = n) as -> by congruence. done.
Qed.

Lemma Client_Join_backed c roomName h h' :
  Client_Join c roomName h = Some (tt, h') → connected h c →
  mirror_backed h → mirror_backed h'.
Proof.
  intros Hrun (cl & n & Hc & Hn & _) B.
  rewrite (Client_Join_eq _ _ _ _ roomName Hc Hn) in Hrun. simpl in Hrun.
  destruct (ns_rooms n !! roomName) as [room|] eqn:E.
  - unfold Room_addClient in Hrun. invert_run.
    match goal with H : h_rooms _ !! room = Some _ |- _ => simpl in H; rename H into Hrm end.
    intros d cd name Hd Hname. simpl in Hd.
    apply lookup_insert_Some in Hd as [[<- <-]|[Hne Hd]].
    + simpl in Hname. simpl c_namespace.
      destruct (decide (name = roomName)) as [->|Hname'].
      * exists n, room, (room_with_clients (insert c true) x).
        simpl. rewrite lookup_insert_eq.
        split; [done|]. split; [done|]. split; [done|]. set_solver.
      * assert (name ∈ dom (c_rooms cl)) as Hold.
        { rewrite dom_insert_L in Hname. set_solver. }
        destruct (B c cl name Hc Hold) as (n0 & r & rm & Hn0 & Hreg & Hr & Hin).
        assert (n0 = n) as -> by congruence.
        destruct (decide (r = room)) as [->|Hr'].
        -- exists n, room, (room_with_clients (insert c true) x).
           simpl. rewrite lookup_insert_eq.
           split; [done|]. split; [done|]. split; [done|]. set_solver.
        -- exists n, r, rm. simpl. by rewrite lookup_insert_ne.
    + destruct (B d cd name Hd Hname) as (n0 & r & rm & Hn0 & Hreg & Hr & Hin).
      destruct (decide (r = room)) as [->|Hr'].
      * assert (x = rm) as -> by congruence.
        exists n0, room, (room_with_clients (insert c true) rm).
        simpl. rewrite lookup_insert_eq.
        split; [done|]. split; [done|]. split; [done|]. set_solver.
      * exists n0, r, rm. simpl. by rewrite lookup_insert_ne.
  - simplify_eq.
    set (p := fresh (dom (h_rooms h))).
    assert (∀ r rm, h_rooms h !! r = Some rm → r ≠ p) as Hfresh.
    { intros r rm Hr ->. unfold p in Hr. by rewrite fresh_unused in Hr. }
    intros d cd name Hd Hname. simpl in Hd.
    apply lookup_insert_Some in Hd as [[<- <-]|[Hne Hd]].
    + simpl in Hname. simpl c_namespace.
      destruct (decide (name = roomName)) as [->|Hname'].
      * exists (ns_with_rooms (insert roomName p) n), p,
               (mkRoom roomName {[c := true]} (c_namespace cl)).
        simpl. rewrite !lookup_insert_eq.
        split; [done|]. split; [done|]. split; [done|]. set_solver.
      * assert (name ∈ dom (c_rooms cl)) as Hold.
        { rewrite dom_insert_L in Hname. set_solver. }
        destruct (B c cl name Hc Hold) as (n0 & r & rm & Hn0 & Hreg & Hr & Hin).
        assert (n0 = n) as -> by congruence.
        exists (ns_with_rooms (insert roomName p) n), r, rm.
        simpl. rewrite lookup_insert_eq.
        rewrite !lookup_insert_ne by (try done; by eapply not_eq_sym, Hfresh).
        done.
    + destruct (B d cd name Hd Hname) as (n0 & r & rm & Hn0 & Hreg & Hr & Hin).
      destruct (decide (c_namespace cd = c_namespace cl)) as [Heq|Hns].
      * assert (n0 = n) as -> by congruence.
        assert (roomName ≠ name) as Hname' by (intros ->; congruence).
        exists (ns_with_rooms (insert roomName p) n), r, rm.
        simpl. rewrite Heq, lookup_insert_eq.
        rewrite !lookup_insert_ne by (try done; by eapply not_eq_sym, Hfresh).
        done.
      * exists n0, r, rm. simpl.
        rewrite !lookup_insert_ne by (try done; by eapply not_eq_sym, Hfresh).
        done.
Qed.

Lemma Client_Leave_backed c roomName h h' :
  Client_Leave c roomName h = Some (tt, h') → registry_sound h →
  mirror_backed h → mirror_backed h'.
Proof.
  intros Hrun I4 B.
  destruct (Client_Leave_live _ _ _ _ _ Hrun) as (cl & n & Hcl & Hn).
  destruct (Leave_step c n roomName h cl Hcl Hn)
    as (h1 & Hrun1 & _ & Hnn & _ & Hcl1 & _ & Hrooms).
  { intros room Hreg. destruct (I4 _ _ _ _ Hn Hreg) as (rm & Hrm & _). eauto. }
  rewrite Hrun in Hrun1. simplify_eq.
  intros d cd name Hd Hname. rewrite Hcl1 in Hd. rewrite Hnn.
  apply lookup_insert_Some in Hd as [[<- <-]|[Hne Hd]].
  - simpl in Hname. rewrite dom_delete_L in Hname.
    apply elem_of_difference in Hname as [Hname Hother].
    destruct (B c cl name Hcl Hname) as (n0 & r & rm & Hn0 & Hreg & Hr & Hin).
    assert (n0 = n) as -> by congruence.
    exists n, r, rm. split; [done|]. split; [done|]. split; [|done].
    rewrite (Hrooms r rm Hr). rewrite decide_False; [done|].
    intros Hreg'.
    destruct (I4 _ _ _ _ Hn Hreg) as (rm1 & Hrm1 & _ & Hname1).
    destruct (I4 _ _ _ _ Hn Hreg') as (rm2 & Hrm2 & _ & Hname2).
    apply Hother, elem_of_singleton. congruence.
  - destruct (B d cd name Hd Hname) as (n0 & r & rm & Hn0 & Hreg & Hr & Hin).
    eexists n0, r, _. split; [done|]. split; [done|].
    split; [by apply Hrooms|].
    destruct (decide _); [|done]. simpl. rewrite dom_delete_L. set_solver.
Qed.

Lemma readPump_deferred_backed c h h' :
  readPump_deferred c h = Some (tt, h') → registry_sound h →
  mirror_backed h → mirror_backed h'.
Proof.
  intros Hrun I4 B.
  destruct (readPump_deferred_live _ _ _ _ Hrun I4) as (cl & n & cn & Hcl & Hn & Hcn).
  destruct (readPump_deferred_spec c h cl n cn Hcl Hn Hcn)
    as (h1 & Hrun1 & _ & Hnn & _ & Hcl1 & _ & Hrooms).
  { intros name room _ Hreg. destruct (I4 _ _ _ _ Hn Hreg) as (rm & Hrm & _). eauto. }
  rewrite Hrun in Hrun1. simplify_eq.
  intros d cd name Hd Hname. rewrite Hcl1 in Hd.
  apply lookup_insert_Some in Hd as [[<- <-]|[Hne Hd]].
  { simpl in Hname. set_solver. }
  destruct (B d cd name Hd Hname) as (n0 & r & rm & Hn0 & Hreg & Hr & Hin).
  assert (∃ n', h_nss h1 !! c_namespace cd = Some n' ∧ ns_rooms n' = ns_rooms n0)
    as (n' & Hn' & Hsame).
  { rewrite Hnn. destruct (decide (c_namespace cl = c_namespace cd)) as [Heq|Hns].
    - rewrite Heq, lookup_insert_eq. eexists. split; [done|]. simpl. congruence.
    - rewrite lookup_insert_ne by done. by exists n0. }
  destruct (Hrooms r rm Hr) as [Hyes Hno].
  destruct (classic_registered n (map_to_list (c_rooms cl)).*1 r) as [Hin'|Hout].
  - exists n', r, (room_with_clients (delete c) rm).
    split; [done|]. split; [by rewrite Hsame|]. split; [by apply Hyes|].
    simpl. rewrite dom_delete_L. set_solver.
  - exists n', r, rm. split; [done|]. split; [by rewrite Hsame|].
    split; [by apply Hno|done].
Qed.

Lemma run_op_backed h o h' :
  api_op h o → run_op o h = Some (tt, h') → registry_sound h →
  mirror_backed h → mirror_backed h'.
Proof.
  intros Hperm Hrun I4 B. destruct o; simpl in Hperm, Hrun; try done.
  - unfold discard, NewServer in Hrun. invert_run.
    eapply mirror_backed_frame;
      [done|by apply same_clients_kept|by apply same_nss_kept|by apply same_rooms_kept].
  - unfold discard in Hrun. invert_run.
    by edestruct Server_Namespace_backed as [? _].
  - unfold Namespace_On in Hrun. invert_run.
    eapply mirror_backed_frame;
      [done|by apply same_clients_kept| |by apply same_rooms_kept].
    eapply insert_nss_kept; [simpl; reflexivity|].
    intros n0 k q Hn0 Hk. simpl. congruence.
  - unfold discard in Hrun. invert_run. by eapply Namespace_Room_backed.
  - destruct upgrade; [by eapply ServeWebSocket_backed|].
    unfold Server_ServeWebSocket, ret in Hrun. by simplify_eq.
  - by eapply Client_Join_backed.
  - by eapply Client_Leave_backed.
  - unfold Namespace_Emit in Hrun. invert_run. by eapply emit_loop_backed.
  - unfold Room_Emit in Hrun. invert_run. by eapply emit_loop_backed.
  - unfold Client_Emit in Hrun. invert_run. by eapply select_send_backed.
  - unfold Namespace_addClient in Hrun. invert_run.
    eapply mirror_backed_frame;
      [done|by apply same_clients_kept| |by apply same_rooms_kept].
    eapply insert_nss_kept; [simpl; reflexivity|].
    intros n0 k q Hn0 Hk. simpl. congruence.
  - by eapply readPump_deferred_backed.
Qed.

Lemma reachable_backed h : reachable api_op h → mirror_backed h.
Proof.
  induction 1 as [|h o h' Hreach IH Hperm Hrun].
  - intros c cl name Hc. unfold empty_heap in Hc. simpl in Hc.
    by rewrite lookup_empty in Hc.
  - eapply run_op_backed; [done..| |done].
    by destruct (reachable_coherent h (api_reachable h Hreach)) as (_ & _ & _ & ?).
Qed.

(** X21.  The mirror is exact.  In every state reached through the
    exported methods and the pumps (the operations of [connected_op]
    without a direct [Room.removeClient]), called one after the other so
    that no call overlaps another, a name is in [c.rooms] exactly when
    [c]'s namespace has a room under that name and [c] is in that room's
    client set. *)
Theorem mirror_exact (h : Heap) (c : loc) (cl : Client) (name : string) :
  reachable api_op h →
  h_clients h !! c = Some cl →
  name ∈ dom (c_rooms cl) ↔
  ∃ n r rm, h_nss h !! c_namespace cl = Some n ∧ ns_rooms n !! name = Some r ∧
            h_rooms h !! r = Some rm ∧ c ∈ dom (r_clients rm).
Proof.
  intros Hreach Hc. split.
  - intros Hname. by eapply (reachable_backed h Hreach).
  - intros (n & r & rm & Hn & Hreg & Hrm & Hin).
    destruct (reachable_coherent h (api_reachable h Hreach)) as (_ & I2 & _ & I4).
    destruct (I2 r rm c Hrm Hin) as (cl0 & Hcl0 & _ & Hname).
    destruct (I4 _ _ _ _ Hn Hreg) as (rm0 & Hrm0 & _ & Hname0).
    assert (cl0 = cl) as -> by congruence.
    assert (rm0 = rm) as -> by congruence.
    by rewrite <- Hname0.
Qed.

(** The first client of [two_clients] has "r1" in its mirror. *)
Lemma mirror_exact_witness :
  ∃ n r rm, h_nss (after two_clients) !! 1%positive = Some n ∧
            ns_rooms n !! "r1" = Some r ∧
            h_rooms (after two_clients) !! r = Some rm ∧
            1%positive ∈ dom (r_clients rm).
Proof.
  edestruct mirror_exact with (h := after two_clients) (c := 1%positive)
    (name := "r1") as [Hfwd _].
  - apply (reach_step api_op (after accept_twice) (OpJoin 1 "r1")).
    + apply (reach_step api_op (after accept_once) (OpAccept 1 "/" true)).
      * apply (reach_step api_op (after new_server) (OpAccept 1 "/" true)).
        -- apply (reach_step api_op empty_heap OpNewServer).
           ++ apply reach_empty.
           ++ exact I.
           ++ vm_compute. reflexivity.
        -- exact I.
        -- vm_compute. reflexivity.
      * exact I.
      * vm_compute. reflexivity.
    + apply connectedb_sound. vm_compute. reflexivity.
    + vm_compute. reflexivity.
  - vm_compute. reflexivity.
  - apply Hfwd. apply elem_of_dom. eexists. vm_compute. reflexivity.
Defined.

(** ** Interleavings

    Run with nothing in between, the lock scopes of [Join], [Leave] and
    the teardown are the methods of the sections above. *)

Lemma bind_ret_unit (m : M unit) h : (m ;;; ret tt) h = m h.
Proof. unfold bind, ret. by destruct (m h) as [[[] h1]|]. Qed.

Lemma run_through_unfold depth s :
  run_through depth s =
    (let* next := run_step s in
     match depth, next with
     | _, [] => ret tt
     | O, _ => λ _, None
     | S depth', _ => for_each next (run_through depth')
     end).
Proof. by destruct depth. Qed.

(** A step that goes on with nothing. *)
Lemma run_through_last depth s (m : M unit) h :
  run_step s h = (m ;;; ret []) h → run_through depth s h = m h.
Proof.
  intros Hs. rewrite run_through_unfold. unfold bind at 1. rewrite Hs.
  unfold bind, ret. destruct (m h) as [[[] h1]|]; [|done]. by destruct depth.
Qed.

Lemma through_JoinMirror depth c roomName h :
  run_through depth (JoinMirror c roomName) h =
    (let* cl := deref h_clients c in
     assign h_clients set_clients c (with_rooms (insert roomName true) cl)) h.
Proof.
  apply run_through_last. simpl. unfold bind.
  by destruct (deref h_clients c h) as [[cl h1]|].
Qed.

Lemma through_LeaveMirror depth c roomName h :
  run_through depth (LeaveMirror c roomName) h =
    (let* cl := deref h_clients c in
     assign h_clients set_clients c (with_rooms (delete roomName) cl)) h.
Proof.
  apply run_through_last. simpl. unfold bind.
  by destruct (deref h_clients c h) as [[cl h1]|].
Qed.

Lemma through_JoinAdd depth room c h :
  run_through depth (JoinAdd room c) h = Room_addClient room c h.
Proof. by apply run_through_last. Qed.

Lemma through_LeaveRemove depth room c h :
  run_through depth (LeaveRemove room c) h = Room_removeClient room c h.
Proof. by apply run_through_last. Qed.

Lemma through_TeardownRemove depth c h :
  run_through depth (TeardownRemove c) h =
    (let* cl := deref h_clients c in Namespace_removeClient (c_namespace cl) c) h.
Proof.
  apply run_through_last. simpl. unfold bind.
  by destruct (deref h_clients c h) as [[cl h1]|].
Qed.

Lemma through_TeardownClose depth c h :
  run_through depth (TeardownClose c) h =
    (let* cl := deref h_clients c in Conn_Close (c_conn cl)) h.
Proof.
  apply run_through_last. simpl. unfold bind.
  by destruct (deref h_clients c h) as [[cl h1]|].
Qed.

Lemma through_JoinRoom depth c roomName h :
  run_through (S depth) (JoinRoom c roomName) h =
    (let* cl := deref h_clients c in
     let* room := Namespace_Room (c_namespace cl) roomName in
     Room_addClient room c) h.
Proof.
  rewrite run_through_unfold. simpl run_step. unfold bind at 1 2 3 4 5, ret at 1.
  destruct (deref h_clients c h) as [[cl h1]|]; [|done].
  destruct (Namespace_Room (c_namespace cl) roomName h1) as [[room h2]|]; [|done].
  cbn [for_each]. rewrite bind_ret_unit. apply through_JoinAdd.
Qed.

Lemma through_LeaveLookup depth c roomName h :
  run_through (S depth) (LeaveLookup c roomName) h =
    (let* cl := deref h_clients c in
     let* n := deref h_nss (c_namespace cl) in
     match ns_rooms n !! roomName with
     | Some room => Room_removeClient room c
     | None => ret tt
     end) h.
Proof.
  rewrite run_through_unfold. simpl run_step. unfold bind at 1 2 3 4 5, ret at 1.
  destruct (deref h_clients c h) as [[cl h1]|]; [|done].
  destruct (deref h_nss (c_namespace cl) h1) as [[n h2]|]; [|done].
  destruct (ns_rooms n !! roomName) as [room|]; [|done].
  cbn [for_each]. rewrite bind_ret_unit. apply through_LeaveRemove.
Qed.

Lemma deref_None {A} (store : Heap → gmap loc A) p {B} (k : A → M B) h :
  store h !! p = None → bind (deref store p) k h = None.
Proof. intros Hp. unfold bind, deref. by rewrite Hp. Qed.

(** Run alone, the steps of a method are the method. *)
Lemma Join_alone c roomName h :
  run_alone (Join_steps c roomName) h = Client_Join c roomName h.
Proof.
  unfold run_alone, Join_steps, Client_Join. cbn [for_each].
  unfold bind at 1. rewrite through_JoinMirror.
  destruct (h_clients h !! c) as [cl|] eqn:Hc.
  - rewrite !(bind_Some _ _ _ _ _ (deref_Some h_clients _ _ _ Hc)).
    rewrite (bind_Some _ _ _ _ _ (assign_Some h_clients set_clients c _ _ _ Hc)).
    rewrite (assign_Some h_clients set_clients c _ _ _ Hc).
    rewrite bind_ret_unit, through_JoinRoom.
    erewrite bind_Some; [|apply deref_Some; simpl; apply lookup_insert_eq]. done.
  - by rewrite !deref_None.
Qed.

Lemma Leave_through c roomName h :
  (run_through 1 (LeaveMirror c roomName) ;;; run_through 1 (LeaveLookup c roomName)) h
  = Client_Leave c roomName h.
Proof.
  unfold Client_Leave.
  unfold bind at 1. rewrite through_LeaveMirror.
  destruct (h_clients h !! c) as [cl|] eqn:Hc.
  - rewrite !(bind_Some _ _ _ _ _ (deref_Some h_clients _ _ _ Hc)).
    rewrite (bind_Some _ _ _ _ _ (assign_Some h_clients set_clients c _ _ _ Hc)).
    rewrite (assign_Some h_clients set_clients c _ _ _ Hc).
    rewrite through_LeaveLookup.
    erewrite bind_Some; [|apply deref_Some; simpl; apply lookup_insert_eq]. done.
  - by rewrite !deref_None.
Qed.

Lemma Leave_alone c roomName h :
  run_alone (Leave_steps c roomName) h = Client_Leave c roomName h.
Proof.
  rewrite <- Leave_through. unfold run_alone, Leave_steps. cbn [for_each].
  unfold bind at 1 3.
  rewrite !through_LeaveMirror.
  destruct ((let* cl := deref h_clients c in
             assign h_clients set_clients c (with_rooms (delete roomName) cl)) h)
    as [[[] h1]|]; [|done].
  by rewrite bind_ret_unit, !through_LeaveLookup.
Qed.

Lemma Leave_loop_through c names : ∀ h,
  for_each (flat_map (Leave_steps c) names) (run_through 1) h =
  for_each names (λ room, Client_Leave c room) h.
Proof.
  induction names as [|name names IH]; intros h; [done|].
  change (flat_map (Leave_steps c) (name :: names))
    with (LeaveMirror c name :: LeaveLookup c name :: flat_map (Leave_steps c) names).
  cbn [for_each]. unfold bind at 3. rewrite <- Leave_through.
  unfold bind at 1 2 3.
  destruct (run_through 1 (LeaveMirror c name) h) as [[[] h1]|]; [|done].
  destruct (run_through 1 (LeaveLookup c name) h1) as [[[] h2]|]; [|done].
  apply IH.
Qed.

Lemma through_TeardownSnapshot c h :
  run_through 2 (TeardownSnapshot c) h =
    (let* cl := deref h_clients c in
     for_each (map_to_list (c_rooms cl)).*1 (λ room, Client_Leave c room)) h.
Proof.
  rewrite run_through_unfold. cbn [run_step]. unfold bind at 1 2 3, ret at 1.
  destruct (deref h_clients c h) as [[cl h1]|]; [|done].
  rewrite <- Leave_loop_through.
  by destruct (flat_map (Leave_steps c) (map_to_list (c_rooms cl)).*1).
Qed.

Lemma Client_Leave_conn c roomName h u h' cl :
  Client_Leave c roomName h = Some (u, h') → h_clients h !! c = Some cl →
  ∃ cl', h_clients h' !! c = Some cl' ∧ c_conn cl' = c_conn cl.
Proof.
  unfold Client_Leave, Room_removeClient. intros Hrun Hc. invert_run;
    simplify_eq; eexists; (split; [simpl; apply lookup_insert_eq|done]).
Qed.

Lemma leave_loop_conn c names : ∀ h u h' cl,
  for_each names (λ room, Client_Leave c room) h = Some (u, h') →
  h_clients h !! c = Some cl →
  ∃ cl', h_clients h' !! c = Some cl' ∧ c_conn cl' = c_conn cl.
Proof.
  induction names as [|name names IH]; intros h u h' cl Hrun Hc; simpl in Hrun.
  - unfold ret in Hrun. simplify_eq. by exists cl.
  - apply bind_inv in Hrun as (u0 & h0 & Hleave & Hrun).
    destruct (Client_Leave_conn _ _ _ _ _ _ Hleave Hc) as (cl0 & Hc0 & Hconn0).
    destruct (IH _ _ _ _ Hrun Hc0) as (cl' & Hc' & Hconn').
    exists cl'. split; [done|congruence].
Qed.

Lemma Teardown_alone c h :
  run_alone (Teardown_steps c) h = readPump_deferred c h.
Proof.
  unfold run_alone, Teardown_steps, readPump_deferred. cbn [for_each].
  unfold bind at 1. rewrite through_TeardownRemove.
  destruct (h_clients h !! c) as [cl|] eqn:Hc; [|by rewrite !deref_None].
  rewrite !(bind_Some _ _ _ _ _ (deref_Some h_clients _ _ _ Hc)).
  unfold bind at 3.
  destruct (Namespace_removeClient (c_namespace cl) c h) as [[[] h1]|] eqn:Hrem; [|done].
  assert (h_clients h1 !! c = Some cl) as Hc1.
  { unfold Namespace_removeClient in Hrem. invert_run. done. }
  unfold bind at 1. rewrite through_TeardownSnapshot.
  rewrite !(bind_Some _ _ _ _ _ (deref_Some h_clients _ _ _ Hc1)).
  unfold bind at 2.
  destruct (for_each _ _ h1) as [[[] h2]|] eqn:Hloop; [|done].
  rewrite bind_ret_unit, through_TeardownClose.
  destruct (leave_loop_conn _ _ _ _ _ _ Hloop Hc1) as (cl2 & Hc2 & Hconn).
  rewrite (bind_Some _ _ _ _ _ (deref_Some h_clients _ _ _ Hc2)). by rewrite Hconn.
Qed.

(** *** A Join that overlaps the teardown *)

(** C5 (the code does not do this when a [Join] overlaps the teardown).
    After the inbound pump of a client has ended, the client should be in
    no room it had joined and its [c.rooms] should be empty.  The first
    client of [two_clients] is connected and in room "r1".  Its transport
    closes, and while the deferred
    function of its [readPump] runs, another goroutine calls [Join("r2")]
    on it: the three lock scopes of the [Join] run after the teardown has
    copied the names of [c.rooms] and before it leaves the rooms of the
    copy.  Both calls return; the connection is closed and the client is
    out of its namespace, but [c.rooms] still has "r2" and the room "r2"
    still has the client. *)
Theorem teardown_race :
  let h := after two_clients in
  let h' := then_run (run_schedule join_after_snapshot teardown_and_join) h in
  connectedb h 1 = true ∧
  (λ cl, map_to_list (c_rooms cl)) <$> h_clients h !! 1%positive
    = Some [("r1", true)] ∧
  run_schedule join_after_snapshot teardown_and_join h = Some ([[]; []], h') ∧
  conn_closed <$> h_conns h' !! 1%positive = Some true ∧
  (λ n, ns_clients n !! 1%positive) <$> h_nss h' !! 1%positive = Some None ∧
  (λ cl, map_to_list (c_rooms cl)) <$> h_clients h' !! 1%positive
    = Some [("r2", true)] ∧
  (λ n, ns_rooms n !! "r2") <$> h_nss h' !! 1%positive = Some (Some 2%positive) ∧
  (λ rm, (r_name rm, r_clients rm !! 1%positive)) <$> h_rooms h' !! 2%positive
    = Some ("r2", Some true).
Proof. vm_compute. repeat split; reflexivity. Qed.

(** The same two calls in the other order of overlap: the [Join] writes
    the mirror, the whole teardown runs, and the [Join] goes on to
    [room.addClient].  The client ends in room "r2" and not in the
    namespace, so the room is no subset of the namespace, although the
    client was connected when it called [Join]. *)
Example join_across_teardown_subset :
  let h := after two_clients in
  let h' := then_run (run_schedule join_across_teardown teardown_and_join) h in
  connectedb h 1 = true ∧
  run_schedule join_across_teardown teardown_and_join h = Some ([[]; []], h') ∧
  ¬ room_subset h'.
Proof.
  split; [by vm_compute|]. split; [by vm_compute|].
  eapply (room_subset_refuted _ 2%positive _ _ 1%positive).
  - vm_compute. reflexivity.
  - vm_compute. reflexivity.
  - vm_compute. by eexists.
  - vm_compute. reflexivity.
Qed.
